(** * aegisub_vs: helpers of the VapourSynth video provider

    A shallow embedding of [automation/vapoursynth/aegisub_vs.py] and the
    properties of its functions.

    Conventions of the embedding:
    - a Python [str] is a [list ascii]; the index file is decoded as
      latin-1, so its characters are exactly the 8-bit ones;
    - a Python [int] is a [Z]; [//] is [Z.div], which floors like Python;
    - a raised exception is the [Raise] case of [result];
    - the VapourSynth core, its plugins, the file system and what the
      operating system does on writing are explicit arguments. *)

From Stdlib Require Import Ascii String DecimalString.
From Stdlib Require DecimalZ.
From Stdlib Require Import List ZArith Bool Lia Sorted Permutation.
Import ListNotations.

Local Open Scope list_scope.

(** ** Python values *)

Definition str := list ascii.

(** A string literal of the source. *)
Definition lit (s : string) : str := list_ascii_of_string s.

(** The exceptions the module raises or lets through. [VsError] is
    [vs.Error] with its message; [OtherError] stands for any exception
    class the module neither raises nor catches. *)
Inductive exn :=
| ValueError
| IndexError
| KeyError
| ZeroDivisionError
| AttributeError
| OSError
| VsError (msg : str)
| OtherError (tag : nat).

Inductive result (A : Type) :=
| Ok (a : A)
| Raise (e : exn).
Arguments Ok {A} a.
Arguments Raise {A} e.

Definition bind {A B} (m : result A) (k : A -> result B) : result B :=
  match m with
  | Ok a => k a
  | Raise e => Raise e
  end.

Notation "x <- m ;; k" := (bind m (fun x => k))
  (at level 61, m at next level, right associativity).
Notation "' p <- m ;; k" := (bind m (fun x => let p := x in k))
  (at level 61, p pattern, m at next level, right associativity).

(** A list comprehension whose element expression may raise: the elements
    are evaluated left to right and the first exception ends it. *)
Fixpoint mapM {A B} (f : A -> result B) (l : list A) : result (list B) :=
  match l with
  | [] => Ok []
  | a :: l' => b <- f a ;; bs <- mapM f l' ;; Ok (b :: bs)
  end.

Definition len {A} (l : list A) : Z := Z.of_nat (length l).

(** [l[i:]] for any integer [i]: a negative [i] counts from the end and
    the bound is clipped to the list. *)
Definition slice_from {A} (l : list A) (i : Z) : list A :=
  let start := if (i <? 0)%Z then Z.max 0 (len l + i) else i in
  skipn (Z.to_nat start) l.

(** [l[:j]] for any integer [j]. *)
Definition slice_to {A} (l : list A) (j : Z) : list A :=
  let stop := if (j <? 0)%Z then Z.max 0 (len l + j) else j in
  firstn (Z.to_nat stop) l.

(** [l[i:j]] for indexes [i], [j] that are not negative. *)
Definition slice {A} (l : list A) (i j : nat) : list A :=
  firstn (j - i) (skipn i l).

(** [l[i]] for any integer [i]. *)
Definition getitem {A} (l : list A) (i : Z) : result A :=
  let k := if (i <? 0)%Z then (len l + i)%Z else i in
  if (k <? 0)%Z then Raise IndexError
  else match nth_error l (Z.to_nat k) with
       | Some a => Ok a
       | None => Raise IndexError
       end.

(** [s.find(c)] for a one-character [c]: the first position of [c], or
    [-1]. *)
Fixpoint find (c : ascii) (s : str) : Z :=
  match s with
  | [] => (-1)%Z
  | d :: s' =>
      if Ascii.eqb d c then 0%Z
      else let r := find c s' in
           if (r <? 0)%Z then (-1)%Z else (r + 1)%Z
  end.

(** [c in t] for a one-character [c]. *)
Definition char_in (c : ascii) (t : str) : bool :=
  existsb (Ascii.eqb c) t.

(** ** Cache and keyframe file names *)

Definition max_len : Z := 254.
Definition extension : str := lit ".lwi".

Definition make_lwi_cache_filename (filename : str) : str :=
  let filename :=
    if (len filename + len extension >? max_len)%Z
    then slice_from filename (- (max_len + len extension))
    else filename in
  map (fun c => if char_in c (lit "/\:") then "_"%char else c) filename
  ++ extension.

Definition make_keyframes_filename (filename : str) : str :=
  let extlen := (find "."%char (rev filename) + 1)%Z in
  slice_to filename (len filename - extlen) ++ lit " keyframes.txt".

(** ** Regular expressions

    The three patterns of the module are sequences of literal texts and
    named groups of the shape [(?P<name>-?[class]+)] or
    [(?P<name>[class]+)]. Each group is followed by a literal that starts
    with a character outside its class, or ends the pattern, so the
    greedy left-to-right match below is the match [re.match] finds
    ([re_match_complete] shows that no other split of the line can
    succeed where this one fails). *)

Inductive re_item :=
| Lit (text : str)
| Group (name : string) (minus : bool) (class : ascii -> bool).

Definition regex := list re_item.

(** The groups of a match object, in pattern order. *)
Definition re_groups := list (string * str).

Fixpoint strip_prefix (p s : str) : option str :=
  match p, s with
  | [], _ => Some s
  | c :: p', d :: s' => if Ascii.eqb c d then strip_prefix p' s' else None
  | _ :: _, [] => None
  end.

(** The longest prefix of [s] in the class, and the rest. *)
Fixpoint span (class : ascii -> bool) (s : str) : str * str :=
  match s with
  | [] => ([], [])
  | c :: s' =>
      if class c then let (a, b) := span class s' in (c :: a, b)
      else ([], s)
  end.

Definition match_group (minus : bool) (class : ascii -> bool) (s : str)
  : option (str * str) :=
  let (sign, s1) :=
    match s with
    | c :: s' => if minus && Ascii.eqb c "-" then ([c], s') else ([], s)
    | [] => ([], [])
    end in
  let (body, rest) := span class s1 in
  match body with
  | [] => None
  | _ :: _ => Some (sign ++ body, rest)
  end.

(** [r.match(s)]: [None] when the pattern does not match at the start of
    [s]; text after the match is ignored. *)
Fixpoint re_match (r : regex) (s : str) : option re_groups :=
  match r with
  | [] => Some []
  | Lit p :: r' =>
      match strip_prefix p s with
      | Some s' => re_match r' s'
      | None => None
      end
  | Group name minus class :: r' =>
      match match_group minus class s with
      | Some (g, s') =>
          match re_match r' s' with
          | Some gs => Some ((name, g) :: gs)
          | None => None
          end
      | None => None
      end
  end.

(** [m.group(name)]. *)
Fixpoint group (m : re_groups) (name : string) : result str :=
  match m with
  | [] => Raise IndexError
  | (n, g) :: m' => if String.eqb n name then Ok g else group m' name
  end.

Definition in_range (lo hi : nat) (c : ascii) : bool :=
  let n := nat_of_ascii c in (lo <=? n)%nat && (n <=? hi)%nat.

(** [[0-9]] *)
Definition is_digit (c : ascii) : bool := in_range 48 57 c.

(** [[0-9\/]] *)
Definition is_digit_or_slash (c : ascii) : bool :=
  is_digit c || Ascii.eqb c "/".

(** [[0-9a-zA-Z]] *)
Definition is_alnum (c : ascii) : bool :=
  is_digit c || in_range 97 122 c || in_range 65 90 c.

Definition int_group (name : string) : re_item := Group name true is_digit.
Definition nat_group (name : string) : re_item := Group name false is_digit.

Definition lwindex_re1 : regex :=
  [ Lit (lit "Index="); int_group "Index";
    Lit (lit ",POS="); int_group "POS";
    Lit (lit ",PTS="); int_group "PTS";
    Lit (lit ",DTS="); int_group "DTS";
    Lit (lit ",EDI="); int_group "EDI" ].

Definition lwindex_re2 : regex :=
  [ Lit (lit "Key="); int_group "Key";
    Lit (lit ",Pic="); int_group "Pic";
    Lit (lit ",POC="); int_group "POC";
    Lit (lit ",Repeat="); int_group "Repeat";
    Lit (lit ",Field="); int_group "Field" ].

Definition streaminfo_re : regex :=
  [ Lit (lit "Codec="); nat_group "Codec";
    Lit (lit ",TimeBase="); Group "TimeBase" false is_digit_or_slash;
    Lit (lit ",Width="); nat_group "Width";
    Lit (lit ",Height="); nat_group "Height";
    Lit (lit ",Format="); Group "Format" false is_alnum;
    Lit (lit ",ColorSpace="); nat_group "ColorSpace" ].

(** ** Built-in conversions *)

(** The characters [str.isspace] accepts among the 8-bit ones. *)
Definition is_space (c : ascii) : bool :=
  in_range 9 13 c || in_range 28 32 c
  || Ascii.eqb c (ascii_of_nat 133) || Ascii.eqb c (ascii_of_nat 160).

Fixpoint dropwhile (p : ascii -> bool) (s : str) : str :=
  match s with
  | [] => []
  | c :: s' => if p c then dropwhile p s' else s
  end.

(** [s.strip()] *)
Definition strip (s : str) : str :=
  rev (dropwhile is_space (rev (dropwhile is_space s))).

Definition digit_val (c : ascii) : Z := Z.of_nat (nat_of_ascii c) - 48.

(** Decimal digits with single underscores between them, read after the
    first digit has been seen. *)
Fixpoint int_digits (acc : Z) (s : str) : option Z :=
  match s with
  | [] => Some acc
  | c :: s' =>
      if is_digit c then int_digits (acc * 10 + digit_val c) s'
      else if Ascii.eqb c "_" then
        match s' with
        | d :: _ => if is_digit d then int_digits acc s' else None
        | [] => None
        end
      else None
  end.

(** The bound of the interpreter on the number of digits of an integer
    read from or written to a string, at its default
    ([sys.get_int_max_str_digits()]). *)
Definition int_max_str_digits : nat := 4300.

(** The number of digits of a text; signs, blanks and underscores do not
    count. *)
Definition count_digits (s : str) : nat := length (filter is_digit s).

Arguments int_max_str_digits : simpl never.
Arguments count_digits : simpl never.

(** [int(s)] for a string [s] of 8-bit characters: blanks around, a sign,
    decimal digits, no more of them than the bound allows. *)
Definition py_int (s : str) : result Z :=
  let s := strip s in
  let (neg, s) :=
    match s with
    | c :: s' =>
        if Ascii.eqb c "-" then (true, s')
        else if Ascii.eqb c "+" then (false, s')
        else (false, s)
    | [] => (false, [])
    end in
  match s with
  | c :: _ =>
      if is_digit c then
        match int_digits 0 s with
        | Some v =>
            if (int_max_str_digits <? count_digits s)%nat
            then Raise ValueError
            else Ok (if neg then (- v)%Z else v)
        | None => Raise ValueError
        end
      else Raise ValueError
  | [] => Raise ValueError
  end.

(** The decimal text of an integer. *)
Definition decimal (n : Z) : str :=
  list_ascii_of_string (NilZero.string_of_int (Z.to_int n)).

(** [str(n)] for an integer, and [f"{n}"]: its decimal text, refused
    when it has more digits than the bound allows. *)
Definition py_str (n : Z) : result str :=
  if (int_max_str_digits <? count_digits (decimal n))%nat
  then Raise ValueError
  else Ok (decimal n).

(** [a // b] *)
Definition floordiv (a b : Z) : result Z :=
  if (b =? 0)%Z then Raise ZeroDivisionError else Ok (a / b)%Z.

(** [s.split(sep)] for a one-character separator. *)
Fixpoint split (sep : ascii) (s : str) : list str :=
  match s with
  | [] => [[]]
  | c :: s' =>
      if Ascii.eqb c sep then [] :: split sep s'
      else match split sep s' with
           | h :: t => (c :: h) :: t
           | [] => [[c]]
           end
  end.

(** [a, b = l] *)
Definition unpack2 {A} (l : list A) : result (A * A) :=
  match l with
  | [a; b] => Ok (a, b)
  | _ => Raise ValueError
  end.

Definition str_eqb (a b : str) : bool :=
  if list_eq_dec ascii_dec a b then true else false.

(** [l.index(x)] *)
Fixpoint list_index (x : str) (l : list str) : result nat :=
  match l with
  | [] => Raise ValueError
  | y :: l' =>
      if str_eqb y x then Ok 0%nat
      else i <- list_index x l' ;; Ok (S i)
  end.

(** [range(start, stop, 2)] *)
Definition range2 (start stop : nat) : list nat :=
  map (fun k => (start + 2 * k)%nat) (seq 0 ((stop - start + 1) / 2)).

(** [enumerate(l)] *)
Definition enumerate {A} (l : list A) : list (Z * A) :=
  combine (map Z.of_nat (seq 0 (length l))) l.

(** ** Text files

    The file system maps a path to the text of the file that can be read
    there; [None] stands for every path at which [open] raises
    [OSError]: no file, a directory, a file that may not be read. A path
    with a NUL character names no file, and [open] raises [ValueError]
    for it. Reading goes through the text layer of [open]: the bytes are
    decoded as latin-1, one character each, and [\r\n] and [\r] become
    [\n]. *)

Definition filesystem := str -> option str.

Definition has_nul (path : str) : bool := existsb (Ascii.eqb zero) path.

Definition LF : ascii := ascii_of_nat 10.
Definition CR : ascii := ascii_of_nat 13.

Fixpoint universal_newlines (s : str) : str :=
  match s with
  | [] => []
  | c :: s' =>
      if Ascii.eqb c CR then
        match s' with
        | d :: s'' =>
            if Ascii.eqb d LF then LF :: universal_newlines s''
            else LF :: universal_newlines s'
        | [] => [LF]
        end
      else c :: universal_newlines s'
  end.

(** [open(path, encoding="latin1").read()] *)
Definition read_text (fs : filesystem) (path : str) : result str :=
  match fs path with
  | Some data => Ok (universal_newlines data)
  | None => if has_nul path then Raise ValueError else Raise OSError
  end.

(** The line boundaries of [str.splitlines] among the 8-bit characters. *)
Definition is_linebreak (c : ascii) : bool :=
  in_range 10 13 c || in_range 28 30 c || Ascii.eqb c (ascii_of_nat 133).

(** [cur] holds the characters of the current line, last one first. *)
Fixpoint splitlines_from (cur : str) (s : str) : list str :=
  match s with
  | [] => match cur with [] => [] | _ :: _ => [rev cur] end
  | c :: s' =>
      if is_linebreak c then
        rev cur ::
        match s' with
        | d :: s'' =>
            if Ascii.eqb c CR && Ascii.eqb d LF then splitlines_from [] s''
            else splitlines_from [] s'
        | [] => []
        end
      else splitlines_from (c :: cur) s'
  end.

(** [s.splitlines()] *)
Definition splitlines (s : str) : list str := splitlines_from [] s.

(** The file system once the file at [path] holds the texts [writes],
    one after the other. Line ends are written as they are, as the text
    layer does on POSIX systems. *)
Definition write_text (fs : filesystem) (path : str) (writes : list str)
  : filesystem :=
  fun p => if str_eqb p path then Some (concat writes) else fs p.

(** ** Sorting

    [list.sort(key=...)] sorts by ascending key and is stable. The list it
    returns is fixed by these two facts ([sort_by_key_unique]); it is
    computed here by insertion. *)

Fixpoint insert_by {A} (key : A -> Z) (x : A) (l : list A) : list A :=
  match l with
  | [] => [x]
  | y :: l' =>
      if (key x <=? key y)%Z then x :: l else y :: insert_by key x l'
  end.

Fixpoint sort_by_key {A} (key : A -> Z) (l : list A) : list A :=
  match l with
  | [] => []
  | x :: l' => insert_by key x (sort_by_key key l')
  end.

(** ** The index file of LWLibavSource *)

Record LWIndexFrame := { pts : Z; key : Z }.

(** [LWIndexFrame.__init__] *)
Definition LWIndexFrame_init (raw : list str) : result LWIndexFrame :=
  raw0 <- getitem raw 0 ;;
  let match1 := re_match lwindex_re1 raw0 in
  raw1 <- getitem raw 1 ;;
  let match2 := re_match lwindex_re2 raw1 in
  match match1, match2 with
  | Some m1, Some m2 =>
      t <- group m1 "PTS" ;;
      p <- py_int t ;;
      t <- group m2 "Key" ;;
      k <- py_int t ;;
      Ok {| pts := p; key := k |}
  | _, _ => Raise ValueError
  end.

(** [LWIndexFrame.__int__] *)
Definition LWIndexFrame_int (f : LWIndexFrame) : Z := pts f.

(** The dictionary [info_from_lwindex] returns. *)
Record lwindex_info := { timecodes : list Z; keyframes : list Z }.

(** [[i for i, f in enumerate(frames) if f.key]] *)
Definition keyframe_indexes (frames : list LWIndexFrame) : list Z :=
  map fst (filter (fun p => negb (key (snd p) =? 0)%Z) (enumerate frames)).

(** The frame records of the lines [index], parsed in document order. *)
Definition parse_frames (index : list str) (indexstart indexend : nat)
  : result (list LWIndexFrame) :=
  mapM (fun i => LWIndexFrame_init (slice index i (i + 2)))
       (range2 indexstart indexend).

(** [[int(i) for i in streaminfo.group("TimeBase").split("/")]], unpacked. *)
Definition parse_timebase (streaminfo : re_groups) : result (Z * Z) :=
  t <- group streaminfo "TimeBase" ;;
  parts <- mapM py_int (split "/" t) ;;
  unpack2 parts.

(** The body of [info_from_lwindex] after the file has been read. *)
Definition info_from_lines (index : list str) : result lwindex_info :=
  s <- list_index (lit "</StreamInfo>") index ;;
  let indexstart := S s in
  indexend <- list_index (lit "</LibavReaderIndex>") index ;;
  frames <- parse_frames index indexstart indexend ;;
  let frames := sort_by_key LWIndexFrame_int frames in
  line <- getitem index (Z.of_nat indexstart - 2) ;;
  match re_match streaminfo_re line with
  | None => Raise ValueError
  | Some streaminfo =>
      ' (timebase_num, timebase_den) <- parse_timebase streaminfo ;;
      tc <- mapM (fun f => floordiv (pts f * 1000 * timebase_num)
                                    timebase_den) frames ;;
      Ok {| timecodes := tc; keyframes := keyframe_indexes frames |}
  end.

Definition info_from_lwindex (fs : filesystem) (indexfile : str)
  : result lwindex_info :=
  text <- read_text fs indexfile ;;
  info_from_lines (splitlines text).

(** ** Keyframe files *)

(** What becomes of the text written to a file that has been opened: it
    is stored whole, or a write, the flush or the close raises and the
    file is left with what got through. *)
Inductive write_outcome :=
| Stored
| WriteError (e : exn) (kept : str).

(** What the operating system decides on writing a file and on
    [os.path.exists], beyond the texts of the files that can be read:
    - [open_w path] is what [open(path, "w")] raises, [None] when it
      opens the file;
    - [store path text] is what becomes of [text] written to the file
      opened at [path];
    - [unreadable path] tells that something is at [path] that cannot be
      read as a file. *)
Record os_env := {
  open_w : str -> option exn;
  store : str -> str -> write_outcome;
  unreadable : str -> bool
}.

(** [save_keyframes]: what it returns or raises, and the file system it
    leaves. The lines of the keyframes are joined before they are
    written, so an integer [str] refuses ends the writing after the two
    header lines. *)
Definition save_keyframes (os : os_env) (fs : filesystem) (filename : str)
           (keyframes : list Z) : result unit * filesystem :=
  if has_nul filename then (Raise ValueError, fs)
  else
    match open_w os filename with
    | Some e => (Raise e, fs)
    | None =>
        let header :=
          [ lit "# keyframe format v1" ++ [LF]; lit "fps 0" ++ [LF] ] in
        let (written, r) :=
          match mapM (fun n => s <- py_str n ;; Ok (s ++ [LF])) keyframes
          with
          | Ok lines => (header ++ [concat lines], Ok tt)
          | Raise e => (header, Raise e)
          end in
        match store os filename (concat written) with
        | Stored => (r, write_text fs filename written)
        | WriteError e kept => (Raise e, write_text fs filename [kept])
        end
    end.

(** ** VapourSynth

    What the module consumes of VapourSynth: a clip with its size, its
    number of frames and what requesting all its frames yields; a core
    whose plugin namespaces may be missing. [Kwargs] is the type of the
    keyword arguments handed on to a filter. *)

Section VapourSynth.

Variable Kwargs : Type.

(** The two frame properties the scene-change detectors set. A property
    that is not set on a frame is [None]. *)
Record VideoFrame := {
  _SceneChangePrev : option Z;
  Scenechange : option Z
}.

Record VideoNode := {
  width : Z;
  height : Z;
  num_frames : nat;
  frames : result (list VideoFrame)
}.

(** A filter of a plugin. *)
Definition filter_fn := VideoNode -> Kwargs -> result VideoNode.

(** [core.<namespace>] is [None] when the plugin is not installed. *)
Record Core := {
  resize_Bilinear : VideoNode -> Z -> Z -> Z -> result VideoNode;
  scxvid_Scxvid : option filter_fn;
  wwxd_WWXD : option filter_fn;
  bas_Source : option (str -> Kwargs -> result unit)
}.

(** Looking up a plugin namespace on the core. *)
Definition getattr {A} (plugin : option A) : result A :=
  match plugin with
  | Some p => Ok p
  | None => Raise AttributeError
  end.

(** [try: body except AttributeError: handler] *)
Definition except_AttributeError {A} (body handler : result A) : result A :=
  match body with
  | Raise AttributeError => handler
  | r => r
  end.

Definition missing_plugin_message (name : str) : str :=
  lit "To use the keyframe generation, the `" ++ name
  ++ lit "` plugin for VapourSynth must be installed".

(** The callback [_cb] of [make_keyframes]: [keyframes[n] = ...]. *)
Definition _cb (use_scxvid : bool) (keyframes : list (nat * Z))
           (n : nat) (f : VideoFrame) : result (list (nat * Z)) :=
  v <- getattr (if use_scxvid then _SceneChangePrev f else Scenechange f) ;;
  Ok ((n, v) :: keyframes).

(** Draining [clip.std.ModifyFrame(clip, _cb).frames()]: the callback
    runs on every frame, in frame order; what it raises is passed on. *)
Fixpoint drain (use_scxvid : bool) (keyframes : list (nat * Z)) (n : nat)
         (fs : list VideoFrame) : result (list (nat * Z)) :=
  match fs with
  | [] => Ok keyframes
  | f :: fs' =>
      keyframes <- _cb use_scxvid keyframes n f ;;
      drain use_scxvid keyframes (S n) fs'
  end.

(** [keyframes[n]] *)
Fixpoint dict_get (d : list (nat * Z)) (n : nat) : result Z :=
  match d with
  | [] => Raise KeyError
  | (m, v) :: d' => if (m =? n)%nat then Ok v else dict_get d' n
  end.

(** [[n for n in range(num) if keyframes[n]]] *)
Fixpoint collect (d : list (nat * Z)) (ns : list nat) : result (list Z) :=
  match ns with
  | [] => Ok []
  | n :: ns' =>
      v <- dict_get d n ;;
      rest <- collect d ns' ;;
      Ok (if (v =? 0)%Z then rest else Z.of_nat n :: rest)
  end.

(** The detector call of [make_keyframes] with its handler. *)
Definition detect (core : Core) (clip : VideoNode) (use_scxvid : bool)
           (kwargs : Kwargs) : result VideoNode :=
  except_AttributeError
    (if use_scxvid
     then (f <- getattr (scxvid_Scxvid core) ;; f clip kwargs)
     else (f <- getattr (wwxd_WWXD core) ;; f clip kwargs))
    (Raise (VsError (missing_plugin_message
                       (if use_scxvid then lit "scxvid" else lit "wwxd")))).

(** The part of [make_keyframes] after the detector has been attached. *)
Definition scan (clip : VideoNode) (use_scxvid : bool) : result (list Z) :=
  fs <- frames clip ;;
  keyframes <- drain use_scxvid [] 0 fs ;;
  collect keyframes (seq 0 (num_frames clip)).

Definition make_keyframes (core : Core) (clip : VideoNode)
           (use_scxvid : bool) (resize_h resize_format : Z)
           (kwargs : Kwargs) : result (list Z) :=
  w <- floordiv (resize_h * width clip) (height clip) ;;
  clip <- resize_Bilinear core clip w resize_h resize_format ;;
  clip <- detect core clip use_scxvid kwargs ;;
  scan clip use_scxvid.

Definition check_audio (core : Core) (filename : str) (kwargs : Kwargs)
  : result bool :=
  match (f <- getattr (bas_Source core) ;; f filename kwargs) with
  | Ok _ => Ok true
  | Raise AttributeError => Ok false
  | Raise (VsError _) => Ok false
  | Raise e => Raise e
  end.

End VapourSynth.

Arguments Core Kwargs : clear implicits.
Arguments filter_fn Kwargs : clear implicits.
Arguments resize_Bilinear {Kwargs}.
Arguments scxvid_Scxvid {Kwargs}.
Arguments wwxd_WWXD {Kwargs}.
Arguments bas_Source {Kwargs}.
Arguments detect {Kwargs}.
Arguments make_keyframes {Kwargs}.
Arguments check_audio {Kwargs}.

(** ** Notions the properties are stated with *)

(** Ascending order of keys, and the elements of one key. *)
Definition key_le {A} (key : A -> Z) (a b : A) : Prop := (key a <= key b)%Z.

Definition has_key {A} (key : A -> Z) (k : Z) (a : A) : bool :=
  (key a =? k)%Z.

(** Order by key first and position second. *)
Definition key_then_pos {A} (key : A -> Z) (pos : A -> nat) (a b : A)
  : Prop :=
  (key a < key b)%Z \/ (key a = key b /\ (pos a < pos b)%nat).

(** A line matches a pattern with the groups [gs], leaving [rest]: the
    line is the literal texts and the group texts of the pattern one
    after the other, a group text being an optional minus sign (where
    the group has one) and one or more characters of the class. *)
Inductive matches : regex -> str -> re_groups -> str -> Prop :=
| matches_nil s : matches [] s [] s
| matches_lit p r s gs rest :
    matches r s gs rest ->
    matches (Lit p :: r) (p ++ s) gs rest
| matches_group name minus class r sign body s gs rest :
    sign = [] \/ (minus = true /\ sign = ["-"%char]) ->
    body <> [] ->
    Forall (fun c => class c = true) body ->
    matches r s gs rest ->
    matches (Group name minus class :: r) (sign ++ body ++ s)
            ((name, sign ++ body) :: gs) rest.

(** Patterns on which the greedy match needs no backtracking: a group is
    last or followed by a literal whose first character is outside its
    class, and the minus sign is outside the class of a signed group. *)
Fixpoint unambiguous (r : regex) : Prop :=
  match r with
  | [] => True
  | Lit _ :: r' => unambiguous r'
  | Group _ minus class :: r' =>
      (minus = true -> class "-"%char = false) /\
      match r' with
      | [] => True
      | Lit (c :: _) :: _ => class c = false
      | _ => False
      end /\
      unambiguous r'
  end.

Definition StreamInfo_end : str := lit "</StreamInfo>".
Definition LibavReaderIndex_end : str := lit "</LibavReaderIndex>".

(** The two-line blocks [index[i:i+2]] the frame records are read from. *)
Definition frame_blocks (index : list str) : list (list str) :=
  match list_index StreamInfo_end index,
        list_index LibavReaderIndex_end index with
  | Ok s, Ok e => map (fun i => slice index i (i + 2)) (range2 (S s) e)
  | _, _ => []
  end.

(** A block matches the two field patterns. *)
Definition block_matches (raw : list str) : Prop :=
  exists line1 line2 g1 g2 rest1 rest2,
    raw = [line1; line2] /\
    matches lwindex_re1 line1 g1 rest1 /\
    matches lwindex_re2 line2 g2 rest2.

(** A text with no more digits than [int] accepts. *)
Definition within_limit (t : str) : Prop :=
  (count_digits t <= int_max_str_digits)%nat.

(** A block matches the two field patterns and neither its [PTS] nor its
    [Key] field has more digits than [int] accepts. *)
Definition block_readable (raw : list str) : Prop :=
  exists line1 line2 g1 g2 rest1 rest2 p k,
    raw = [line1; line2] /\
    matches lwindex_re1 line1 g1 rest1 /\
    matches lwindex_re2 line2 g2 rest2 /\
    group g1 "PTS" = Ok p /\ group g2 "Key" = Ok k /\
    within_limit p /\ within_limit k.

(** The line [index[indexstart - 2]] the stream information is read
    from: the line before the [</StreamInfo>] marker, and the last line
    of the file when the marker is the first one. *)
Definition streaminfo_line (index : list str) : option str :=
  match list_index StreamInfo_end index with
  | Ok s => match getitem index (Z.of_nat s - 1) with
            | Ok line => Some line
            | Raise _ => None
            end
  | Raise _ => None
  end.

Definition digits (s : str) : Prop :=
  s <> [] /\ Forall (fun c => is_digit c = true) s.

(** A well-formed time base: two numbers with a slash between them. *)
Definition is_timebase (t : str) : Prop :=
  exists n d, t = n ++ "/"%char :: d /\ digits n /\ digits d.

(** A time base [int] can read: two numbers with a slash between them,
    neither with more digits than [int] accepts. *)
Definition timebase_readable (t : str) : Prop :=
  exists n d,
    t = n ++ "/"%char :: d /\ digits n /\ digits d /\
    within_limit n /\ within_limit d.

(** The line matches the stream information pattern and its time-base
    field can be read. *)
Definition streaminfo_ok (line : str) : Prop :=
  exists g rest t,
    matches streaminfo_re line g rest /\
    group g "TimeBase" = Ok t /\ timebase_readable t.

(** The index has both markers, every block between them can be read and
    the stream information line is as expected. *)
Definition well_formed_index (index : list str) : Prop :=
  In StreamInfo_end index /\
  In LibavReaderIndex_end index /\
  Forall block_readable (frame_blocks index) /\
  exists line, streaminfo_line index = Some line /\ streaminfo_ok line.

(** The conditions under which [info_from_lines] raises [ValueError]: a
    marker is absent; a block does not match the two field patterns, or
    its [PTS] or [Key] has more digits than [int] accepts; the stream
    information line does not match its pattern, or its time base is not
    two numbers of no more digits than [int] accepts with a slash
    between them. *)
Definition format_error (index : list str) : Prop :=
  ~ In StreamInfo_end index \/
  ~ In LibavReaderIndex_end index \/
  Exists (fun raw => ~ block_readable raw) (frame_blocks index) \/
  (forall line, streaminfo_line index = Some line -> ~ streaminfo_ok line).

(** The pattern of a stream information line up to its time-base field. *)
Definition streaminfo_timebase_re : regex := firstn 4 streaminfo_re.

(** The time-base field of the line is present and well formed, whatever
    follows it on the line. *)
Definition timebase_field_ok (line : str) : Prop :=
  exists g rest t,
    matches streaminfo_timebase_re line g rest /\
    group g "TimeBase" = Ok t /\ is_timebase t.

(** The three failure conditions of the specification, as it words them:
    a marker is absent, a frame block does not match, or the time-base
    field is malformed. *)
Definition format_error_expected (index : list str) : Prop :=
  ~ In StreamInfo_end index \/
  ~ In LibavReaderIndex_end index \/
  Exists (fun raw => ~ block_matches raw) (frame_blocks index) \/
  (forall line, streaminfo_line index = Some line ->
                ~ timebase_field_ok line).

(** The frame records of the index in document order, and its time
    base, as [info_from_lines] reads them. *)
Definition document_frames (index : list str)
  : result (list LWIndexFrame) :=
  s <- list_index StreamInfo_end index ;;
  e <- list_index LibavReaderIndex_end index ;;
  parse_frames index (S s) e.

Definition time_base (index : list str) : result (Z * Z) :=
  s <- list_index StreamInfo_end index ;;
  line <- getitem index (Z.of_nat (S s) - 2) ;;
  match re_match streaminfo_re line with
  | None => Raise ValueError
  | Some streaminfo => parse_timebase streaminfo
  end.

(** A valid index: its frame records and its time base parse, and the
    denominator of the time base is not zero. *)
Definition valid_index (index : list str) (frames : list LWIndexFrame)
           (num den : Z) : Prop :=
  document_frames index = Ok frames /\
  time_base index = Ok (num, den) /\
  den <> 0%Z.

(** The timecode of a frame, in milliseconds. *)
Definition timecode (num den : Z) (f : LWIndexFrame) : Z :=
  (pts f * 1000 * num / den)%Z.

(** Order of frames by timestamp first and document position second;
    [a] and [b] are positions in [frames]. *)
Definition pts_then_position (frames : list LWIndexFrame) (a b : nat)
  : Prop :=
  let d := {| pts := 0; key := 0 |} in
  (pts (nth a frames d) < pts (nth b frames d))%Z \/
  (pts (nth a frames d) = pts (nth b frames d) /\ (a < b)%nat).

(** The frames at the positions [order]. *)
Definition frames_at (frames : list LWIndexFrame) (order : list nat)
  : list LWIndexFrame :=
  map (fun a => nth a frames {| pts := 0; key := 0 |}) order.


(** A valid index file: the file is there and its lines make a valid
    index. *)
Definition valid_index_file (fs : filesystem) (indexfile : str)
           (frames : list LWIndexFrame) (num den : Z) : Prop :=
  exists text,
    read_text fs indexfile = Ok text /\
    valid_index (splitlines text) frames num den.

(** [t] is the quotient [a / b] rounded down, [b] being positive. *)
Definition is_floor (a b t : Z) : Prop :=
  (b * t <= a < b * t + b)%Z.

(** ** Sample data *)

(** The text of the lines [l], each ended by a line feed. *)
Definition text_of_lines (l : list string) : str :=
  concat (map (fun s => lit s ++ [LF]) l).

(** An index of three frames in decode order: timestamps 0, 40, 20 in a
    time base of 1/1000, the first frame a keyframe. *)
Definition sample_index : str :=
  text_of_lines
    [ "<LibavReaderIndexFile=16>";
      "<InputFilePath>video.mkv</InputFilePath>";
      "<LibavReaderIndex=0x00000208,0,matroska>";
      "<ActiveVideoStreamIndex>+0000000000</ActiveVideoStreamIndex>";
      "<StreamInfo=0,0>";
      "Codec=27,TimeBase=1/1000,Width=1920,Height=1080,Format=yuv420p,ColorSpace=1";
      "</StreamInfo>";
      "Index=0,POS=100,PTS=0,DTS=-40,EDI=0";
      "Key=1,Pic=1,POC=0,Repeat=1,Field=0";
      "Index=0,POS=200,PTS=40,DTS=0,EDI=0";
      "Key=0,Pic=2,POC=2,Repeat=1,Field=0";
      "Index=0,POS=300,PTS=20,DTS=40,EDI=0";
      "Key=0,Pic=3,POC=1,Repeat=1,Field=0";
      "</LibavReaderIndex>";
      "</LibavReaderIndexFile>" ]%string.

Definition sample_frames : list LWIndexFrame :=
  [ {| pts := 0; key := 1 |};
    {| pts := 40; key := 0 |};
    {| pts := 20; key := 0 |} ].

(** An index of two frames of equal timestamp, the second a keyframe. *)
Definition tied_index : str :=
  text_of_lines
    [ "Codec=27,TimeBase=1/25,Width=1920,Height=1080,Format=yuv420p,ColorSpace=1";
      "</StreamInfo>";
      "Index=0,POS=100,PTS=7,DTS=0,EDI=0";
      "Key=0,Pic=1,POC=0,Repeat=1,Field=0";
      "Index=0,POS=200,PTS=7,DTS=1,EDI=0";
      "Key=1,Pic=2,POC=2,Repeat=1,Field=0";
      "</LibavReaderIndex>" ]%string.

Definition tied_frames : list LWIndexFrame :=
  [ {| pts := 7; key := 0 |}; {| pts := 7; key := 1 |} ].

(** An index whose stream information line has a well-formed time base
    and a width that is not a number. *)
Definition bad_width_index : str :=
  text_of_lines
    [ "Codec=27,TimeBase=1/1000,Width=x,Height=1080,Format=yuv420p,ColorSpace=1";
      "</StreamInfo>";
      "</LibavReaderIndex>" ]%string.

(** An index with one frame and a time base of denominator zero. *)
Definition zero_den_index : str :=
  text_of_lines
    [ "Codec=27,TimeBase=1/0,Width=1920,Height=1080,Format=yuv420p,ColorSpace=1";
      "</StreamInfo>";
      "Index=0,POS=100,PTS=7,DTS=0,EDI=0";
      "Key=1,Pic=1,POC=0,Repeat=1,Field=0";
      "</LibavReaderIndex>" ]%string.

(** A file system with the sample files and nothing else. *)
Definition sample_fs : filesystem :=
  fun path =>
    if str_eqb path (lit "video.lwi") then Some sample_index
    else if str_eqb path (lit "tied.lwi") then Some tied_index
    else if str_eqb path (lit "bad.lwi") then Some bad_width_index
    else if str_eqb path (lit "zero.lwi") then Some zero_den_index
    else None.

(** [make_keyframes] failed for want of a plugin: [vs.Error] with the
    message that names a plugin to install. *)
Definition missing_plugin_error (r : result (list Z)) : Prop :=
  exists name, r = Raise (VsError (missing_plugin_message name)).

(** Neither scene-change detector is installed. *)
Definition no_detector {Kwargs} (core : Core Kwargs) : Prop :=
  scxvid_Scxvid core = None /\ wwxd_WWXD core = None.

(** The plugin [make_keyframes] uses, and its name. *)
Definition selected_detector {Kwargs} (core : Core Kwargs)
           (use_scxvid : bool) : option (filter_fn Kwargs) :=
  if use_scxvid then scxvid_Scxvid core else wwxd_WWXD core.

Definition selected_name (use_scxvid : bool) : str :=
  if use_scxvid then lit "scxvid" else lit "wwxd".

(** A clip of three frames, the first a scene change. *)
Definition sample_clip : VideoNode :=
  {| width := 1920; height := 1080; num_frames := 3;
     frames := Ok [ {| _SceneChangePrev := Some 1%Z; Scenechange := Some 1%Z |};
                    {| _SceneChangePrev := Some 0%Z; Scenechange := Some 0%Z |};
                    {| _SceneChangePrev := Some 0%Z; Scenechange := Some 0%Z |} ] |}.

(** A resizer that sets the size of the clip and keeps its frames. *)
Definition sample_resize (clip : VideoNode) (w h format : Z)
  : result VideoNode :=
  Ok {| width := w; height := h; num_frames := num_frames clip;
        frames := frames clip |}.

(** A core with Scxvid installed and neither WWXD nor BestAudioSource. *)
Definition scxvid_only_core : Core unit :=
  {| resize_Bilinear := sample_resize;
     scxvid_Scxvid := Some (fun clip _ => Ok clip);
     wwxd_WWXD := None;
     bas_Source := None |}.

(** The two lines of a frame record as the indexer prints them. *)
Definition frame_lines (index pos pts dts edi key pic poc repeat field : Z)
  : list str :=
  [ lit "Index=" ++ decimal index ++ lit ",POS=" ++ decimal pos
    ++ lit ",PTS=" ++ decimal pts ++ lit ",DTS=" ++ decimal dts
    ++ lit ",EDI=" ++ decimal edi;
    lit "Key=" ++ decimal key ++ lit ",Pic=" ++ decimal pic
    ++ lit ",POC=" ++ decimal poc ++ lit ",Repeat=" ++ decimal repeat
    ++ lit ",Field=" ++ decimal field ].

(** All the fields of a frame record. *)
Record frame_fields := {
  f_index : Z; f_pos : Z; f_pts : Z; f_dts : Z; f_edi : Z;
  f_key : Z; f_pic : Z; f_poc : Z; f_repeat : Z; f_field : Z
}.

Definition printed_frame (r : frame_fields) : list str :=
  frame_lines (f_index r) (f_pos r) (f_pts r) (f_dts r) (f_edi r)
              (f_key r) (f_pic r) (f_poc r) (f_repeat r) (f_field r).

Definition frame_of (r : frame_fields) : LWIndexFrame :=
  {| pts := f_pts r; key := f_key r |}.

(** An integer whose decimal text has no more digits than [int] and
    [str] accept. *)
Definition int_within_limit (n : Z) : Prop := within_limit (decimal n).

(** The fields of a stream information line. *)
Record stream_fields := {
  s_codec : Z; s_num : Z; s_den : Z; s_width : Z; s_height : Z;
  s_format : str; s_colorspace : Z
}.

(** The fields a stream information line can carry: numbers that are not
    negative, a format name of letters and digits, and a time base [int]
    can read. *)
Definition stream_fields_ok (si : stream_fields) : Prop :=
  (0 <= s_codec si)%Z /\ (0 <= s_num si)%Z /\ (0 <= s_den si)%Z /\
  (0 <= s_width si)%Z /\ (0 <= s_height si)%Z /\
  (0 <= s_colorspace si)%Z /\
  s_format si <> [] /\ Forall (fun c => is_alnum c = true) (s_format si) /\
  int_within_limit (s_num si) /\ int_within_limit (s_den si).

(** A stream information line as the indexer prints it. *)
Definition printed_streaminfo (si : stream_fields) : str :=
  lit "Codec=" ++ decimal (s_codec si) ++ lit ",TimeBase="
  ++ (decimal (s_num si) ++ "/"%char :: decimal (s_den si))
  ++ lit ",Width=" ++ decimal (s_width si)
  ++ lit ",Height=" ++ decimal (s_height si)
  ++ lit ",Format=" ++ s_format si
  ++ lit ",ColorSpace=" ++ decimal (s_colorspace si).

(** The lines of an index as the indexer prints it: a header, the stream
    information, the frame records in decode order, and a trailer. *)
Definition printed_index (header : list str) (si : stream_fields)
           (records : list frame_fields) (trailer : list str) : list str :=
  (header ++ [printed_streaminfo si; StreamInfo_end])
  ++ concat (map printed_frame records)
  ++ LibavReaderIndex_end :: trailer.

(** The frame records [int] can read: the timestamp and the keyframe
    flag have no more digits than it accepts. *)
Definition record_readable (r : frame_fields) : Prop :=
  int_within_limit (f_pts r) /\ int_within_limit (f_key r).

(** An operating system on which every file can be written. *)
Definition plain_os : os_env :=
  {| open_w := fun _ => None;
     store := fun _ _ => Stored;
     unreadable := fun _ => false |}.


(** ** Keyframe files next to the video *)

(** [os.path.exists(path)]: a file that can be read, or something else,
    is at the path; no path with a NUL character exists. *)
Definition path_exists (os : os_env) (fs : filesystem) (path : str)
  : bool :=
  negb (has_nul path)
  && (match fs path with
      | Some _ => true
      | None => false
      end || unreadable os path).

(** [get_keyframes]: the result and the file system it leaves. The
    keyword arguments of the source are those of [make_keyframes], given
    here one by one; [os] is the operating system the file is written
    on. *)
Definition get_keyframes {Kwargs} (os : os_env) (core : Core Kwargs)
           (fs : filesystem) (filename : str) (clip : VideoNode)
           (use_scxvid : bool) (resize_h resize_format : Z)
           (kwargs : Kwargs)
  : result str * filesystem :=
  let kffilename := make_keyframes_filename filename in
  if negb (path_exists os fs kffilename) then
    match make_keyframes core clip use_scxvid resize_h resize_format
                         kwargs with
    | Ok keyframes =>
        match save_keyframes os fs kffilename keyframes with
        | (Ok _, fs') => (Ok kffilename, fs')
        | (Raise e, fs') => (Raise e, fs')
        end
    | Raise e => (Raise e, fs)
    end
  else (Ok kffilename, fs).

(** ** The LWLibavSource wrapper *)

(** [os.path.join(a, b)] of [posixpath]. *)
Definition path_join (a b : str) : str :=
  let b_is_absolute :=
    match b with
    | c :: _ => Ascii.eqb c "/"
    | [] => false
    end in
  let a_ends_with_sep :=
    match rev a with
    | d :: _ => Ascii.eqb d "/"
    | [] => false
    end in
  if b_is_absolute then b
  else if match a with [] => true | _ :: _ => a_ends_with_sep end
       then a ++ b
       else a ++ "/"%char :: b.

(** [needle in hay] for byte strings. *)
Fixpoint contains (needle hay : str) : bool :=
  match strip_prefix needle hay with
  | Some _ => true
  | None =>
      match hay with
      | [] => false
      | _ :: hay' => contains needle hay'
      end
  end.

(** What [os.mkdir] does: it makes the directory, or raises
    [FileExistsError], or raises something else. *)
Inductive mkdir_outcome :=
| Created
| FileExistsError
| MkdirError (e : exn).

(** [d[key]] for a dictionary with string keys. *)
Fixpoint dict_item (d : list (str * str)) (k : str) : result str :=
  match d with
  | [] => Raise KeyError
  | (k', v) :: d' => if str_eqb k' k then Ok v else dict_item d' k
  end.

(** The [lsmas] plugin: [Version()] returns a dictionary, and
    [LWLibavSource] opens the video at [source] and leaves its index in
    the file [cachefile]. *)
Record Lsmas (Kwargs : Type) := {
  Version : result (list (str * str));
  LWLibavSource :
    filesystem -> str -> str -> Kwargs -> result VideoNode * filesystem
}.
Arguments Version {Kwargs}.
Arguments LWLibavSource {Kwargs}.

Definition lsmas_missing_message : str :=
  lit "To use Aegisub's LWLibavSource wrapper, the `lsmas` plugin for VapourSynth must be installed".

Definition cachedir_unsupported_message : str :=
  lit "To use Aegisub's LWLibavSource wrapper, the `lsmas` plugin must support the `cachedir` option for LWLibavSource.".

(** [wrap_lwlibavsource]: the result and the file system it leaves.
    [mkdir] is [os.mkdir] and [lsmas] is [core.lsmas], [None] when the
    plugin is not installed. *)
Definition wrap_lwlibavsource {Kwargs} (mkdir : str -> mkdir_outcome)
           (lsmas : option (Lsmas Kwargs)) (fs : filesystem)
           (filename cachedir : str) (kwargs : Kwargs)
  : result (VideoNode * lwindex_info) * filesystem :=
  match mkdir cachedir with
  | MkdirError e => (Raise e, fs)
  | Created | FileExistsError =>
      let cachefile :=
        path_join cachedir (make_lwi_cache_filename filename) in
      match lsmas with
      | None => (Raise (VsError lsmas_missing_message), fs)
      | Some plugin =>
          match (v <- Version plugin ;; dict_item v (lit "config")) with
          | Raise e => (Raise e, fs)
          | Ok config =>
              if negb (contains (lit "-Dcachedir") config)
              then (Raise (VsError cachedir_unsupported_message), fs)
              else
                match LWLibavSource plugin fs filename cachefile kwargs with
                | (Raise e, fs') => (Raise e, fs')
                | (Ok clip, fs') =>
                    (info <- info_from_lwindex fs' cachefile ;;
                     Ok (clip, info), fs')
                end
          end
      end
  end.

(** ** More notions the properties are stated with *)

(** The characters [make_lwi_cache_filename] replaces. *)
Definition is_separator (c : ascii) : bool := char_in c (lit "/\:").

(** The character a cache file name has for the character [c]. *)
Definition cache_char (c d : ascii) : Prop :=
  if is_separator c then d = "_"%char else d = c.

(** The text of the lines [l], each ended by a carriage return and a
    line feed. *)
Definition crlf_text (l : list str) : str :=
  concat (map (fun s => s ++ [CR; LF]) l).

(** The text of the lines [l], each ended by a line feed. *)
Definition lf_text (l : list str) : str :=
  concat (map (fun s => s ++ [LF]) l).

(** ** More sample data *)

(** An index whose end marker comes first; a frame record follows the
    [</StreamInfo>] marker and the time base has a zero denominator. *)
Definition reversed_index : str :=
  text_of_lines
    [ "</LibavReaderIndex>";
      "Codec=27,TimeBase=1/0,Width=1920,Height=1080,Format=yuv420p,ColorSpace=1";
      "</StreamInfo>";
      "Index=0,POS=100,PTS=7,DTS=0,EDI=0";
      "Key=1,Pic=1,POC=0,Repeat=1,Field=0" ]%string.

(** An index with three lines between its markers. *)
Definition odd_index : str :=
  text_of_lines
    [ "Codec=27,TimeBase=1/1000,Width=1920,Height=1080,Format=yuv420p,ColorSpace=1";
      "</StreamInfo>";
      "Index=0,POS=100,PTS=0,DTS=0,EDI=0";
      "Key=1,Pic=1,POC=0,Repeat=1,Field=0";
      "Index=0,POS=200,PTS=40,DTS=40,EDI=0";
      "</LibavReaderIndex>" ]%string.

(** Three frame records in decode order. *)
Definition sample_records : list frame_fields :=
  [ {| f_index := 0; f_pos := 100; f_pts := 0; f_dts := -40; f_edi := 0;
       f_key := 1; f_pic := 1; f_poc := 0; f_repeat := 1; f_field := 0 |};
    {| f_index := 0; f_pos := 200; f_pts := 40; f_dts := 0; f_edi := 0;
       f_key := 0; f_pic := 2; f_poc := 2; f_repeat := 1; f_field := 0 |};
    {| f_index := 0; f_pos := 300; f_pts := 20; f_dts := 40; f_edi := 0;
       f_key := 0; f_pic := 3; f_poc := 1; f_repeat := 1; f_field := 0 |} ].

(** The stream information of the sample index. *)
Definition sample_stream : stream_fields :=
  {| s_codec := 27; s_num := 1; s_den := 1000; s_width := 1920;
     s_height := 1080; s_format := lit "yuv420p"; s_colorspace := 1 |}.

Definition sample_header : list str :=
  map lit [ "<LibavReaderIndexFile=16>"; "<StreamInfo=0,0>" ]%string.

Definition sample_trailer : list str :=
  map lit [ "</LibavReaderIndexFile>" ]%string.

(** The sample records in another order. *)
Definition shuffled_records : list frame_fields :=
  match sample_records with
  | [a; b; c] => [c; a; b]
  | _ => []
  end.

(** A file system with these files. *)
Definition edge_fs : filesystem :=
  fun path =>
    if str_eqb path (lit "reversed.lwi") then Some reversed_index
    else if str_eqb path (lit "odd.lwi") then Some odd_index
    else if str_eqb path (lit "printed.lwi") then
      Some (lf_text (printed_index sample_header sample_stream
                                   sample_records sample_trailer))
    else if str_eqb path (lit "shuffled.lwi") then
      Some (lf_text (printed_index sample_header sample_stream
                                   shuffled_records sample_trailer))
    else if str_eqb path (lit "crlf.lwi") then
      Some (crlf_text (printed_index sample_header sample_stream
                                     sample_records sample_trailer))
    else None.

(** The frame property [make_keyframes] reads: [_SceneChangePrev] with
    Scxvid and [Scenechange] with WWXD. *)
Definition scene_change (use_scxvid : bool) (f : VideoFrame) : option Z :=
  if use_scxvid then _SceneChangePrev f else Scenechange f.

(** A clip of no height, as clips of variable size are. *)
Definition flat_clip : VideoNode :=
  {| width := 0; height := 0; num_frames := 3; frames := frames sample_clip |}.

(** A core with every plugin installed; its prober opens every file. *)
Definition full_core : Core unit :=
  {| resize_Bilinear := sample_resize;
     scxvid_Scxvid := Some (fun clip _ => Ok clip);
     wwxd_WWXD := Some (fun clip _ => Ok clip);
     bas_Source := Some (fun _ _ => Ok tt) |}.

(** An [lsmas] plugin built with the [cachedir] option: opening a video
    leaves an index of the sample records in the cache file. *)
Definition sample_lsmas : Lsmas unit :=
  {| Version :=
       Ok [ (lit "release", lit "1194.0.0.0");
            (lit "config", lit "-Dprefix=/usr -Dcachedir=true") ];
     LWLibavSource :=
       fun fs source cachefile _ =>
         (Ok sample_clip,
          write_text fs cachefile
            [ lf_text (printed_index sample_header sample_stream
                                     sample_records sample_trailer) ]) |}.

(** An [lsmas] plugin built without the [cachedir] option. *)
Definition old_lsmas : Lsmas unit :=
  {| Version := Ok [ (lit "config", lit "-Dprefix=/usr") ];
     LWLibavSource := fun fs source cachefile _ => (Ok sample_clip, fs) |}.

(** A file system with nothing in it. *)
Definition empty_fs : filesystem := fun _ => None.

(** A core whose WWXD filter raises [AttributeError]. *)
Definition broken_wwxd_core : Core unit :=
  {| resize_Bilinear := sample_resize;
     scxvid_Scxvid := None;
     wwxd_WWXD := Some (fun _ _ => Raise AttributeError);
     bas_Source := None |}.

(** * Properties *)

(** ** Slices *)

Lemma len_app {A} (a b : list A) : len (a ++ b) = (len a + len b)%Z.
Proof. unfold len. rewrite length_app. lia. Qed.

Lemma len_nonneg {A} (l : list A) : (0 <= len l)%Z.
Proof. unfold len. lia. Qed.

Lemma slice_from_length {A} (l : list A) (k : Z) :
  (0 < k)%Z -> len (slice_from l (- k)) = Z.min (len l) k.
Proof.
  intros Hk. unfold slice_from, len.
  destruct (Z.ltb_spec (- k) 0) as [_ | H]; [| lia].
  rewrite length_skipn. lia.
Qed.

Lemma slice_from_suffix {A} (l : list A) (k : Z) :
  (0 < k)%Z -> exists front, l = front ++ slice_from l (- k).
Proof.
  intros Hk. unfold slice_from.
  destruct (Z.ltb_spec (- k) 0) as [_ | H]; [| lia].
  eexists. symmetry. apply firstn_skipn.
Qed.

Lemma slice_to_app {A} (a b : list A) : slice_to (a ++ b) (len a) = a.
Proof.
  unfold slice_to, len.
  destruct (Z.ltb_spec (Z.of_nat (length a)) 0) as [H | _]; [lia |].
  rewrite Nat2Z.id, firstn_app, Nat.sub_diag, firstn_all. simpl.
  apply app_nil_r.
Qed.

Lemma slice_to_all {A} (l : list A) : slice_to l (len l) = l.
Proof.
  pose proof (slice_to_app l []) as H. rewrite app_nil_r in H. exact H.
Qed.

(** ** [find] *)

Lemma find_ge c s : (-1 <= find c s)%Z.
Proof.
  induction s as [| d s IH]; simpl; [lia |].
  destruct (Ascii.eqb d c); [lia |].
  destruct (Z.ltb_spec (find c s) 0); lia.
Qed.

Lemma find_absent c s : ~ In c s -> find c s = (-1)%Z.
Proof.
  induction s as [| d s IH]; simpl; intros H; [reflexivity |].
  destruct (Ascii.eqb_spec d c) as [-> | _]; [tauto |].
  rewrite IH by tauto. reflexivity.
Qed.

Lemma find_first c a b : ~ In c a -> find c (a ++ c :: b) = len a.
Proof.
  induction a as [| d a IH]; simpl; intros H.
  - rewrite Ascii.eqb_refl. reflexivity.
  - destruct (Ascii.eqb_spec d c) as [-> | _]; [tauto |].
    rewrite IH by tauto.
    destruct (Z.ltb_spec (len a) 0) as [Hlt | _].
    + pose proof (len_nonneg a). lia.
    + unfold len. simpl length. lia.
Qed.

(** ** File names *)

Lemma map_length_sanitize (f : ascii -> ascii) (s : str) :
  len (map f s) = len s.
Proof. unfold len. rewrite length_map. reflexivity. Qed.

(** The length of a cache file name: the last 258 characters of the name
    at most are kept once the name is longer than 250. *)
Lemma make_lwi_cache_filename_length (filename : str) :
  len (make_lwi_cache_filename filename) =
  (if (len filename >? 250)%Z then Z.min (len filename) 258 + 4
   else len filename + 4)%Z.
Proof.
  unfold make_lwi_cache_filename.
  rewrite len_app, map_length_sanitize.
  change (len extension) with 4%Z. unfold max_len.
  destruct (Z.gtb_spec (len filename + 4) 254) as [H | H];
    destruct (Z.gtb_spec (len filename) 250) as [H' | H']; try lia.
  change (- (254 + 4))%Z with (Z.opp 258).
  rewrite slice_from_length by lia. reflexivity.
Qed.

(** C1: a file name of 251 characters makes a cache file name of 255
    characters, one more than the maximum length 254, and one of 300
    characters makes one of 262: the name is cut to its last 258
    characters, not to its last 250. *)
Theorem make_lwi_cache_filename_overlong :
  len (make_lwi_cache_filename (repeat "a"%char 251)) = 255%Z /\
  len (make_lwi_cache_filename (repeat "a"%char 300)) = 262%Z /\
  (max_len < 255)%Z.
Proof.
  rewrite !make_lwi_cache_filename_length.
  unfold len. rewrite !repeat_length. unfold max_len. simpl. lia.
Qed.

(** C10: a file name without ['.'] is kept whole and [" keyframes.txt"]
    is appended; otherwise the suffix that starts at the last ['.'] is
    removed first. *)
Theorem make_keyframes_filename_spec (filename : str) :
  (~ In "."%char filename ->
   make_keyframes_filename filename = filename ++ lit " keyframes.txt") /\
  (forall stem ext,
      filename = stem ++ "."%char :: ext -> ~ In "."%char ext ->
      make_keyframes_filename filename = stem ++ lit " keyframes.txt").
Proof.
  unfold make_keyframes_filename. split.
  - intros H. rewrite find_absent by (rewrite <- in_rev; exact H).
    replace (len filename - (-1 + 1))%Z with (len filename) by lia.
    rewrite slice_to_all. reflexivity.
  - intros stem ext -> H.
    rewrite rev_app_distr. simpl rev. rewrite <- app_assoc. simpl app.
    rewrite find_first by (rewrite <- in_rev; exact H).
    replace (len (stem ++ "."%char :: ext) - (len (rev ext) + 1))%Z
      with (len stem).
    + rewrite slice_to_app. reflexivity.
    + rewrite len_app. unfold len. rewrite length_rev. simpl length. lia.
Qed.

Lemma make_keyframes_filename_witness :
  make_keyframes_filename (lit "file") = lit "file keyframes.txt" /\
  make_keyframes_filename (lit "path/to/file.mkv")
  = lit "path/to/file keyframes.txt".
Proof.
  split.
  - apply (proj1 (make_keyframes_filename_spec (lit "file"))).
    simpl. intros [H | [H | [H | [H | []]]]]; discriminate H.
  - apply (proj2 (make_keyframes_filename_spec (lit "path/to/file.mkv"))
             (lit "path/to/file") (lit "mkv")).
    + reflexivity.
    + simpl. intros [H | [H | [H | []]]]; discriminate H.
Defined.

(** ** Sorting by key *)

Section Sorting.

Context {A : Type} (key : A -> Z).

Lemma insert_by_perm x l : Permutation (insert_by key x l) (x :: l).
Proof.
  induction l as [| y l IH]; simpl; [apply Permutation_refl |].
  destruct (key x <=? key y)%Z; [apply Permutation_refl |].
  eapply perm_trans; [apply perm_skip, IH | apply perm_swap].
Qed.

Lemma sort_by_key_perm l : Permutation (sort_by_key key l) l.
Proof.
  induction l as [| x l IH]; simpl; [constructor |].
  eapply perm_trans; [apply insert_by_perm | apply perm_skip, IH].
Qed.

Lemma sort_by_key_length l : length (sort_by_key key l) = length l.
Proof. apply Permutation_length, sort_by_key_perm. Qed.

Lemma insert_by_sorted x l :
  StronglySorted (key_le key) l ->
  StronglySorted (key_le key) (insert_by key x l).
Proof.
  induction l as [| y l IH]; simpl; intros Hs.
  - repeat constructor.
  - inversion Hs as [| ? ? Hl Hy]; subst.
    destruct (Z.leb_spec (key x) (key y)) as [Hxy | Hxy].
    + constructor; [exact Hs |].
      constructor; [exact Hxy |].
      eapply Forall_impl; [| exact Hy].
      unfold key_le. intros; lia.
    + constructor; [apply IH, Hl |].
      eapply Permutation_Forall;
        [apply Permutation_sym, insert_by_perm |].
      constructor; [unfold key_le; lia | exact Hy].
Qed.

Lemma sort_by_key_sorted l :
  StronglySorted (key_le key) (sort_by_key key l).
Proof.
  induction l as [| x l IH]; simpl; [constructor |].
  apply insert_by_sorted, IH.
Qed.

Lemma insert_by_filter k x l :
  StronglySorted (key_le key) l ->
  filter (has_key key k) (insert_by key x l)
  = filter (has_key key k) (x :: l).
Proof.
  induction l as [| y l IH]; intros Hs; [reflexivity |].
  inversion Hs as [| ? ? Hl Hy]; subst. simpl insert_by.
  destruct (Z.leb_spec (key x) (key y)) as [Hxy | Hxy]; [reflexivity |].
  simpl. rewrite IH by exact Hl. simpl. unfold has_key.
  destruct (Z.eqb_spec (key y) k), (Z.eqb_spec (key x) k);
    try reflexivity; lia.
Qed.

(** The sort is stable: the elements of one key keep their order. *)
Lemma sort_by_key_stable k l :
  filter (has_key key k) (sort_by_key key l) = filter (has_key key k) l.
Proof.
  induction l as [| x l IH]; [reflexivity |].
  simpl sort_by_key. rewrite insert_by_filter by apply sort_by_key_sorted.
  simpl. rewrite IH. reflexivity.
Qed.

Lemma filter_has_key_head x l :
  In x (filter (has_key key (key x)) (x :: l)).
Proof. simpl. unfold has_key. rewrite Z.eqb_refl. left. reflexivity. Qed.

(** Two lists sorted by key, with the same elements in the same order
    under every key, are the same list. *)
Lemma sorted_stable_unique l1 : forall l2,
  StronglySorted (key_le key) l1 -> StronglySorted (key_le key) l2 ->
  (forall k, filter (has_key key k) l1 = filter (has_key key k) l2) ->
  l1 = l2.
Proof.
  induction l1 as [| x l1 IH]; intros l2 H1 H2 Hf.
  - destruct l2 as [| y l2]; [reflexivity |].
    pose proof (filter_has_key_head y l2) as Hy.
    rewrite <- Hf in Hy. destruct Hy.
  - destruct l2 as [| y l2].
    + pose proof (filter_has_key_head x l1) as Hx.
      rewrite Hf in Hx. destruct Hx.
    + inversion H1 as [| ? ? Hs1 Hx]; inversion H2 as [| ? ? Hs2 Hy]; subst.
      assert (Hkey : key x = key y).
      { pose proof (filter_has_key_head x l1) as Hx'.
        rewrite Hf in Hx'. apply filter_In in Hx' as [Hx' _].
        pose proof (filter_has_key_head y l2) as Hy'.
        rewrite <- Hf in Hy'. apply filter_In in Hy' as [Hy' _].
        rewrite Forall_forall in Hx, Hy. unfold key_le in Hx, Hy.
        destruct Hx' as [<- | Hx']; [reflexivity |].
        destruct Hy' as [<- | Hy']; [reflexivity |].
        specialize (Hx _ Hy'). specialize (Hy _ Hx'). lia. }
      assert (Hxy : x = y).
      { specialize (Hf (key x)). simpl in Hf. unfold has_key in Hf.
        rewrite <- Hkey, Z.eqb_refl in Hf. congruence. }
      subst y. f_equal. apply IH; [exact Hs1 | exact Hs2 |].
      intros k. specialize (Hf k). simpl in Hf.
      destruct (has_key key k x); congruence.
Qed.

(** Any stable sort by ascending key returns what [sort_by_key] does. *)
Lemma sort_by_key_unique l l' :
  StronglySorted (key_le key) l' ->
  (forall k, filter (has_key key k) l' = filter (has_key key k) l) ->
  l' = sort_by_key key l.
Proof.
  intros Hs Hf. apply sorted_stable_unique.
  - exact Hs.
  - apply sort_by_key_sorted.
  - intros k. rewrite Hf, sort_by_key_stable. reflexivity.
Qed.

End Sorting.

(** ** Stability, by positions *)

Lemma StronglySorted_filter {A} (R : A -> A -> Prop) (p : A -> bool) l :
  StronglySorted R l -> StronglySorted R (filter p l).
Proof.
  induction 1 as [| x l Hs IH Hx]; simpl; [constructor |].
  destruct (p x); [| exact IH].
  constructor; [exact IH |].
  rewrite Forall_forall in *. intros y Hy.
  apply filter_In in Hy as [Hy _]. auto.
Qed.

Lemma StronglySorted_map {A B} (R : A -> A -> Prop) (R' : B -> B -> Prop)
      (f : A -> B) l :
  (forall a b, In a l -> In b l -> R a b -> R' (f a) (f b)) ->
  StronglySorted R l -> StronglySorted R' (map f l).
Proof.
  intros HR Hs. induction Hs as [| x l Hs IH Hx]; simpl; [constructor |].
  constructor.
  - apply IH. intros a b Ha Hb. apply HR; right; assumption.
  - rewrite Forall_forall in *. intros y Hy.
    apply in_map_iff in Hy as [a [<- Ha]].
    apply HR; [left; reflexivity | right; exact Ha | auto].
Qed.

Section Positions.

Context {A : Type} (key : A -> Z) (pos : A -> nat).

Lemma sorted_groups_lex l :
  StronglySorted (key_le key) l ->
  (forall k, StronglySorted (fun a b => (pos a < pos b)%nat)
                            (filter (has_key key k) l)) ->
  StronglySorted (key_then_pos key pos) l.
Proof.
  induction 1 as [| x l Hs IH Hx]; intros Hg; [constructor |].
  constructor.
  - apply IH. intros k. specialize (Hg k). simpl in Hg.
    destruct (has_key key k x); [| exact Hg].
    inversion Hg; assumption.
  - specialize (Hg (key x)). simpl in Hg. unfold has_key in Hg at 1.
    rewrite Z.eqb_refl in Hg. inversion Hg as [| ? ? _ Hp]; subst.
    rewrite Forall_forall in *. intros y Hy.
    specialize (Hx y Hy). unfold key_le in Hx. unfold key_then_pos.
    destruct (Z.eq_dec (key x) (key y)) as [E | E]; [| left; lia].
    right. split; [exact E |]. apply Hp.
    apply filter_In. split; [exact Hy |].
    unfold has_key. apply Z.eqb_eq. symmetry. exact E.
Qed.

(** Sorting a list whose positions ascend orders it by key first and
    position second. *)
Lemma sort_by_key_lex l :
  StronglySorted (fun a b => (pos a < pos b)%nat) l ->
  StronglySorted (key_then_pos key pos) (sort_by_key key l).
Proof.
  intros Hl. apply sorted_groups_lex; [apply sort_by_key_sorted |].
  intros k. rewrite sort_by_key_stable.
  apply StronglySorted_filter, Hl.
Qed.

End Positions.

Lemma insert_by_map {A B} (key : A -> Z) (f : B -> A) x l :
  map f (insert_by (fun b => key (f b)) x l) = insert_by key (f x) (map f l).
Proof.
  induction l as [| y l IH]; simpl; [reflexivity |].
  destruct (key (f x) <=? key (f y))%Z; simpl; [reflexivity |].
  rewrite IH. reflexivity.
Qed.

Lemma sort_by_key_map {A B} (key : A -> Z) (f : B -> A) l :
  map f (sort_by_key (fun b => key (f b)) l) = sort_by_key key (map f l).
Proof.
  induction l as [| x l IH]; simpl; [reflexivity |].
  rewrite insert_by_map, IH. reflexivity.
Qed.

(** ** A list with its positions *)

Lemma map_fst_combine {A B} (l : list A) : forall l' : list B,
  length l = length l' -> map fst (combine l l') = l.
Proof.
  induction l as [| a l IH]; intros [| b l'] H; simpl in *;
    try discriminate; [reflexivity |].
  f_equal. apply IH. lia.
Qed.

Lemma map_snd_combine {A B} (l : list A) : forall l' : list B,
  length l = length l' -> map snd (combine l l') = l'.
Proof.
  induction l as [| a l IH]; intros [| b l'] H; simpl in *;
    try discriminate; [reflexivity |].
  f_equal. apply IH. lia.
Qed.

Lemma in_combine_seq {A} (d : A) (l : list A) : forall s a x,
  In (a, x) (combine (seq s (length l)) l) ->
  (s <= a)%nat /\ nth (a - s) l d = x.
Proof.
  induction l as [| y l IH]; intros s a x H; simpl in H; [destruct H |].
  destruct H as [H | H].
  - inversion H; subst. rewrite Nat.sub_diag. split; [lia | reflexivity].
  - apply IH in H as [Hle Hn]. split; [lia |].
    replace (a - s)%nat with (S (a - S s)) by lia. exact Hn.
Qed.

Lemma combine_seq_sorted {A} (l : list A) : forall s,
  StronglySorted (fun p q : nat * A => (fst p < fst q)%nat)
                 (combine (seq s (length l)) l).
Proof.
  induction l as [| y l IH]; intros s; simpl; constructor.
  - apply IH.
  - apply Forall_forall. intros [a x] H.
    apply in_combine_l, in_seq in H. simpl. lia.
Qed.

(** The stable sort lists the elements by key first and position in the
    list second. *)
Lemma sort_by_key_positions {A} (key : A -> Z) (d : A) (l : list A) :
  exists order : list nat,
    Permutation order (seq 0 (length l)) /\
    map (fun a => nth a l d) order = sort_by_key key l /\
    StronglySorted (key_then_pos (fun a => key (nth a l d)) (fun a => a))
                   order.
Proof.
  set (indexed := combine (seq 0 (length l)) l).
  set (sorted := sort_by_key (fun p : nat * A => key (snd p)) indexed).
  assert (Hin : forall p, In p sorted -> nth (fst p) l d = snd p).
  { intros [a x] H.
    apply (Permutation_in _ (sort_by_key_perm _ indexed)) in H.
    apply (in_combine_seq d) in H as [_ H]. rewrite Nat.sub_0_r in H.
    exact H. }
  exists (map fst sorted). split; [| split].
  - rewrite <- (map_fst_combine (seq 0 (length l)) l)
      by apply length_seq.
    apply Permutation_map, sort_by_key_perm.
  - rewrite map_map.
    transitivity (map snd sorted); [apply map_ext_in; exact Hin |].
    unfold sorted. rewrite (sort_by_key_map key snd). f_equal.
    apply map_snd_combine, length_seq.
  - apply StronglySorted_map
      with (R := key_then_pos (fun p : nat * A => key (snd p)) fst).
    + intros p q Hp Hq. unfold key_then_pos.
      rewrite (Hin p Hp), (Hin q Hq). tauto.
    + apply sort_by_key_lex, combine_seq_sorted.
Qed.

(** ** The exception monad *)

Lemma bind_Ok {A B} (m : result A) (k : A -> result B) b :
  bind m k = Ok b -> exists a, m = Ok a /\ k a = Ok b.
Proof. destruct m; simpl; [eauto | discriminate]. Qed.

Lemma bind_Raise {A B} (m : result A) (k : A -> result B) e :
  bind m k = Raise e ->
  m = Raise e \/ exists a, m = Ok a /\ k a = Raise e.
Proof. destruct m; simpl; [eauto | intros [= ->]; auto]. Qed.

Lemma mapM_Ok_map {A B} (f : A -> result B) (g : A -> B) l :
  (forall a, In a l -> f a = Ok (g a)) -> mapM f l = Ok (map g l).
Proof.
  induction l as [| a l IH]; intros H; simpl; [reflexivity |].
  rewrite (H a) by (left; reflexivity). simpl.
  rewrite IH by (intros; apply H; right; assumption). reflexivity.
Qed.

Lemma mapM_length {A B} (f : A -> result B) l : forall bs,
  mapM f l = Ok bs -> length bs = length l.
Proof.
  induction l as [| a l IH]; simpl; intros bs H.
  - injection H as <-. reflexivity.
  - apply bind_Ok in H as [b [_ H]]. apply bind_Ok in H as [bs' [H1 H]].
    injection H as <-. simpl. f_equal. apply IH, H1.
Qed.

(** A comprehension raises when, and what, one of its elements does. *)
Lemma mapM_Raise {A B} (f : A -> result B) l e :
  mapM f l = Raise e -> exists a, In a l /\ f a = Raise e.
Proof.
  induction l as [| a l IH]; simpl; [discriminate |]. intros H.
  apply bind_Raise in H as [H | [b [_ H]]].
  - exists a. auto.
  - apply bind_Raise in H as [H | [bs [_ H]]]; [| discriminate].
    destruct (IH H) as [a' [Hin Ha']]. exists a'. auto.
Qed.

Lemma mapM_all_Ok {A B} (f : A -> result B) l :
  (forall a, In a l -> exists b, f a = Ok b) -> exists bs, mapM f l = Ok bs.
Proof.
  induction l as [| a l IH]; intros H; simpl; [eauto |].
  destruct (H a) as [b Hb]; [left; reflexivity |]. rewrite Hb. simpl.
  destruct IH as [bs Hbs]; [intros; apply H; right; assumption |].
  rewrite Hbs. simpl. eauto.
Qed.

Lemma mapM_Ok_In {A B} (f : A -> result B) l : forall bs,
  mapM f l = Ok bs -> forall a, In a l -> exists b, f a = Ok b.
Proof.
  induction l as [| a l IH]; simpl; intros bs H x Hx; [destruct Hx |].
  apply bind_Ok in H as [b [Hb H]]. apply bind_Ok in H as [bs' [H1 _]].
  destruct Hx as [<- | Hx]; [eauto | eapply IH; eauto].
Qed.

(** ** The result of [info_from_lines] on a valid index *)

Lemma info_from_lines_valid index frames num den :
  valid_index index frames num den ->
  info_from_lines index =
  Ok {| timecodes :=
          map (timecode num den) (sort_by_key LWIndexFrame_int frames);
        keyframes :=
          keyframe_indexes (sort_by_key LWIndexFrame_int frames) |}.
Proof.
  intros (Hf & Ht & Hden).
  unfold document_frames, time_base in *. unfold info_from_lines.
  change (lit "</StreamInfo>") with StreamInfo_end.
  change (lit "</LibavReaderIndex>") with LibavReaderIndex_end.
  destruct (list_index StreamInfo_end index) as [s |]; [| discriminate].
  cbn [bind] in *.
  destruct (list_index LibavReaderIndex_end index) as [e |];
    [| discriminate].
  cbn [bind] in *. rewrite Hf. cbn [bind].
  destruct (getitem index (Z.of_nat (S s) - 2)) as [line |];
    [| discriminate].
  cbn [bind] in *.
  destruct (re_match streaminfo_re line) as [si |]; [| discriminate].
  rewrite Ht. cbn [bind].
  rewrite (mapM_Ok_map _ (timecode num den)); [reflexivity |].
  intros f _. unfold floordiv, timecode.
  destruct (Z.eqb_spec den 0); [contradiction | reflexivity].
Qed.

(** ** The greedy match and the patterns *)

Lemma strip_prefix_Some p : forall s s',
  strip_prefix p s = Some s' -> s = p ++ s'.
Proof.
  induction p as [| c p IH]; intros [| d s] s' H; simpl in H;
    try discriminate; try (injection H as <-; reflexivity).
  destruct (Ascii.eqb_spec c d) as [<- |]; [| discriminate].
  simpl. f_equal. apply IH, H.
Qed.

Lemma strip_prefix_app p s : strip_prefix p (p ++ s) = Some s.
Proof.
  induction p as [| c p IH]; simpl; [destruct s; reflexivity |].
  rewrite Ascii.eqb_refl. exact IH.
Qed.

Lemma span_spec class s : forall a b,
  span class s = (a, b) ->
  s = a ++ b /\ Forall (fun c => class c = true) a.
Proof.
  induction s as [| c s IH]; simpl; intros a b H.
  - injection H as <- <-. split; [reflexivity | constructor].
  - destruct (class c) eqn:Hc.
    + destruct (span class s) as [a' b'] eqn:Hs. injection H as <- <-.
      destruct (IH _ _ eq_refl) as [-> Ha]. split; [reflexivity |].
      constructor; assumption.
    + injection H as <- <-. split; [reflexivity | constructor].
Qed.

(** The span of a run of class characters that ends the text or is
    followed by a character outside the class is that run. *)
Lemma span_app class body s :
  Forall (fun c => class c = true) body ->
  match s with [] => True | c :: _ => class c = false end ->
  span class (body ++ s) = (body, s).
Proof.
  intros Hb Hs. induction Hb as [| c body Hc _ IH]; simpl.
  - destruct s as [| c s]; [reflexivity |]. simpl. rewrite Hs. reflexivity.
  - rewrite Hc, IH. reflexivity.
Qed.

(** Without a condition on what follows, the span is at least the run. *)
Lemma span_app_longer class body s :
  Forall (fun c => class c = true) body ->
  exists more rest, span class (body ++ s) = (body ++ more, rest).
Proof.
  intros Hb. induction Hb as [| c body Hc _ IH]; simpl.
  - destruct (span class s) as [a b]. eauto.
  - rewrite Hc. destruct IH as (more & rest & ->). eauto.
Qed.

Lemma match_group_Some minus class s g rest :
  match_group minus class s = Some (g, rest) ->
  exists sign body,
    g = sign ++ body /\ s = sign ++ body ++ rest /\
    (sign = [] \/ (minus = true /\ sign = ["-"%char])) /\
    body <> [] /\ Forall (fun c => class c = true) body.
Proof.
  unfold match_group. intros H.
  assert (Hsign : exists sign s1,
             s = sign ++ s1 /\
             (sign = [] \/ (minus = true /\ sign = ["-"%char])) /\
             (let (body, rest) := span class s1 in
              match body with
              | [] => None
              | _ :: _ => Some (sign ++ body, rest)
              end) = Some (g, rest)).
  { destruct s as [| c s]; [exists [], []; auto |].
    destruct minus; simpl in H.
    - destruct (Ascii.eqb_spec c "-"%char) as [-> |].
      + exists ["-"%char], s. auto.
      + exists [], (c :: s). auto.
    - exists [], (c :: s). auto. }
  destruct Hsign as (sign & s1 & -> & Hsign & H').
  destruct (span class s1) as [body rest'] eqn:Hspan.
  apply span_spec in Hspan as [-> Hbody].
  destruct body as [| c body]; [discriminate |].
  injection H' as <- <-. exists sign, (c :: body).
  repeat split; auto. discriminate.
Qed.

(** What the greedy match returns is a match. *)
Lemma re_match_sound r : forall s gs,
  re_match r s = Some gs -> exists rest, matches r s gs rest.
Proof.
  induction r as [| [p | name minus class] r IH]; intros s gs H; simpl in H.
  - injection H as <-. exists s. constructor.
  - destruct (strip_prefix p s) as [s' |] eqn:Hp; [| discriminate].
    apply strip_prefix_Some in Hp as ->.
    destruct (IH _ _ H) as [rest Hm]. exists rest. constructor. exact Hm.
  - destruct (match_group minus class s) as [[g s'] |] eqn:Hg;
      [| discriminate].
    destruct (re_match r s') as [gs' |] eqn:Hr; [| discriminate].
    injection H as <-.
    apply match_group_Some in Hg as (sign & body & -> & -> & Hs & Hb & Hc).
    destruct (IH _ _ Hr) as [rest Hm]. exists rest.
    constructor; assumption.
Qed.

Lemma match_group_app minus class sign body s :
  (minus = true -> class "-"%char = false) ->
  sign = [] \/ (minus = true /\ sign = ["-"%char]) ->
  body <> [] -> Forall (fun c => class c = true) body ->
  exists more rest,
    match_group minus class (sign ++ body ++ s)
    = Some (sign ++ body ++ more, rest) /\
    (match s with [] => True | c :: _ => class c = false end ->
     more = [] /\ rest = s).
Proof.
  intros Hminus Hsign Hne Hbody. unfold match_group.
  destruct body as [| c body]; [contradiction |].
  assert (Hc : class c = true) by (inversion Hbody; assumption).
  assert (Hnosign : minus && Ascii.eqb c "-" = false).
  { destruct minus; [| reflexivity]. simpl.
    destruct (Ascii.eqb_spec c "-"%char) as [-> |]; [| reflexivity].
    rewrite Hminus in Hc by reflexivity. discriminate. }
  assert (Hspan : exists more rest,
             span class ((c :: body) ++ s) = ((c :: body) ++ more, rest) /\
             (match s with [] => True | d :: _ => class d = false end ->
              more = [] /\ rest = s)).
  { destruct (span_app_longer class (c :: body) s Hbody)
      as (more & rest & Hspan).
    exists more, rest. split; [exact Hspan |]. intros Hs.
    rewrite (span_app class (c :: body) s Hbody Hs) in Hspan.
    injection Hspan as H1 H2. split; [| congruence].
    apply (f_equal (@length ascii)) in H1. rewrite length_app in H1.
    destruct more; [reflexivity | simpl in H1; lia]. }
  destruct Hspan as (more & rest & Hspan & Hrest).
  exists more, rest. split; [| exact Hrest].
  destruct Hsign as [-> | [-> ->]].
  - change ([] ++ (c :: body) ++ s) with (c :: body ++ s).
    cbv beta iota. rewrite Hnosign.
    change (c :: body ++ s) with ((c :: body) ++ s).
    rewrite Hspan. reflexivity.
  - change (["-"%char] ++ (c :: body) ++ s)
      with ("-"%char :: (c :: body) ++ s).
    cbv beta iota. rewrite Ascii.eqb_refl. simpl andb. cbv iota.
    rewrite Hspan. reflexivity.
Qed.

(** On an unambiguous pattern the greedy match finds a match wherever
    there is one, with the same groups up to the last one, which it
    makes as long as the line allows. *)
Lemma re_match_complete r s gs rest :
  unambiguous r -> matches r s gs rest ->
  exists gs', re_match r s = Some gs' /\
              length gs' = length gs /\
              removelast gs' = removelast gs.
Proof.
  intros Hu Hm. induction Hm as
      [s | p r s gs rest Hm IH
       | name minus class r sign body s gs rest Hsign Hne Hbody Hm IH].
  - exists []. auto.
  - simpl. rewrite strip_prefix_app. apply IH, Hu.
  - destruct Hu as (Hminus & Hnext & Hu). specialize (IH Hu).
    destruct IH as (gs' & Hgs' & Hlen & Hlast).
    destruct (match_group_app minus class sign body s Hminus Hsign Hne
                              Hbody) as (more & rest' & Hg & Hrest).
    simpl. rewrite Hg.
    destruct r as [| [[| c p] | ] r]; try contradiction.
    + inversion Hm; subst. simpl.
      exists [(name, sign ++ body ++ more)]. auto.
    + inversion Hm; subst. destruct (Hrest Hnext) as [-> ->].
      rewrite Hgs', app_nil_r. exists ((name, sign ++ body) :: gs').
      split; [reflexivity |]. split; [simpl; lia |].
      destruct gs' as [| g1 gs'], gs as [| g2 gs]; try discriminate;
        [reflexivity |].
      change (removelast ((name, sign ++ body) :: g1 :: gs'))
        with ((name, sign ++ body) :: removelast (g1 :: gs')).
      rewrite Hlast. reflexivity.
Qed.

Lemma lwindex_re1_unambiguous : unambiguous lwindex_re1.
Proof. simpl. intuition. Qed.

Lemma lwindex_re2_unambiguous : unambiguous lwindex_re2.
Proof. simpl. intuition. Qed.

Lemma streaminfo_re_unambiguous : unambiguous streaminfo_re.
Proof. simpl. intuition. Qed.

(** A line matches a pattern of the module exactly when [re_match]
    returns a match object. *)
Lemma re_match_iff r s :
  unambiguous r ->
  (exists gs rest, matches r s gs rest) <-> re_match r s <> None.
Proof.
  intros Hu. split.
  - intros (gs & rest & Hm).
    destruct (re_match_complete r s gs rest Hu Hm) as (gs' & -> & _).
    discriminate.
  - destruct (re_match r s) as [gs |] eqn:H; [| contradiction].
    intros _. destruct (re_match_sound _ _ _ H) as [rest Hm]. eauto.
Qed.

(** ** [int] on the texts of the groups *)

Ltac ascii_cases c :=
  destruct c as [[|] [|] [|] [|] [|] [|] [|] [|]].

Lemma is_digit_not_space c : is_digit c = true -> is_space c = false.
Proof. ascii_cases c; intros H; try discriminate H; reflexivity. Qed.

Lemma is_digit_not_sign c :
  is_digit c = true ->
  Ascii.eqb c "-" = false /\ Ascii.eqb c "+" = false.
Proof. ascii_cases c; intros H; try discriminate H; split; reflexivity. Qed.

Lemma digit_val_nonneg c : is_digit c = true -> (0 <= digit_val c)%Z.
Proof.
  unfold is_digit, in_range, digit_val. intros H.
  apply andb_prop in H as [H _]. apply Nat.leb_le in H. lia.
Qed.

Lemma dropwhile_id p s :
  match s with [] => True | c :: _ => p c = false end -> dropwhile p s = s.
Proof. destruct s as [| c s]; simpl; [reflexivity | intros ->; reflexivity]. Qed.

Lemma strip_id s :
  Forall (fun c => is_space c = false) s -> strip s = s.
Proof.
  intros H. unfold strip. rewrite (dropwhile_id _ s).
  - rewrite dropwhile_id; [apply rev_involutive |].
    apply Forall_rev in H. destruct (rev s); [exact I |].
    inversion H; assumption.
  - destruct s; [exact I | inversion H; assumption].
Qed.

Lemma int_digits_all s : forall acc,
  Forall (fun c => is_digit c = true) s ->
  exists v, int_digits acc s = Some v /\ (0 <= acc -> 0 <= v)%Z.
Proof.
  induction s as [| c s IH]; intros acc H; simpl; [eauto |].
  inversion H as [| ? ? Hc Hs]; subst. rewrite Hc.
  destruct (IH (acc * 10 + digit_val c)%Z Hs) as (v & Hv & Hpos).
  exists v. split; [exact Hv |]. intros Hacc. apply Hpos.
  pose proof (digit_val_nonneg c Hc). lia.
Qed.

Lemma count_digits_all s :
  Forall (fun c => is_digit c = true) s -> count_digits s = length s.
Proof.
  unfold count_digits. induction 1 as [| c s Hc _ IH]; [reflexivity |].
  cbn [filter]. rewrite Hc. cbn [length]. rewrite IH. reflexivity.
Qed.

Lemma count_digits_minus s : count_digits ("-"%char :: s) = count_digits s.
Proof. reflexivity. Qed.

Lemma within_limit_dec t : {within_limit t} + {~ within_limit t}.
Proof.
  unfold within_limit.
  destruct (le_dec (count_digits t) int_max_str_digits); auto.
Qed.

Lemma ltb_within_limit t :
  (int_max_str_digits <? count_digits t)%nat
  = if within_limit_dec t then false else true.
Proof.
  unfold within_limit. destruct (within_limit_dec t) as [H | H];
    unfold within_limit in H.
  - apply Nat.ltb_ge. exact H.
  - apply Nat.ltb_lt. lia.
Qed.

(** What [int] makes of a run of digits, and of one after a minus
    sign. *)
Lemma py_int_unsigned body :
  digits body ->
  exists v, (0 <= v)%Z /\
            py_int body = if within_limit_dec body
                          then Ok v else Raise ValueError.
Proof.
  intros [Hne H]. unfold py_int. rewrite strip_id.
  - destruct body as [| c s]; [contradiction |].
    assert (Hc : is_digit c = true) by (inversion H; assumption).
    destruct (is_digit_not_sign c Hc) as [-> ->]. rewrite Hc.
    destruct (int_digits_all (c :: s) 0 H) as (v & -> & Hv).
    exists v. split; [lia |]. rewrite ltb_within_limit.
    destruct (within_limit_dec (c :: s)); reflexivity.
  - eapply Forall_impl; [| exact H]. apply is_digit_not_space.
Qed.

Lemma py_int_minus body :
  digits body ->
  exists v, (0 <= v)%Z /\
            py_int ("-"%char :: body)
            = if within_limit_dec ("-"%char :: body)
              then Ok (- v)%Z else Raise ValueError.
Proof.
  intros [Hne H]. unfold py_int. rewrite strip_id.
  - cbv beta iota. rewrite Ascii.eqb_refl.
    destruct body as [| c body]; [contradiction |].
    assert (Hc : is_digit c = true) by (inversion H; assumption).
    rewrite Hc.
    destruct (int_digits_all (c :: body) 0 H) as (v & -> & Hv).
    exists v. split; [lia |]. rewrite ltb_within_limit.
    destruct (within_limit_dec (c :: body)) as [Hl | Hl],
             (within_limit_dec ("-"%char :: c :: body)) as [Hl' | Hl'];
      try reflexivity; unfold within_limit in *;
      rewrite count_digits_minus in Hl'; contradiction.
  - constructor; [reflexivity |].
    eapply Forall_impl; [| exact H]. apply is_digit_not_space.
Qed.

(** [int] accepts a run of digits within the bound and returns a number
    that is not negative. *)
Lemma py_int_digits s :
  digits s -> within_limit s -> exists z, py_int s = Ok z /\ (0 <= z)%Z.
Proof.
  intros Hd Hl. destruct (py_int_unsigned s Hd) as (v & Hv & E).
  destruct (within_limit_dec s); [eauto | contradiction].
Qed.

(** [int] on the text of a signed group: a number when the text is
    within the bound, [ValueError] when it is not. *)
Lemma py_int_signed (minus : bool) sign body :
  sign = [] \/ (minus = true /\ sign = ["-"%char]) ->
  digits body ->
  (within_limit (sign ++ body) /\ exists z, py_int (sign ++ body) = Ok z) \/
  (~ within_limit (sign ++ body) /\
   py_int (sign ++ body) = Raise ValueError).
Proof.
  intros [-> | [_ ->]] Hd.
  - destruct (py_int_unsigned body Hd) as (v & _ & E). simpl app.
    destruct (within_limit_dec body); eauto.
  - destruct (py_int_minus body Hd) as (v & _ & E). simpl app.
    destruct (within_limit_dec ("-"%char :: body)); eauto.
Qed.

Lemma py_int_empty : py_int [] = Raise ValueError.
Proof. reflexivity. Qed.

(** ** Frame records *)

(** The text of a group of a match: an optional minus sign and a run
    of characters of the class of a group of that name. *)
Lemma matches_group_text r s gs rest name t :
  matches r s gs rest -> group gs name = Ok t ->
  exists minus class sign body,
    In (Group name minus class) r /\ t = sign ++ body /\
    (sign = [] \/ (minus = true /\ sign = ["-"%char])) /\
    body <> [] /\ Forall (fun c => class c = true) body.
Proof.
  induction 1 as
      [s | p r s gs rest Hm IH
       | name' minus class r sign body s gs rest Hsign Hne Hbody Hm IH];
    simpl; intros Hg.
  - discriminate.
  - destruct (IH Hg) as (m & c & sg & b & Hin & H). exists m, c, sg, b.
    split; [right; exact Hin | exact H].
  - destruct (String.eqb_spec name' name) as [-> | _].
    + injection Hg as <-. exists minus, class, sign, body.
      repeat split; auto.
    + destruct (IH Hg) as (m & c & sg & b & Hin & H). exists m, c, sg, b.
      split; [right; exact Hin | exact H].
Qed.

Lemma matches_group_found r s gs rest name minus class :
  matches r s gs rest -> In (Group name minus class) r ->
  exists t, group gs name = Ok t.
Proof.
  induction 1 as
      [s | p r s gs rest Hm IH
       | name' minus' class' r sign body s gs rest Hsign Hne Hbody Hm IH];
    simpl; intros Hin.
  - destruct Hin.
  - destruct Hin as [Hin | Hin]; [discriminate | auto].
  - destruct (String.eqb_spec name' name) as [-> | Hn]; [eauto |].
    destruct Hin as [Hin | Hin]; [congruence | auto].
Qed.

Ltac group_cases H :=
  simpl in H; unfold int_group, nat_group in H;
  repeat (destruct H as [H | H]; [try discriminate H |]);
  try contradiction.

(** The [PTS] group of a match of the first pattern, and what [int]
    makes of it. *)
Lemma lwindex_re1_PTS line m :
  re_match lwindex_re1 line = Some m ->
  exists t,
    group m "PTS" = Ok t /\
    ((within_limit t /\ exists z, py_int t = Ok z) \/
     (~ within_limit t /\ py_int t = Raise ValueError)).
Proof.
  intros H. apply re_match_sound in H as [rest H].
  destruct (matches_group_found _ _ _ _ "PTS" true is_digit H) as [t Ht];
    [simpl; unfold int_group; tauto |].
  destruct (matches_group_text _ _ _ _ _ _ H Ht)
    as (minus & class & sign & body & Hin & -> & Hsign & Hne & Hbody).
  group_cases Hin. injection Hin as <- <-.
  exists (sign ++ body). split; [exact Ht |].
  exact (py_int_signed true sign body Hsign (conj Hne Hbody)).
Qed.

Lemma lwindex_re2_Key line m :
  re_match lwindex_re2 line = Some m ->
  exists t,
    group m "Key" = Ok t /\
    ((within_limit t /\ exists z, py_int t = Ok z) \/
     (~ within_limit t /\ py_int t = Raise ValueError)).
Proof.
  intros H. apply re_match_sound in H as [rest H].
  destruct (matches_group_found _ _ _ _ "Key" true is_digit H) as [t Ht];
    [simpl; unfold int_group; tauto |].
  destruct (matches_group_text _ _ _ _ _ _ H Ht)
    as (minus & class & sign & body & Hin & -> & Hsign & Hne & Hbody).
  group_cases Hin. injection Hin as <- <-.
  exists (sign ++ body). split; [exact Ht |].
  exact (py_int_signed true sign body Hsign (conj Hne Hbody)).
Qed.

Ltac inv_matches :=
  repeat match goal with
         | H : matches (_ :: _) _ _ _ |- _ => inversion H; subst; clear H
         | H : matches [] _ _ _ |- _ => inversion H; subst; clear H
         end.

(** Every match of a line has the [PTS], the [Key], that [re_match]
    finds. *)
Lemma lwindex_re1_PTS_unique line g rest m :
  matches lwindex_re1 line g rest ->
  re_match lwindex_re1 line = Some m ->
  group g "PTS" = group m "PTS".
Proof.
  intros Hm Hsi.
  destruct (re_match_complete _ _ _ _ lwindex_re1_unambiguous Hm)
    as (gs' & Hgs' & Hlen & Hlast).
  rewrite Hsi in Hgs'. injection Hgs' as <-.
  apply re_match_sound in Hsi as [rest' Hsi].
  unfold lwindex_re1, int_group in Hm, Hsi. inv_matches.
  simpl in Hlast. injection Hlast as _ _ E _. simpl. rewrite E.
  reflexivity.
Qed.

Lemma lwindex_re2_Key_unique line g rest m :
  matches lwindex_re2 line g rest ->
  re_match lwindex_re2 line = Some m ->
  group g "Key" = group m "Key".
Proof.
  intros Hm Hsi.
  destruct (re_match_complete _ _ _ _ lwindex_re2_unambiguous Hm)
    as (gs' & Hgs' & Hlen & Hlast).
  rewrite Hsi in Hgs'. injection Hgs' as <-.
  apply re_match_sound in Hsi as [rest' Hsi].
  unfold lwindex_re2, int_group in Hm, Hsi. inv_matches.
  simpl in Hlast. injection Hlast as E _ _ _. simpl. rewrite E.
  reflexivity.
Qed.

Lemma LWIndexFrame_init_two line1 line2 :
  LWIndexFrame_init [line1; line2] =
  match re_match lwindex_re1 line1, re_match lwindex_re2 line2 with
  | Some m1, Some m2 =>
      t <- group m1 "PTS" ;;
      p <- py_int t ;;
      t <- group m2 "Key" ;;
      k <- py_int t ;;
      Ok {| pts := p; key := k |}
  | _, _ => Raise ValueError
  end.
Proof. reflexivity. Qed.

(** A block of two lines that does not match the two field patterns
    raises [ValueError]. *)
Lemma LWIndexFrame_init_no_match line1 line2 :
  ~ block_matches [line1; line2] ->
  LWIndexFrame_init [line1; line2] = Raise ValueError.
Proof.
  intros Hn. rewrite LWIndexFrame_init_two.
  destruct (re_match lwindex_re1 line1) as [m1 |] eqn:H1; [| reflexivity].
  destruct (re_match lwindex_re2 line2) as [m2 |] eqn:H2; [| reflexivity].
  exfalso. apply Hn.
  apply re_match_sound in H1 as [r1 H1]. apply re_match_sound in H2 as [r2 H2].
  exists line1, line2, m1, m2, r1, r2. auto.
Qed.

(** ** The time base *)

Lemma split_one sep s : forall b,
  split sep s = [b] -> s = b /\ ~ In sep b.
Proof.
  induction s as [| c s IH]; simpl; intros b H.
  - injection H as <-. auto.
  - destruct (Ascii.eqb_spec c sep) as [-> | Hc].
    + destruct s; simpl in H; [discriminate |].
      destruct (Ascii.eqb a sep); [discriminate |].
      destruct (split sep s); discriminate.
    + destruct (split sep s) as [| h t] eqn:Hs.
      * injection H as <-. destruct s; simpl in Hs; [discriminate |].
        destruct (Ascii.eqb a sep); [discriminate |].
        destruct (split sep s); discriminate.
      * injection H as <- ->. destruct (IH h eq_refl) as [-> Hh].
        split; [reflexivity |]. simpl. intros [E | E]; auto.
Qed.

Lemma split_two sep s : forall a b,
  split sep s = [a; b] -> s = a ++ sep :: b /\ ~ In sep a /\ ~ In sep b.
Proof.
  induction s as [| c s IH]; simpl; intros a b H; [discriminate |].
  destruct (Ascii.eqb_spec c sep) as [-> | Hc].
  - injection H as <- H. apply split_one in H as [-> Hb]. simpl. auto.
  - destruct (split sep s) as [| h t] eqn:Hs; [discriminate |].
    injection H as <- ->. destruct (IH h b eq_refl) as (-> & Hh & Hb).
    split; [reflexivity |]. split; [| exact Hb].
    simpl. intros [E | E]; auto.
Qed.

Lemma split_no_sep sep s : ~ In sep s -> split sep s = [s].
Proof.
  induction s as [| c s IH]; simpl; intros H; [reflexivity |].
  destruct (Ascii.eqb_spec c sep) as [-> | _]; [tauto |].
  rewrite IH by tauto. reflexivity.
Qed.

Lemma split_at_sep sep a b :
  ~ In sep a -> split sep (a ++ sep :: b) = a :: split sep b.
Proof.
  induction a as [| c a IH]; simpl; intros H.
  - rewrite Ascii.eqb_refl. reflexivity.
  - destruct (Ascii.eqb_spec c sep) as [-> | _]; [tauto |].
    rewrite IH by tauto. reflexivity.
Qed.

Lemma is_digit_not_slash c : is_digit c = true -> c <> "/"%char.
Proof. intros H ->. discriminate H. Qed.

Lemma digits_no_slash s :
  Forall (fun c => is_digit c = true) s -> ~ In "/"%char s.
Proof.
  intros H Hin. rewrite Forall_forall in H.
  exact (is_digit_not_slash _ (H _ Hin) eq_refl).
Qed.

Lemma digit_or_slash_digits s :
  Forall (fun c => is_digit_or_slash c = true) s -> ~ In "/"%char s ->
  Forall (fun c => is_digit c = true) s.
Proof.
  intros H Hn. rewrite Forall_forall in *. intros c Hc.
  specialize (H c Hc). unfold is_digit_or_slash in H.
  apply orb_prop in H as [H | H]; [exact H |].
  apply Ascii.eqb_eq in H. subst c. contradiction.
Qed.

(** [int] raises nothing but [ValueError]. *)
Lemma py_int_Raise s e : py_int s = Raise e -> e = ValueError.
Proof.
  unfold py_int.
  destruct (match strip s with
            | [] => (false, [])
            | c :: s' => if Ascii.eqb c "-" then (true, s')
                         else if Ascii.eqb c "+" then (false, s')
                         else (false, strip s)
            end) as [neg s'].
  destruct s' as [| c s']; [congruence |].
  destruct (is_digit c); [| congruence].
  destruct (int_digits 0 (c :: s')); [| congruence].
  destruct (int_max_str_digits <? count_digits (c :: s'))%nat; congruence.
Qed.

Lemma unpack2_Raise {A} (l : list A) e : unpack2 l = Raise e -> e = ValueError.
Proof. destruct l as [| a [| b [| c l]]]; simpl; congruence. Qed.

Lemma unpack2_Ok {A} (l : list A) a b : unpack2 l = Ok (a, b) -> l = [a; b].
Proof. destruct l as [| x [| y [| z l]]]; simpl; congruence. Qed.

(** The time-base field parses to two numbers that are not negative
    when it can be read, and raises [ValueError] when it cannot. *)
Lemma parse_timebase_spec si t :
  group si "TimeBase" = Ok t ->
  Forall (fun c => is_digit_or_slash c = true) t ->
  (timebase_readable t /\
   exists num den, parse_timebase si = Ok (num, den) /\
                   (0 <= num)%Z /\ (0 <= den)%Z) \/
  (~ timebase_readable t /\ parse_timebase si = Raise ValueError).
Proof.
  intros Hg Ht. unfold parse_timebase. rewrite Hg. cbn [bind].
  assert (Hread : forall n d,
             t = n ++ "/"%char :: d -> digits n -> digits d ->
             within_limit n -> within_limit d ->
             exists zn zd, mapM py_int (split "/" t) = Ok [zn; zd]).
  { intros n d -> Hn Hd Hln Hld.
    rewrite split_at_sep by (apply digits_no_slash, Hn).
    rewrite split_no_sep by (apply digits_no_slash, Hd).
    destruct (py_int_digits n Hn Hln) as (zn & En & _).
    destruct (py_int_digits d Hd Hld) as (zd & Ed & _).
    exists zn, zd. simpl. rewrite En, Ed. reflexivity. }
  destruct (mapM py_int (split "/" t)) as [parts | e] eqn:Hparts.
  - cbn [bind]. destruct (unpack2 parts) as [[num den] | e] eqn:Hu.
    + left. apply unpack2_Ok in Hu as ->.
      pose proof (mapM_length _ _ _ Hparts) as Hlen.
      destruct (split "/" t) as [| a [| b [| c l]]] eqn:Hs;
        try discriminate Hlen.
      apply split_two in Hs as (-> & Ha & Hb).
      apply Forall_app in Ht as [Hta Htb].
      inversion Htb as [| ? ? _ Htb']; subst.
      apply digit_or_slash_digits in Hta; [| exact Ha].
      apply digit_or_slash_digits in Htb'; [| exact Hb].
      simpl in Hparts.
      destruct (py_int a) as [za |] eqn:Hza; [| discriminate].
      destruct (py_int b) as [zb |] eqn:Hzb; [| discriminate].
      injection Hparts as <- <-.
      assert (Hda : digits a).
      { split; [| exact Hta]. intros ->. discriminate Hza. }
      assert (Hdb : digits b).
      { split; [| exact Htb']. intros ->. discriminate Hzb. }
      destruct (py_int_unsigned a Hda) as (va & Hva & Ea).
      destruct (py_int_unsigned b Hdb) as (vb & Hvb & Eb).
      rewrite Hza in Ea. rewrite Hzb in Eb.
      destruct (within_limit_dec a) as [Hla |]; [| discriminate Ea].
      destruct (within_limit_dec b) as [Hlb |]; [| discriminate Eb].
      injection Ea as ->. injection Eb as ->.
      split; [exists a, b; auto |]. exists va, vb. auto.
    + right. pose proof (unpack2_Raise _ _ Hu) as ->.
      split; [| reflexivity].
      intros (n & d & E & Hn & Hd & Hln & Hld).
      destruct (Hread n d E Hn Hd Hln Hld) as (zn & zd & [= ->]).
      discriminate Hu.
  - right. apply mapM_Raise in Hparts as Hr. destruct Hr as (a & _ & Ha).
    apply py_int_Raise in Ha as ->. split; [| reflexivity].
    intros (n & d & E & Hn & Hd & Hln & Hld).
    destruct (Hread n d E Hn Hd Hln Hld) as (zn & zd & [=]).
Qed.

Lemma streaminfo_re_TimeBase line si :
  re_match streaminfo_re line = Some si ->
  exists t, group si "TimeBase" = Ok t /\
            Forall (fun c => is_digit_or_slash c = true) t.
Proof.
  intros H. apply re_match_sound in H as [rest H].
  destruct (matches_group_found _ _ _ _ "TimeBase" false is_digit_or_slash H)
    as [t Ht]; [simpl; tauto |].
  destruct (matches_group_text _ _ _ _ _ _ H Ht)
    as (minus & class & sign & body & Hin & -> & Hsign & Hne & Hbody).
  group_cases Hin. injection Hin as <- <-.
  destruct Hsign as [-> | [[=] _]]. eauto.
Qed.

Lemma streaminfo_TimeBase_unique line g rest si :
  matches streaminfo_re line g rest ->
  re_match streaminfo_re line = Some si ->
  group g "TimeBase" = group si "TimeBase".
Proof.
  intros Hm Hsi.
  destruct (re_match_complete _ _ _ _ streaminfo_re_unambiguous Hm)
    as (gs' & Hgs' & Hlen & Hlast).
  rewrite Hsi in Hgs'. injection Hgs' as <-.
  apply re_match_sound in Hsi as [rest' Hsi].
  unfold streaminfo_re, nat_group in Hm, Hsi. inv_matches.
  simpl in Hlast. injection Hlast as _ E _ _ _. simpl. rewrite E.
  reflexivity.
Qed.

(** ** Markers and blocks *)

Lemma str_eqb_eq a b : str_eqb a b = true <-> a = b.
Proof.
  unfold str_eqb. destruct (list_eq_dec ascii_dec a b); split;
    congruence.
Qed.

Lemma list_index_Ok x l : forall i,
  list_index x l = Ok i -> nth_error l i = Some x.
Proof.
  induction l as [| y l IH]; simpl; intros i H; [discriminate |].
  destruct (str_eqb y x) eqn:E.
  - injection H as <-. apply str_eqb_eq in E. subst. reflexivity.
  - apply bind_Ok in H as (j & Hj & H). injection H as <-. simpl. auto.
Qed.

Lemma list_index_lt x l i : list_index x l = Ok i -> (i < length l)%nat.
Proof.
  intros H. apply list_index_Ok in H. apply nth_error_Some. congruence.
Qed.

Lemma list_index_In x l : In x l -> exists i, list_index x l = Ok i.
Proof.
  induction l as [| y l IH]; simpl; intros H; [destruct H |].
  destruct (str_eqb y x) eqn:E; [eauto |].
  destruct H as [-> | H].
  - assert (str_eqb x x = true) by (apply str_eqb_eq; reflexivity).
    congruence.
  - destruct (IH H) as [i ->]. simpl. eauto.
Qed.

Lemma list_index_Raise x l e :
  list_index x l = Raise e -> e = ValueError /\ ~ In x l.
Proof.
  induction l as [| y l IH]; simpl; intros H.
  - injection H as <-. auto.
  - destruct (str_eqb y x) eqn:E; [discriminate |].
    apply bind_Raise in H as [H | (j & _ & H)]; [| discriminate].
    destruct (IH H) as [-> Hn]. split; [reflexivity |].
    intros [-> | Hin]; [| contradiction].
    assert (str_eqb x x = true) by (apply str_eqb_eq; reflexivity).
    congruence.
Qed.

Lemma range2_In start stop i :
  In i (range2 start stop) -> (start <= i < stop)%nat.
Proof.
  unfold range2. intros H. apply in_map_iff in H as (k & <- & Hk).
  apply in_seq in Hk.
  pose proof (Nat.div_mod_eq (stop - start + 1) 2).
  pose proof (Nat.mod_upper_bound (stop - start + 1) 2). lia.
Qed.

(** Every block read between the markers has two lines. *)
Lemma slice_two {A} (l : list A) i :
  (i + 1 < length l)%nat -> exists a b, slice l i (i + 2) = [a; b].
Proof.
  intros H. unfold slice. replace (i + 2 - i)%nat with 2%nat by lia.
  pose proof (length_skipn i l) as Hlen.
  destruct (skipn i l) as [| a [| b t]]; simpl in Hlen; try lia.
  simpl. eauto.
Qed.

Lemma getitem_before {A} (l : list A) s :
  (s < length l)%nat -> exists a, getitem l (Z.of_nat (S s) - 2) = Ok a.
Proof.
  intros H. unfold getitem, len.
  destruct (Z.ltb_spec (Z.of_nat (S s) - 2) 0) as [Hneg | Hpos].
  - destruct (Z.ltb_spec (Z.of_nat (length l) + (Z.of_nat (S s) - 2)) 0);
      [lia |].
    destruct (nth_error l (Z.to_nat
               (Z.of_nat (length l) + (Z.of_nat (S s) - 2)))) eqn:E;
      [eauto |].
    apply nth_error_None in E. lia.
  - destruct (Z.ltb_spec (Z.of_nat (S s) - 2) 0); [lia |].
    destruct (nth_error l (Z.to_nat (Z.of_nat (S s) - 2))) eqn:E; [eauto |].
    apply nth_error_None in E. lia.
Qed.

Lemma mapM_cases {A B} (P : A -> Prop) (f : A -> result B) e l :
  (forall a, In a l ->
             (P a /\ exists b, f a = Ok b) \/ (~ P a /\ f a = Raise e)) ->
  (Forall P l /\ exists bs, mapM f l = Ok bs) \/
  (Exists (fun a => ~ P a) l /\ mapM f l = Raise e).
Proof.
  induction l as [| a l IH]; intros H; simpl; [left; eauto |].
  destruct (H a (or_introl eq_refl)) as [[Ha [b Hb]] | [Ha Hb]];
    rewrite Hb; simpl.
  - destruct IH as [[Hl [bs Hbs]] | [Hl Hbs]].
    + intros; apply H; right; assumption.
    + left. rewrite Hbs. simpl. eauto.
    + right. rewrite Hbs. split; [| reflexivity].
      apply Exists_cons_tl, Hl.
  - right. split; [| reflexivity]. apply Exists_cons_hd, Ha.
Qed.

Lemma LWIndexFrame_init_cases line1 line2 :
  (block_readable [line1; line2] /\
   exists f, LWIndexFrame_init [line1; line2] = Ok f) \/
  (~ block_readable [line1; line2] /\
   LWIndexFrame_init [line1; line2] = Raise ValueError).
Proof.
  rewrite LWIndexFrame_init_two.
  destruct (re_match lwindex_re1 line1) as [m1 |] eqn:H1.
  2:{ right. split; [| reflexivity].
      intros (l1 & l2 & g1 & g2 & r1 & r2 & p & k & [= <- <-] & Hm & _).
      apply (re_match_complete _ _ _ _ lwindex_re1_unambiguous) in Hm
        as (m & Hm & _). congruence. }
  destruct (re_match lwindex_re2 line2) as [m2 |] eqn:H2.
  2:{ right. split; [| reflexivity].
      intros (l1 & l2 & g1 & g2 & r1 & r2 & p & k & [= <- <-] & _ & Hm & _).
      apply (re_match_complete _ _ _ _ lwindex_re2_unambiguous) in Hm
        as (m & Hm & _). congruence. }
  destruct (lwindex_re1_PTS _ _ H1) as (p & Hp & Hpc).
  destruct (lwindex_re2_Key _ _ H2) as (k & Hk & Hkc).
  rewrite Hp. cbn [bind].
  destruct Hpc as [[Hlp [zp Ezp]] | [Hlp Ezp]]; rewrite Ezp; cbn [bind].
  2:{ right. split; [| reflexivity].
      intros (l1 & l2 & g1 & g2 & r1 & r2 & p' & k' & [= <- <-] & Hm1 & _
              & Hg1 & _ & Hl1 & _).
      rewrite (lwindex_re1_PTS_unique _ _ _ _ Hm1 H1), Hp in Hg1.
      injection Hg1 as <-. contradiction. }
  rewrite Hk. cbn [bind].
  destruct Hkc as [[Hlk [zk Ezk]] | [Hlk Ezk]]; rewrite Ezk; cbn [bind].
  2:{ right. split; [| reflexivity].
      intros (l1 & l2 & g1 & g2 & r1 & r2 & p' & k' & [= <- <-] & _ & Hm2
              & _ & Hg2 & _ & Hl2).
      rewrite (lwindex_re2_Key_unique _ _ _ _ Hm2 H2), Hk in Hg2.
      injection Hg2 as <-. contradiction. }
  left. split; [| eauto].
  apply re_match_sound in H1 as [r1 H1]. apply re_match_sound in H2 as [r2 H2].
  exists line1, line2, m1, m2, r1, r2, p, k. auto 10.
Qed.

(** Between the markers the frame records parse when every block can
    be read, and [ValueError] is raised when one cannot. *)
Lemma document_frames_cases index s e :
  list_index StreamInfo_end index = Ok s ->
  list_index LibavReaderIndex_end index = Ok e ->
  (Forall block_readable (frame_blocks index) /\
   exists frames, parse_frames index (S s) e = Ok frames) \/
  (Exists (fun raw => ~ block_readable raw) (frame_blocks index) /\
   parse_frames index (S s) e = Raise ValueError).
Proof.
  intros Hs He. unfold frame_blocks, parse_frames. rewrite Hs, He.
  rewrite Forall_map, Exists_map.
  apply (mapM_cases (fun i => block_readable (slice index i (i + 2)))).
  intros i Hi. apply range2_In in Hi. apply list_index_lt in He.
  destruct (slice_two index i) as (a & b & ->); [lia |].
  apply LWIndexFrame_init_cases.
Qed.

(** The stream information line gives a time base when it matches its
    pattern with a time-base field that can be read, and [ValueError] is
    raised when it does not. *)
Lemma time_base_cases index s :
  list_index StreamInfo_end index = Ok s ->
  exists line,
    streaminfo_line index = Some line /\
    getitem index (Z.of_nat (S s) - 2) = Ok line /\
    ((streaminfo_ok line /\
      exists si num den,
        re_match streaminfo_re line = Some si /\
        parse_timebase si = Ok (num, den) /\ (0 <= num)%Z /\ (0 <= den)%Z) \/
     (~ streaminfo_ok line /\
      match re_match streaminfo_re line with
      | None => True
      | Some si => parse_timebase si = Raise ValueError
      end)).
Proof.
  intros Hs. unfold streaminfo_line. rewrite Hs.
  destruct (getitem_before index s (list_index_lt _ _ _ Hs)) as [line Hl].
  replace (Z.of_nat s - 1)%Z with (Z.of_nat (S s) - 2)%Z by lia.
  rewrite Hl. exists line. split; [reflexivity |]. split; [reflexivity |].
  destruct (re_match streaminfo_re line) as [si |] eqn:Hsi.
  - destruct (streaminfo_re_TimeBase _ _ Hsi) as (t & Ht & Hclass).
    destruct (parse_timebase_spec si t Ht Hclass)
      as [[Htb (num & den & Hp & Hn & Hd)] | [Htb Hp]].
    + left. split; [| exists si, num, den; auto].
      destruct (re_match_sound _ _ _ Hsi) as [rest Hm].
      exists si, rest, t. auto.
    + right. split; [| exact Hp].
      intros (g & rest & t' & Hm & Hg & Ht').
      rewrite (streaminfo_TimeBase_unique _ _ _ _ Hm Hsi) in Hg.
      congruence.
  - right. split; [| exact I].
    intros (g & rest & t' & Hm & _).
    apply (re_match_complete _ _ _ _ streaminfo_re_unambiguous) in Hm
      as (m & Hm & _). congruence.
Qed.

(** ** The outcomes of [info_from_lines] *)

Lemma info_from_lines_parts index frames num den :
  document_frames index = Ok frames ->
  time_base index = Ok (num, den) ->
  info_from_lines index =
  (tc <- mapM (fun f => floordiv (pts f * 1000 * num) den)
              (sort_by_key LWIndexFrame_int frames) ;;
   Ok {| timecodes := tc;
         keyframes :=
           keyframe_indexes (sort_by_key LWIndexFrame_int frames) |}).
Proof.
  intros Hf Ht.
  unfold document_frames, time_base in *. unfold info_from_lines.
  change (lit "</StreamInfo>") with StreamInfo_end.
  change (lit "</LibavReaderIndex>") with LibavReaderIndex_end.
  destruct (list_index StreamInfo_end index) as [s |]; [| discriminate].
  cbn [bind] in *.
  destruct (list_index LibavReaderIndex_end index) as [e |];
    [| discriminate].
  cbn [bind] in *. rewrite Hf. cbn [bind].
  destruct (getitem index (Z.of_nat (S s) - 2)) as [line |];
    [| discriminate].
  cbn [bind] in *.
  destruct (re_match streaminfo_re line) as [si |]; [| discriminate].
  rewrite Ht. reflexivity.
Qed.

Lemma mapM_floordiv_Raise {A} (g : A -> Z) den l e :
  mapM (fun a => floordiv (g a) den) l = Raise e -> e = ZeroDivisionError.
Proof.
  intros H. apply mapM_Raise in H as (a & _ & H). unfold floordiv in H.
  destruct (den =? 0)%Z; congruence.
Qed.

Lemma well_formed_no_format_error index :
  well_formed_index index -> ~ format_error index.
Proof.
  intros (H1 & H2 & H3 & line & Hl & Hok) [H | [H | [H | H]]];
    try contradiction.
  - rewrite Forall_forall in H3. apply Exists_exists in H as (raw & Hin & Hn).
    exact (Hn (H3 raw Hin)).
  - exact (H line Hl Hok).
Qed.

(** Either the index has a format error and [ValueError] is raised, or
    it is well formed and its frame records and time base parse. *)
Lemma info_from_lines_outcome index :
  (format_error index /\ info_from_lines index = Raise ValueError) \/
  (well_formed_index index /\
   exists frames num den,
     document_frames index = Ok frames /\
     time_base index = Ok (num, den) /\ (0 <= num)%Z /\ (0 <= den)%Z).
Proof.
  unfold info_from_lines, document_frames, time_base, format_error,
    well_formed_index.
  change (lit "</StreamInfo>") with StreamInfo_end.
  change (lit "</LibavReaderIndex>") with LibavReaderIndex_end.
  destruct (list_index StreamInfo_end index) as [s | e1] eqn:Hs.
  2:{ apply list_index_Raise in Hs as [-> Hs]. left. auto. }
  destruct (list_index LibavReaderIndex_end index) as [e | e2] eqn:He.
  2:{ apply list_index_Raise in He as [-> He]. left. auto. }
  cbn [bind].
  assert (In1 : In StreamInfo_end index)
    by (eapply nth_error_In, list_index_Ok, Hs).
  assert (In2 : In LibavReaderIndex_end index)
    by (eapply nth_error_In, list_index_Ok, He).
  destruct (document_frames_cases index s e Hs He)
    as [[Hblocks [frames Hf]] | [Hblocks Hf]]; rewrite Hf; cbn [bind].
  2:{ left. auto. }
  destruct (time_base_cases index s Hs) as (line & Hline & Hget & Hcases).
  rewrite Hget. cbn [bind].
  destruct Hcases as [[Hok (si & num & den & Hsi & Hp & Hn & Hd)]
                     | [Hbad Hp]].
  - right. rewrite Hsi. split; [eauto 10 |].
    exists frames, num, den. auto.
  - left. split.
    + right. right. right. intros line' Hl'. congruence.
    + destruct (re_match streaminfo_re line); [| reflexivity].
      rewrite Hp. reflexivity.
Qed.

(** The parts of a valid index make a well-formed index. *)
Lemma valid_index_well_formed index frames num den :
  valid_index index frames num den -> well_formed_index index.
Proof.
  intros (Hf & Ht & _).
  destruct (info_from_lines_outcome index) as [[_ Hv] | [Hw _]];
    [| exact Hw].
  rewrite (info_from_lines_parts _ _ _ _ Hf Ht) in Hv.
  apply bind_Raise in Hv as [Hv | (tc & _ & Hv)]; [| discriminate].
  apply mapM_floordiv_Raise in Hv. discriminate.
Qed.

Lemma valid_index_time_base index frames num den :
  valid_index index frames num den -> (0 <= num)%Z /\ (0 < den)%Z.
Proof.
  intros Hv. pose proof (valid_index_well_formed _ _ _ _ Hv) as Hw.
  destruct Hv as (Hf & Ht & Hden).
  destruct (info_from_lines_outcome index)
    as [[He _] | [_ (fr & n & d & _ & Ht' & Hn & Hd)]].
  - destruct (well_formed_no_format_error _ Hw He).
  - rewrite Ht in Ht'. injection Ht' as <- <-. lia.
Qed.

(** ** Keyframe positions *)

Lemma enumerate_from_sorted {A} (l : list A) : forall s,
  StronglySorted (fun p q : Z * A => (fst p < fst q)%Z)
                 (combine (map Z.of_nat (seq s (length l))) l).
Proof.
  induction l as [| y l IH]; intros s; simpl; constructor.
  - apply IH.
  - apply Forall_forall. intros [a x] H.
    apply in_combine_l, in_map_iff in H as (n & <- & Hn).
    apply in_seq in Hn. simpl. lia.
Qed.

Lemma enumerate_from_In {A} (l : list A) : forall s i x,
  In (i, x) (combine (map Z.of_nat (seq s (length l))) l) <->
  (Z.of_nat s <= i)%Z /\ nth_error l (Z.to_nat i - s) = Some x.
Proof.
  induction l as [| y l IH]; intros s i x; simpl.
  - split; [tauto |]. intros [_ H]. destruct (Z.to_nat i - s)%nat;
      discriminate.
  - rewrite IH. split.
    + intros [H | [Hle Hn]].
      * injection H as <- <-. rewrite Nat2Z.id, Nat.sub_diag.
        split; [lia | reflexivity].
      * split; [lia |].
        replace (Z.to_nat i - s)%nat with (S (Z.to_nat i - S s)) by lia.
        exact Hn.
    + intros [Hle Hn].
      destruct (Z.eq_dec i (Z.of_nat s)) as [-> | Hne].
      * left. rewrite Nat2Z.id, Nat.sub_diag in Hn. simpl in Hn.
        congruence.
      * right. split; [lia |].
        replace (Z.to_nat i - s)%nat with (S (Z.to_nat i - S s)) in Hn
          by lia.
        exact Hn.
Qed.

(** The keyframe list holds the positions of the frames whose flag is
    not zero. *)
Lemma keyframe_indexes_In frames i :
  In i (keyframe_indexes frames) <->
  exists f, (0 <= i)%Z /\ nth_error frames (Z.to_nat i) = Some f /\
            key f <> 0%Z.
Proof.
  unfold keyframe_indexes, enumerate. rewrite in_map_iff. split.
  - intros ([j f] & <- & H). apply filter_In in H as [H Hk].
    apply enumerate_from_In in H as [Hle Hn]. rewrite Nat.sub_0_r in Hn.
    exists f. simpl in *. split; [lia |]. split; [exact Hn |].
    apply negb_true_iff, Z.eqb_neq in Hk. exact Hk.
  - intros (f & Hle & Hn & Hk). exists (i, f). split; [reflexivity |].
    apply filter_In. split.
    + apply enumerate_from_In. rewrite Nat.sub_0_r. split; [lia | exact Hn].
    + simpl. apply negb_true_iff, Z.eqb_neq. exact Hk.
Qed.

(** The keyframe list ascends. *)
Lemma keyframe_indexes_sorted frames :
  StronglySorted Z.lt (keyframe_indexes frames).
Proof.
  unfold keyframe_indexes, enumerate.
  apply StronglySorted_map
    with (R := fun p q : Z * LWIndexFrame => (fst p < fst q)%Z);
    [auto |].
  apply StronglySorted_filter, enumerate_from_sorted.
Qed.

Lemma keyframe_indexes_bound frames :
  Forall (fun i => (0 <= i < Z.of_nat (length frames))%Z)
         (keyframe_indexes frames).
Proof.
  apply Forall_forall. intros i H.
  apply keyframe_indexes_In in H as (f & Hle & Hn & _).
  assert (Z.to_nat i < length frames)%nat
    by (apply nth_error_Some; congruence).
  lia.
Qed.

(** ** Timecodes *)


(** The floor is the only number between the bounds. *)
Lemma is_floor_unique a b t t' :
  is_floor a b t -> is_floor a b t' -> t = t'.
Proof. unfold is_floor. intros H H'. nia. Qed.

Lemma timecode_mono num den f g :
  (0 <= num)%Z -> (0 < den)%Z -> (pts f <= pts g)%Z ->
  (timecode num den f <= timecode num den g)%Z.
Proof.
  intros Hn Hd H. unfold timecode. apply Z.div_le_mono; [exact Hd |]. nia.
Qed.

Lemma timecodes_sorted num den frames :
  (0 <= num)%Z -> (0 < den)%Z ->
  StronglySorted (key_le pts) frames ->
  StronglySorted Z.le (map (timecode num den) frames).
Proof.
  intros Hn Hd. apply StronglySorted_map. intros f g _ _.
  apply timecode_mono; assumption.
Qed.

Lemma info_from_lwindex_valid fs indexfile frames num den :
  valid_index_file fs indexfile frames num den ->
  info_from_lwindex fs indexfile =
  Ok {| timecodes :=
          map (timecode num den) (sort_by_key LWIndexFrame_int frames);
        keyframes :=
          keyframe_indexes (sort_by_key LWIndexFrame_int frames) |}.
Proof.
  intros (text & Hr & Hv). unfold info_from_lwindex. rewrite Hr.
  cbn [bind]. apply info_from_lines_valid, Hv.
Qed.

(** The two sample indexes are valid. *)
Lemma sample_index_valid :
  valid_index_file sample_fs (lit "video.lwi") sample_frames 1 1000.
Proof.
  exists (universal_newlines sample_index).
  split; [reflexivity |]. split; [vm_compute; reflexivity |].
  split; [vm_compute; reflexivity | discriminate].
Defined.

Lemma tied_index_valid :
  valid_index_file sample_fs (lit "tied.lwi") tied_frames 1 25.
Proof.
  exists (universal_newlines tied_index).
  split; [reflexivity |]. split; [vm_compute; reflexivity |].
  split; [vm_compute; reflexivity | discriminate].
Defined.

(** ** The timecodes and keyframes of a valid index *)

Lemma Forall2_map_r {A B} (R : A -> B -> Prop) (f : A -> B) l :
  (forall a, In a l -> R a (f a)) -> Forall2 R l (map f l).
Proof.
  induction l as [| a l IH]; intros H; simpl; constructor.
  - apply H. left. reflexivity.
  - apply IH. intros. apply H. right. assumption.
Qed.



(** The example of the specification: time base 1/1000, timestamps 0,
    40, 20 in document order and keyframe flags 1, 0, 0. *)
Example info_from_lwindex_sample :
  info_from_lwindex sample_fs (lit "video.lwi")
  = Ok {| timecodes := [0; 20; 40]%Z; keyframes := [0%Z] |}.
Proof. vm_compute. reflexivity. Qed.

(** C3: for a valid index file the keyframe list holds, in ascending
    order, exactly the zero-based positions, in the stable listing of
    the frames by ascending timestamp, of the frames whose keyframe
    flag is not zero. *)
Theorem keyframes_of_valid_index fs indexfile frames num den :
  valid_index_file fs indexfile frames num den ->
  exists info sorted,
    info_from_lwindex fs indexfile = Ok info /\
    Permutation sorted frames /\
    StronglySorted (key_le pts) sorted /\
    (forall k, filter (has_key pts k) sorted
               = filter (has_key pts k) frames) /\
    StronglySorted Z.lt (keyframes info) /\
    forall i, In i (keyframes info) <->
              exists f, (0 <= i)%Z /\
                        nth_error sorted (Z.to_nat i) = Some f /\
                        key f <> 0%Z.
Proof.
  intros Hv. pose proof (info_from_lwindex_valid _ _ _ _ _ Hv) as Hinfo.
  eexists. exists (sort_by_key LWIndexFrame_int frames).
  split; [exact Hinfo |]. cbn [keyframes].
  split; [apply sort_by_key_perm |].
  split; [apply (sort_by_key_sorted pts) |].
  split; [intros k; apply (sort_by_key_stable pts) |].
  split; [apply keyframe_indexes_sorted |].
  apply keyframe_indexes_In.
Qed.

Lemma keyframes_of_valid_index_witness :
  exists info sorted,
    info_from_lwindex sample_fs (lit "video.lwi") = Ok info /\
    Permutation sorted sample_frames /\
    StronglySorted (key_le pts) sorted /\
    (forall k, filter (has_key pts k) sorted
               = filter (has_key pts k) sample_frames) /\
    StronglySorted Z.lt (keyframes info) /\
    forall i, In i (keyframes info) <->
              exists f, (0 <= i)%Z /\
                        nth_error sorted (Z.to_nat i) = Some f /\
                        key f <> 0%Z.
Proof.
  exact (keyframes_of_valid_index sample_fs (lit "video.lwi") sample_frames
           1 1000 sample_index_valid).
Defined.

(** C5: the frames of a valid index file are listed by timestamp first
    and by position in the file second, so frames of equal timestamp
    keep their document order, and both output lists are read off that
    listing. *)
Theorem equal_timestamps_keep_document_order fs indexfile frames num den :
  valid_index_file fs indexfile frames num den ->
  exists order : list nat,
    Permutation order (seq 0 (length frames)) /\
    StronglySorted (pts_then_position frames) order /\
    info_from_lwindex fs indexfile =
    Ok {| timecodes := map (timecode num den) (frames_at frames order);
          keyframes := keyframe_indexes (frames_at frames order) |}.
Proof.
  intros Hv. rewrite (info_from_lwindex_valid _ _ _ _ _ Hv).
  destruct (sort_by_key_positions pts {| pts := 0; key := 0 |} frames)
    as (order & Hperm & Hmap & Hsorted).
  exists order. split; [exact Hperm |]. split; [exact Hsorted |].
  unfold frames_at. rewrite Hmap. reflexivity.
Qed.

Lemma equal_timestamps_keep_document_order_witness :
  exists order : list nat,
    Permutation order (seq 0 (length tied_frames)) /\
    StronglySorted (pts_then_position tied_frames) order /\
    info_from_lwindex sample_fs (lit "tied.lwi") =
    Ok {| timecodes := map (timecode 1 25) (frames_at tied_frames order);
          keyframes := keyframe_indexes (frames_at tied_frames order) |}.
Proof.
  exact (equal_timestamps_keep_document_order sample_fs (lit "tied.lwi")
           tied_frames 1 25 tied_index_valid).
Defined.

(** Two frames of one timestamp: the keyframe is the second frame of
    the file and stays second. *)
Example info_from_lwindex_tied :
  info_from_lwindex sample_fs (lit "tied.lwi")
  = Ok {| timecodes := [280; 280]%Z; keyframes := [1%Z] |}.
Proof. vm_compute. reflexivity. Qed.

(** C6: for a valid index file there are as many timecodes as frame
    records, every keyframe is a position in the timecode list, and the
    timecodes do not decrease. *)
Theorem info_from_lwindex_invariants fs indexfile frames num den :
  valid_index_file fs indexfile frames num den ->
  exists info,
    info_from_lwindex fs indexfile = Ok info /\
    length (timecodes info) = length frames /\
    Forall (fun i => (0 <= i < Z.of_nat (length (timecodes info)))%Z)
           (keyframes info) /\
    StronglySorted Z.le (timecodes info).
Proof.
  intros Hv. pose proof (info_from_lwindex_valid _ _ _ _ _ Hv) as Hinfo.
  destruct Hv as (text & _ & Hv).
  destruct (valid_index_time_base _ _ _ _ Hv) as [Hnum Hden].
  eexists. split; [exact Hinfo |]. cbn [timecodes keyframes].
  split; [rewrite length_map; apply sort_by_key_length |].
  split.
  - rewrite length_map. apply keyframe_indexes_bound.
  - apply timecodes_sorted; [exact Hnum | exact Hden |].
    apply (sort_by_key_sorted pts).
Qed.

Lemma info_from_lwindex_invariants_witness :
  exists info,
    info_from_lwindex sample_fs (lit "video.lwi") = Ok info /\
    length (timecodes info) = length sample_frames /\
    Forall (fun i => (0 <= i < Z.of_nat (length (timecodes info)))%Z)
           (keyframes info) /\
    StronglySorted Z.le (timecodes info).
Proof.
  exact (info_from_lwindex_invariants sample_fs (lit "video.lwi")
           sample_frames 1 1000 sample_index_valid).
Defined.

(** ** Keyframe files *)

Lemma splitlines_from_line line : forall cur rest,
  Forall (fun c => is_linebreak c = false) line ->
  splitlines_from cur (line ++ LF :: rest)
  = (rev cur ++ line) :: splitlines_from [] rest.
Proof.
  induction line as [| c line IH]; intros cur rest H.
  - simpl app. rewrite app_nil_r.
    change (splitlines_from cur (LF :: rest))
      with (rev cur :: match rest with
                       | d :: s'' =>
                           if Ascii.eqb LF CR && Ascii.eqb d LF
                           then splitlines_from [] s''
                           else splitlines_from [] rest
                       | [] => []
                       end).
    destruct rest; reflexivity.
  - inversion H as [| ? ? Hc Hl]; subst. simpl. rewrite Hc.
    rewrite IH by exact Hl. simpl. rewrite <- app_assoc. reflexivity.
Qed.

(** Splitting a text made of lines, each ended by a line feed, returns
    the lines. *)
Lemma splitlines_lines lines :
  Forall (Forall (fun c => is_linebreak c = false)) lines ->
  splitlines (concat (map (fun l => l ++ [LF]) lines)) = lines.
Proof.
  unfold splitlines. induction 1 as [| l lines Hl _ IH]; [reflexivity |].
  simpl. rewrite <- app_assoc. simpl app.
  rewrite splitlines_from_line by exact Hl. rewrite IH. reflexivity.
Qed.

Lemma string_of_uint_digits d :
  Forall (fun c => is_digit c = true)
         (list_ascii_of_string (NilEmpty.string_of_uint d)).
Proof. induction d; simpl; constructor; auto. Qed.

Lemma string_of_uint_all_digits d :
  Forall (fun c => is_digit c = true)
         (list_ascii_of_string (NilZero.string_of_uint d)).
Proof.
  unfold NilZero.string_of_uint. pose proof (string_of_uint_digits d) as H.
  destruct d; try exact H. repeat constructor.
Qed.

(** The decimal text of an integer: a minus sign when it is negative,
    and digits. *)
Lemma decimal_chars n :
  Forall (fun c => is_digit c = true \/ c = "-"%char) (decimal n).
Proof.
  unfold decimal.
  assert (H : forall d,
             Forall (fun c => is_digit c = true \/ c = "-"%char)
                    (list_ascii_of_string (NilZero.string_of_uint d))).
  { intros d. eapply Forall_impl; [| apply string_of_uint_all_digits].
    simpl. auto. }
  destruct (Z.to_int n) as [d | d]; simpl; [apply H |].
  constructor; [right; reflexivity | apply H].
Qed.

Lemma decimal_no_linebreak n :
  Forall (fun c => is_linebreak c = false) (decimal n).
Proof.
  eapply Forall_impl; [| apply decimal_chars].
  intros c [H | ->]; [| reflexivity].
  ascii_cases c; try discriminate H; reflexivity.
Qed.

(** [str] returns the decimal text of an integer within the bound and
    raises [ValueError] beyond it. *)
Lemma py_str_within n : int_within_limit n -> py_str n = Ok (decimal n).
Proof.
  intros H. unfold py_str. rewrite ltb_within_limit.
  destruct (within_limit_dec (decimal n)); [reflexivity | contradiction].
Qed.

Lemma py_str_beyond n : ~ int_within_limit n -> py_str n = Raise ValueError.
Proof.
  intros H. unfold py_str. rewrite ltb_within_limit.
  destruct (within_limit_dec (decimal n)); [contradiction | reflexivity].
Qed.

Lemma py_str_Ok n s : py_str n = Ok s -> s = decimal n /\ int_within_limit n.
Proof.
  unfold py_str. rewrite ltb_within_limit.
  destruct (within_limit_dec (decimal n)); [| discriminate].
  intros [= <-]. auto.
Qed.

Lemma py_str_Raise n e : py_str n = Raise e -> e = ValueError.
Proof.
  unfold py_str. destruct (_ <? _)%nat; congruence.
Qed.

(** ** [int] reads back what [str] writes *)

Lemma digit_step acc (c : ascii) (k : positive) s :
  is_digit c = true -> digit_val c = Z.pos k ->
  int_digits (Z.pos acc) (c :: s) = int_digits (Z.pos (k + 10 * acc)) s.
Proof.
  intros Hc Hk. simpl. rewrite Hc, Hk. f_equal. lia.
Qed.

Lemma digit_step_zero acc s :
  int_digits (Z.pos acc) ("0"%char :: s) = int_digits (Z.pos (10 * acc)) s.
Proof.
  simpl. change (is_digit "0") with true. cbv iota. f_equal.
  change (digit_val "0") with 0%Z. lia.
Qed.

Lemma digit_first (c : ascii) (k : positive) s :
  is_digit c = true -> digit_val c = Z.pos k ->
  int_digits 0 (c :: s) = int_digits (Z.pos k) s.
Proof. intros Hc Hk. simpl. rewrite Hc, Hk. reflexivity. Qed.

Lemma int_digits_of_uint_acc d : forall acc,
  int_digits (Z.pos acc) (list_ascii_of_string (NilEmpty.string_of_uint d))
  = Some (Z.pos (Pos.of_uint_acc d acc)).
Proof.
  induction d; intros acc; cbn [NilEmpty.string_of_uint
                                 list_ascii_of_string Pos.of_uint_acc];
    try reflexivity;
    try (erewrite digit_step; [apply IHd | reflexivity | reflexivity]).
  rewrite digit_step_zero. apply IHd.
Qed.

Lemma int_digits_of_uint d :
  int_digits 0 (list_ascii_of_string (NilEmpty.string_of_uint d))
  = Some (Z.of_uint d).
Proof.
  unfold Z.of_uint.
  induction d; cbn [NilEmpty.string_of_uint list_ascii_of_string
                      Pos.of_uint];
    try reflexivity;
    try (erewrite digit_first;
         [apply int_digits_of_uint_acc | reflexivity | reflexivity]).
  exact IHd.
Qed.

Lemma int_digits_of_uint_zero d :
  int_digits 0 (list_ascii_of_string (NilZero.string_of_uint d))
  = Some (Z.of_uint d).
Proof.
  unfold NilZero.string_of_uint.
  destruct d; try apply int_digits_of_uint. reflexivity.
Qed.

Lemma py_int_of_uint d :
  within_limit (list_ascii_of_string (NilZero.string_of_uint d)) ->
  py_int (list_ascii_of_string (NilZero.string_of_uint d))
  = Ok (Z.of_uint d).
Proof.
  intros Hl. pose proof (string_of_uint_all_digits d) as Hall.
  pose proof (int_digits_of_uint_zero d) as Hv.
  apply Nat.ltb_ge in Hl. unfold py_int.
  rewrite strip_id
    by (eapply Forall_impl; [| exact Hall]; apply is_digit_not_space).
  destruct (list_ascii_of_string (NilZero.string_of_uint d))
    as [| c s] eqn:E; [destruct d; discriminate E |].
  assert (Hc : is_digit c = true) by (inversion Hall; assumption).
  destruct (is_digit_not_sign c Hc) as [-> ->]. rewrite Hc, Hv, Hl.
  reflexivity.
Qed.

(** [int] gives back the integer whose decimal text it reads, when the
    text is within the bound. *)
Lemma py_int_decimal n : int_within_limit n -> py_int (decimal n) = Ok n.
Proof.
  unfold int_within_limit, decimal.
  rewrite <- (DecimalZ.of_to n) at 3.
  destruct (Z.to_int n) as [d | d]; cbn [NilZero.string_of_int Z.of_int].
  - apply py_int_of_uint.
  - intros Hl. cbn [list_ascii_of_string] in *.
    unfold within_limit in Hl. rewrite count_digits_minus in Hl.
    pose proof (string_of_uint_all_digits d) as Hall.
    pose proof (int_digits_of_uint_zero d) as Hv.
    apply Nat.ltb_ge in Hl. unfold py_int.
    rewrite strip_id
      by (constructor; [reflexivity |];
          eapply Forall_impl; [| exact Hall]; apply is_digit_not_space).
    cbv beta iota. rewrite Ascii.eqb_refl.
    destruct (list_ascii_of_string (NilZero.string_of_uint d))
      as [| c s] eqn:E; [destruct d; discriminate E |].
    assert (Hc : is_digit c = true) by (inversion Hall; assumption).
    rewrite Hc, Hv, Hl. reflexivity.
Qed.

Lemma write_text_read fs path writes :
  write_text fs path writes path = Some (concat writes).
Proof.
  unfold write_text.
  assert (H : str_eqb path path = true) by (apply str_eqb_eq; reflexivity).
  rewrite H. reflexivity.
Qed.




Lemma keyframe_lines_beyond l :
  Exists (fun n => ~ int_within_limit n) l ->
  mapM (fun n => s <- py_str n ;; Ok (s ++ [LF])) l = Raise ValueError.
Proof.
  induction l as [| n l IH]; intros H; [inversion H |]. simpl.
  destruct (within_limit_dec (decimal n)) as [Hn | Hn].
  - rewrite py_str_within by exact Hn. simpl. rewrite IH; [reflexivity |].
    inversion H; subst; [contradiction | assumption].
  - rewrite py_str_beyond by exact Hn. reflexivity.
Qed.






(** What [save_keyframes] raises is raised by [open], by [str] or by the
    writing. *)
Lemma save_keyframes_Raise os fs filename keyframes e fs' :
  save_keyframes os fs filename keyframes = (Raise e, fs') ->
  (has_nul filename = true /\ e = ValueError /\ fs' = fs) \/
  (open_w os filename = Some e /\ fs' = fs) \/
  (Exists (fun n => ~ int_within_limit n) keyframes /\ e = ValueError) \/
  (exists text kept, store os filename text = WriteError e kept).
Proof.
  unfold save_keyframes.
  destruct (has_nul filename); [intros [= <- <-]; auto |].
  destruct (open_w os filename) as [e' |]; [intros [= <- <-]; auto |].
  destruct (mapM _ keyframes) as [lines | e'] eqn:Hm; cbv beta iota zeta.
  - destruct (store os filename _) as [| e'' kept] eqn:Hst;
      [discriminate |].
    intros [= <- <-]. right. right. right. eauto.
  - destruct (store os filename _) as [| e'' kept] eqn:Hst.
    + intros [= <- <-]. right. right. left.
      apply mapM_Raise in Hm as (n & Hin & Hn).
      apply bind_Raise in Hn as [Hn | (s & _ & Hn)]; [| discriminate].
      pose proof (py_str_Raise _ _ Hn) as ->. split; [| reflexivity].
      apply Exists_exists. exists n. split; [exact Hin |].
      intros Hl. rewrite (py_str_within _ Hl) in Hn. discriminate.
    + intros [= <- <-]. right. right. right. eauto.
Qed.


Example save_keyframes_sample :
  snd (save_keyframes plain_os sample_fs (lit "video keyframes.txt")
                      [0; 24; 250]%Z)
      (lit "video keyframes.txt")
  = Some (text_of_lines
            ["# keyframe format v1"; "fps 0"; "0"; "24"; "250"]%string).
Proof. vm_compute. reflexivity. Qed.


(** ** Format errors *)

Lemma info_from_lines_format_error index :
  info_from_lines index = Raise ValueError <-> format_error index.
Proof.
  destruct (info_from_lines_outcome index)
    as [[He Hr] | [Hw (frames & num & den & Hf & Ht & _)]].
  - tauto.
  - split.
    + intros Hr. rewrite (info_from_lines_parts _ _ _ _ Hf Ht) in Hr.
      apply bind_Raise in Hr as [Hr | (tc & _ & Hr)]; [| discriminate].
      apply mapM_floordiv_Raise in Hr. discriminate.
    + intros He. destruct (well_formed_no_format_error _ Hw He).
Qed.

(** C4, as the code has it: [info_from_lwindex] raises [ValueError]
    exactly when a marker is absent, when a two-line block between the
    markers does not match the two field patterns or has a [PTS] or a
    [Key] of more than 4300 digits, or when the stream information line
    does not match its whole pattern with a time-base field of two
    numbers, of at most 4300 digits each, and a slash; on a well-formed
    index it does not raise it. *)
Theorem info_from_lwindex_format_error fs indexfile text :
  read_text fs indexfile = Ok text ->
  (info_from_lwindex fs indexfile = Raise ValueError <->
   format_error (splitlines text)) /\
  (well_formed_index (splitlines text) ->
   info_from_lwindex fs indexfile <> Raise ValueError).
Proof.
  intros Hr. unfold info_from_lwindex. rewrite Hr. cbn [bind].
  split; [apply info_from_lines_format_error |].
  intros Hw He. apply info_from_lines_format_error in He.
  exact (well_formed_no_format_error _ Hw He).
Qed.

Lemma info_from_lwindex_format_error_witness :
  (info_from_lwindex sample_fs (lit "bad.lwi") = Raise ValueError <->
   format_error (splitlines (universal_newlines bad_width_index))) /\
  info_from_lwindex sample_fs (lit "video.lwi") <> Raise ValueError.
Proof.
  split.
  - apply (proj1 (info_from_lwindex_format_error sample_fs (lit "bad.lwi")
                    _ eq_refl)).
  - apply (proj2 (info_from_lwindex_format_error sample_fs (lit "video.lwi")
                    _ eq_refl)).
    apply (valid_index_well_formed _ sample_frames 1 1000).
    split; [vm_compute; reflexivity |].
    split; [vm_compute; reflexivity | discriminate].
Defined.

Lemma digits_intro s :
  s <> [] -> forallb is_digit s = true -> digits s.
Proof.
  intros Hne H. split; [exact Hne |].
  apply Forall_forall. rewrite forallb_forall in H. exact H.
Qed.

(** C4, as the specification words it, fails: the index below has both
    markers, no frame block at all and the time-base field [1/1000],
    yet [ValueError] is raised, since its width is not a number. *)
Lemma format_error_expected_counterexample :
  read_text sample_fs (lit "bad.lwi")
  = Ok (universal_newlines bad_width_index) /\
  ~ (info_from_lwindex sample_fs (lit "bad.lwi") = Raise ValueError <->
     format_error_expected
       (splitlines (universal_newlines bad_width_index))).
Proof.
  split; [reflexivity |]. intros [Hto _].
  specialize (Hto eq_refl).
  destruct Hto as [H | [H | [H | H]]].
  - apply H. vm_compute. tauto.
  - apply H. vm_compute. tauto.
  - vm_compute in H. inversion H.
  - apply (H (lit "Codec=27,TimeBase=1/1000,Width=x,Height=1080,Format=yuv420p,ColorSpace=1"));
      [vm_compute; reflexivity |].
    destruct (re_match_sound streaminfo_timebase_re
                (lit "Codec=27,TimeBase=1/1000,Width=x,Height=1080,Format=yuv420p,ColorSpace=1")
                [("Codec"%string, lit "27"); ("TimeBase"%string, lit "1/1000")])
      as [rest Hm]; [vm_compute; reflexivity |].
    exists [("Codec"%string, lit "27"); ("TimeBase"%string, lit "1/1000")],
      rest, (lit "1/1000").
    split; [exact Hm |]. split; [reflexivity |].
    exists (lit "1"), (lit "1000"). split; [reflexivity |].
    split; apply digits_intro; (discriminate || reflexivity).
Qed.

(** A frame record that matches the two patterns is refused all the
    same when its timestamp has more digits than [int] accepts. *)
Example LWIndexFrame_init_long_pts :
  block_matches
    [lit "Index=0,POS=0,PTS=" ++ repeat "1"%char 4301 ++ lit ",DTS=0,EDI=0";
     lit "Key=1,Pic=1,POC=0,Repeat=1,Field=0"] /\
  LWIndexFrame_init
    [lit "Index=0,POS=0,PTS=" ++ repeat "1"%char 4301 ++ lit ",DTS=0,EDI=0";
     lit "Key=1,Pic=1,POC=0,Repeat=1,Field=0"]
  = Raise ValueError.
Proof.
  split; [| vm_compute; reflexivity].
  match goal with
  | |- block_matches [?l1; ?l2] =>
      destruct (re_match lwindex_re1 l1) as [m1 |] eqn:E1;
        [| vm_compute in E1; discriminate E1];
      destruct (re_match lwindex_re2 l2) as [m2 |] eqn:E2;
        [| vm_compute in E2; discriminate E2];
      apply re_match_sound in E1 as [r1 H1];
      apply re_match_sound in E2 as [r2 H2];
      exists l1, l2, m1, m2, r1, r2; auto
  end.
Qed.

(** A time base of denominator zero is not a format error: with a frame
    to convert the division raises [ZeroDivisionError]. *)
Example info_from_lwindex_zero_den :
  info_from_lwindex sample_fs (lit "zero.lwi") = Raise ZeroDivisionError.
Proof. vm_compute. reflexivity. Qed.

(** ** Plugins *)

Section Plugins.

Context {Kwargs : Type}.

Lemma detect_missing (core : Core Kwargs) clip use_scxvid kwargs :
  selected_detector core use_scxvid = None ->
  detect core clip use_scxvid kwargs
  = Raise (VsError (missing_plugin_message (selected_name use_scxvid))).
Proof.
  unfold selected_detector, detect, selected_name.
  destruct use_scxvid; intros ->; reflexivity.
Qed.

Lemma detect_installed (core : Core Kwargs) clip use_scxvid kwargs f clip' :
  selected_detector core use_scxvid = Some f ->
  f clip kwargs = Ok clip' ->
  detect core clip use_scxvid kwargs = Ok clip'.
Proof.
  unfold selected_detector, detect.
  destruct use_scxvid; intros -> Hf; simpl; rewrite Hf; reflexivity.
Qed.

(** What the scan of the frames raises is raised by the rendering of the
    frames, or is the [AttributeError] of a frame without the property
    or the [KeyError] of a frame that was not rendered. *)
Lemma drain_Raise use_scxvid fs : forall keyframes n e,
  drain use_scxvid keyframes n fs = Raise e -> e = AttributeError.
Proof.
  induction fs as [| f fs IH]; simpl; intros keyframes n e H;
    [discriminate |].
  unfold _cb in H.
  destruct (if use_scxvid then _SceneChangePrev f else Scenechange f);
    simpl in H; [eapply IH, H | congruence].
Qed.

Lemma dict_get_Raise d n e : dict_get d n = Raise e -> e = KeyError.
Proof.
  induction d as [| [m v] d IH]; simpl; [congruence |].
  destruct (m =? n)%nat; [discriminate | exact IH].
Qed.

Lemma collect_Raise d ns e : collect d ns = Raise e -> e = KeyError.
Proof.
  induction ns as [| n ns IH]; simpl; intros H; [discriminate |].
  apply bind_Raise in H as [H | (v & _ & H)];
    [eapply dict_get_Raise, H |].
  apply bind_Raise in H as [H | (rest & _ & H)]; [auto | discriminate].
Qed.

Lemma scan_Raise clip use_scxvid e :
  scan clip use_scxvid = Raise e ->
  frames clip = Raise e \/ e = AttributeError \/ e = KeyError.
Proof.
  unfold scan. intros H.
  apply bind_Raise in H as [H | (fs & _ & H)]; [auto |].
  apply bind_Raise in H as [H | (d & _ & H)].
  - right. left. eapply drain_Raise, H.
  - right. right. eapply collect_Raise, H.
Qed.

(** C7, as the code has it: once the clip has been resized, which needs
    a clip height that is not zero, [make_keyframes] fails with the
    error that names the plugin of the detector it was asked to use,
    [scxvid] or [wwxd], when that plugin is not installed, whether the
    other one is or not; when the plugin is installed and its filter
    returns a clip, the result is that of scanning the frames of this
    clip, and it is not an error of a missing plugin unless the
    rendering of the frames raises one itself. *)
Theorem make_keyframes_selected_detector
        (core : Core Kwargs) clip use_scxvid resize_h resize_format kwargs
        w resized :
  floordiv (resize_h * width clip) (height clip) = Ok w ->
  resize_Bilinear core clip w resize_h resize_format = Ok resized ->
  (selected_detector core use_scxvid = None ->
   make_keyframes core clip use_scxvid resize_h resize_format kwargs
   = Raise (VsError (missing_plugin_message (selected_name use_scxvid)))) /\
  (forall f detected,
      selected_detector core use_scxvid = Some f ->
      f resized kwargs = Ok detected ->
      make_keyframes core clip use_scxvid resize_h resize_format kwargs
      = scan detected use_scxvid /\
      ((forall name,
           frames detected
           <> Raise (VsError (missing_plugin_message name))) ->
       ~ missing_plugin_error
           (make_keyframes core clip use_scxvid resize_h resize_format
                           kwargs))).
Proof.
  intros Hw Hr. unfold make_keyframes. rewrite Hw. cbn [bind].
  rewrite Hr. cbn [bind]. split.
  - intros Hsel. rewrite detect_missing by exact Hsel. reflexivity.
  - intros f detected Hsel Hf.
    rewrite (detect_installed _ _ _ _ _ _ Hsel Hf). cbn [bind].
    split; [reflexivity |].
    intros Hframes [name Hname].
    apply scan_Raise in Hname as [Hname | [Hname | Hname]];
      [exact (Hframes name Hname) | discriminate | discriminate].
Qed.

(** C8: without the audio prober [check_audio] returns [False] and
    raises nothing. *)
Theorem check_audio_no_prober (core : Core Kwargs) filename kwargs :
  bas_Source core = None -> check_audio core filename kwargs = Ok false.
Proof. unfold check_audio. intros ->. reflexivity. Qed.

(** It returns [False] as well when the prober fails to open the
    file. *)
Lemma check_audio_prober_fails (core : Core Kwargs) filename kwargs f msg :
  bas_Source core = Some f -> f filename kwargs = Raise (VsError msg) ->
  check_audio core filename kwargs = Ok false.
Proof. unfold check_audio. intros -> Hf. simpl. rewrite Hf. reflexivity. Qed.

End Plugins.

Lemma make_keyframes_selected_detector_witness :
  make_keyframes scxvid_only_core sample_clip false 360 1 tt
  = Raise (VsError (missing_plugin_message (lit "wwxd"))) /\
  make_keyframes scxvid_only_core sample_clip true 360 1 tt
  = scan {| width := 640; height := 360; num_frames := 3;
            frames := frames sample_clip |} true /\
  ~ missing_plugin_error
      (make_keyframes scxvid_only_core sample_clip true 360 1 tt).
Proof.
  split.
  - apply (proj1 (make_keyframes_selected_detector scxvid_only_core
                    sample_clip false 360 1 tt 640 _ eq_refl eq_refl)).
    reflexivity.
  - destruct (proj2 (make_keyframes_selected_detector scxvid_only_core
                       sample_clip true 360 1 tt 640 _ eq_refl eq_refl)
                    (fun clip _ => Ok clip) _ eq_refl eq_refl)
      as [Hscan Hno].
    split; [exact Hscan |]. apply Hno. intros name. discriminate.
Defined.

(** With the detector that is installed the keyframes are found. *)
Example make_keyframes_scxvid :
  make_keyframes scxvid_only_core sample_clip true 360 1 tt = Ok [0%Z].
Proof. reflexivity. Qed.

(** C7, as the specification words it, fails: Scxvid is installed, and
    [make_keyframes], asked to use WWXD, fails for want of a plugin. *)
Lemma make_keyframes_counterexample :
  ~ (missing_plugin_error
       (make_keyframes scxvid_only_core sample_clip false 360 1 tt) <->
     no_detector scxvid_only_core).
Proof.
  intros [Hto _].
  assert (H : no_detector scxvid_only_core).
  { apply Hto. exists (lit "wwxd"). reflexivity. }
  destruct H as [H _]. discriminate H.
Qed.

Lemma check_audio_no_prober_witness :
  check_audio scxvid_only_core (lit "video.mkv") tt = Ok false.
Proof.
  apply (check_audio_no_prober scxvid_only_core (lit "video.mkv") tt).
  reflexivity.
Defined.

(** ** Printed frame records *)

Lemma string_of_uint_nonempty d :
  list_ascii_of_string (NilZero.string_of_uint d) <> [].
Proof. destruct d; discriminate. Qed.

(** The decimal text of an integer is a sign and a run of digits. *)
Lemma decimal_signed n :
  exists sign body,
    decimal n = sign ++ body /\
    (sign = [] \/ (true = true /\ sign = ["-"%char])) /\
    body <> [] /\ Forall (fun c => is_digit c = true) body.
Proof.
  unfold decimal.
  destruct (Z.to_int n) as [d | d]; cbn [NilZero.string_of_int].
  - exists [], (list_ascii_of_string (NilZero.string_of_uint d)).
    split; [reflexivity |]. split; [auto |].
    split; [apply string_of_uint_nonempty | apply string_of_uint_all_digits].
  - exists ["-"%char], (list_ascii_of_string (NilZero.string_of_uint d)).
    split; [reflexivity |]. split; [auto |].
    split; [apply string_of_uint_nonempty | apply string_of_uint_all_digits].
Qed.

Lemma matches_int_group name r n s gs rest :
  matches r s gs rest ->
  matches (int_group name :: r) (decimal n ++ s)
          ((name, decimal n) :: gs) rest.
Proof.
  intros Hm. destruct (decimal_signed n) as (sign & body & E & Hs & Hne & Hb).
  rewrite E, <- app_assoc. apply matches_group; assumption.
Qed.

Lemma matches_int_group_last name n :
  matches [int_group name] (decimal n) [(name, decimal n)] [].
Proof.
  pose proof (matches_int_group name [] n [] [] [] (matches_nil [])) as H.
  rewrite app_nil_r in H. exact H.
Qed.

Ltac printed_line :=
  repeat rewrite <- app_assoc;
  repeat first [ apply matches_lit | apply matches_int_group ];
  apply matches_int_group_last.

(** Parsing a printed frame record whose timestamp and keyframe flag
    are within the bound of [int] gives them back. *)
Lemma LWIndexFrame_init_printed index pos p dts edi k pic poc repeat field :
  int_within_limit p -> int_within_limit k ->
  LWIndexFrame_init (frame_lines index pos p dts edi k pic poc repeat field)
  = Ok {| pts := p; key := k |}.
Proof.
  intros Hp Hk. unfold frame_lines. rewrite LWIndexFrame_init_two.
  match goal with
  | |- context [re_match lwindex_re1 ?l] =>
      assert (H1 : exists rest,
                 matches lwindex_re1 l
                   [("Index"%string, decimal index);
                    ("POS"%string, decimal pos);
                    ("PTS"%string, decimal p); ("DTS"%string, decimal dts);
                    ("EDI"%string, decimal edi)] rest)
        by (exists []; unfold lwindex_re1; printed_line)
  end.
  match goal with
  | |- context [re_match lwindex_re2 ?l] =>
      assert (H2 : exists rest,
                 matches lwindex_re2 l
                   [("Key"%string, decimal k); ("Pic"%string, decimal pic);
                    ("POC"%string, decimal poc);
                    ("Repeat"%string, decimal repeat);
                    ("Field"%string, decimal field)] rest)
        by (exists []; unfold lwindex_re2; printed_line)
  end.
  destruct H1 as [r1 H1]. destruct H2 as [r2 H2].
  destruct (re_match_complete _ _ _ _ lwindex_re1_unambiguous H1)
    as (m1 & -> & Hlen1 & Hlast1).
  destruct (re_match_complete _ _ _ _ lwindex_re2_unambiguous H2)
    as (m2 & -> & Hlen2 & Hlast2).
  destruct m1 as [| a1 [| a2 [| a3 [| a4 [| a5 [| a6 m1]]]]]];
    try discriminate Hlen1.
  destruct m2 as [| b1 [| b2 [| b3 [| b4 [| b5 [| b6 m2]]]]]];
    try discriminate Hlen2.
  simpl in Hlast1, Hlast2.
  injection Hlast1 as -> -> -> ->. injection Hlast2 as -> -> -> ->.
  simpl group. cbn [bind].
  rewrite (py_int_decimal p Hp). cbn [bind].
  rewrite (py_int_decimal k Hk). reflexivity.
Qed.

(** ** Printed indexes *)

Lemma decimal_nonneg n : (0 <= n)%Z -> digits (decimal n).
Proof.
  intros Hn. unfold decimal. destruct n as [| p | p]; [| | lia];
    cbn [Z.to_int NilZero.string_of_int].
  - split; [discriminate | repeat constructor].
  - split; [apply string_of_uint_nonempty | apply string_of_uint_all_digits].
Qed.

Lemma matches_plain_group name minus class r body s gs rest :
  body <> [] -> Forall (fun c => class c = true) body ->
  matches r s gs rest ->
  matches (Group name minus class :: r) (body ++ s)
          ((name, body) :: gs) rest.
Proof.
  intros Hne Hb Hm.
  exact (matches_group name minus class r [] body s gs rest
           (or_introl eq_refl) Hne Hb Hm).
Qed.

Lemma matches_nat_group name r n s gs rest :
  (0 <= n)%Z -> matches r s gs rest ->
  matches (nat_group name :: r) (decimal n ++ s)
          ((name, decimal n) :: gs) rest.
Proof.
  intros Hn Hm. destruct (decimal_nonneg n Hn) as [Hne Hd].
  apply matches_plain_group; assumption.
Qed.

Lemma timebase_text_class num den :
  (0 <= num)%Z -> (0 <= den)%Z ->
  Forall (fun c => is_digit_or_slash c = true)
         (decimal num ++ "/"%char :: decimal den).
Proof.
  intros Hn Hd. destruct (decimal_nonneg num Hn) as [_ H1].
  destruct (decimal_nonneg den Hd) as [_ H2].
  apply Forall_app. split; [| constructor; [reflexivity |]].
  - eapply Forall_impl; [| exact H1]. intros c Hc.
    unfold is_digit_or_slash. rewrite Hc. reflexivity.
  - eapply Forall_impl; [| exact H2]. intros c Hc.
    unfold is_digit_or_slash. rewrite Hc. reflexivity.
Qed.

Lemma printed_streaminfo_matches si :
  stream_fields_ok si ->
  matches streaminfo_re (printed_streaminfo si)
          [ ("Codec"%string, decimal (s_codec si));
            ("TimeBase"%string,
             decimal (s_num si) ++ "/"%char :: decimal (s_den si));
            ("Width"%string, decimal (s_width si));
            ("Height"%string, decimal (s_height si));
            ("Format"%string, s_format si);
            ("ColorSpace"%string, decimal (s_colorspace si)) ] [].
Proof.
  intros (Hc & Hn & Hd & Hw & Hh & Hs & Hfne & Hf & _).
  unfold streaminfo_re, printed_streaminfo.
  apply matches_lit. apply matches_nat_group; [exact Hc |].
  apply matches_lit.
  apply matches_plain_group;
    [destruct (decimal (s_num si)); discriminate
    | apply timebase_text_class; assumption |].
  apply matches_lit. apply matches_nat_group; [exact Hw |].
  apply matches_lit. apply matches_nat_group; [exact Hh |].
  apply matches_lit. apply matches_plain_group; [exact Hfne | exact Hf |].
  apply matches_lit.
  rewrite <- (app_nil_r (decimal (s_colorspace si))) at 1.
  apply matches_nat_group; [exact Hs |].
  apply matches_nil.
Qed.

(** The time base of a printed stream information line is read back. *)
Lemma printed_streaminfo_timebase si :
  stream_fields_ok si ->
  exists m,
    re_match streaminfo_re (printed_streaminfo si) = Some m /\
    parse_timebase m = Ok (s_num si, s_den si).
Proof.
  intros Hok. pose proof (printed_streaminfo_matches si Hok) as Hm.
  destruct Hok as (_ & Hn & Hd & _ & _ & _ & _ & _ & Hln & Hld).
  destruct (re_match_complete _ _ _ _ streaminfo_re_unambiguous Hm)
    as (m & Hsi & _).
  exists m. split; [exact Hsi |].
  pose proof (streaminfo_TimeBase_unique _ _ _ _ Hm Hsi) as Hg.
  simpl in Hg. unfold parse_timebase. rewrite <- Hg. cbn [bind].
  destruct (decimal_nonneg _ Hn) as [_ H1].
  destruct (decimal_nonneg _ Hd) as [_ H2].
  rewrite split_at_sep by (apply digits_no_slash, H1).
  rewrite split_no_sep by (apply digits_no_slash, H2).
  simpl. rewrite (py_int_decimal _ Hln). simpl.
  rewrite (py_int_decimal _ Hld). reflexivity.
Qed.

Lemma list_index_app x a b :
  ~ In x a ->
  list_index x (a ++ b) = (i <- list_index x b ;; Ok (length a + i)%nat).
Proof.
  induction a as [| y a IH]; simpl; intros H.
  - destruct (list_index x b); reflexivity.
  - destruct (str_eqb y x) eqn:E;
      [apply str_eqb_eq in E; subst; tauto |].
    rewrite IH by tauto. destruct (list_index x b); reflexivity.
Qed.

Lemma list_index_head x l : list_index x (x :: l) = Ok 0%nat.
Proof.
  simpl. assert (H : str_eqb x x = true) by (apply str_eqb_eq; reflexivity).
  rewrite H. reflexivity.
Qed.

Lemma printed_frames_no_marker records marker :
  (exists s, marker = "<"%char :: s) ->
  ~ In marker (concat (map printed_frame records)).
Proof.
  intros [s ->]. induction records as [| r records IH]; simpl; [tauto |].
  intros [H | [H | H]]; [discriminate H | discriminate H | auto].
Qed.

Lemma printed_streaminfo_no_marker si marker :
  (exists s, marker = "<"%char :: s) -> printed_streaminfo si <> marker.
Proof. intros [s ->]. discriminate. Qed.

Lemma range2_even start n :
  range2 start (start + 2 * n)
  = map (fun k => (start + 2 * k)%nat) (seq 0 n).
Proof.
  unfold range2. f_equal. f_equal.
  replace (start + 2 * n - start + 1)%nat with (1 + n * 2)%nat by lia.
  rewrite Nat.div_add by lia. reflexivity.
Qed.

Lemma slice_printed_frame pre r rest :
  slice (pre ++ printed_frame r ++ rest) (length pre) (length pre + 2)
  = printed_frame r.
Proof.
  unfold slice. replace (length pre + 2 - length pre)%nat with 2%nat by lia.
  rewrite skipn_app, Nat.sub_diag, skipn_all. reflexivity.
Qed.

Lemma parse_frames_printed records :
  Forall record_readable records ->
  forall pre rest,
    parse_frames (pre ++ concat (map printed_frame records) ++ rest)
                 (length pre) (length pre + 2 * length records)
    = Ok (map frame_of records).
Proof.
  unfold parse_frames.
  induction 1 as [| r records [Hp Hk] _ IH]; intros pre rest.
  - rewrite range2_even. reflexivity.
  - rewrite range2_even. cbn [length seq map]. rewrite <- seq_shift, map_map.
    cbn [mapM concat map]. rewrite Nat.mul_0_r, Nat.add_0_r.
    rewrite <- app_assoc, slice_printed_frame.
    unfold printed_frame at 1.
    rewrite LWIndexFrame_init_printed by assumption.
    cbn [bind].
    specialize (IH (pre ++ printed_frame r) rest).
    rewrite range2_even in IH.
    rewrite <- app_assoc in IH.
    replace (map (fun x => (length pre + 2 * S x)%nat)
                 (seq 0 (length records)))
      with (map (fun k => (length (pre ++ printed_frame r) + 2 * k)%nat)
                (seq 0 (length records))).
    + rewrite IH. reflexivity.
    + apply map_ext. intros k. rewrite length_app. simpl length. lia.
Qed.

Lemma length_printed_frames records :
  length (concat (map printed_frame records)) = (2 * length records)%nat.
Proof.
  induction records as [| r records IH]; simpl; [reflexivity |].
  simpl in IH. rewrite IH. lia.
Qed.

Lemma getitem_middle {A} (pre : list A) x rest :
  getitem (pre ++ x :: rest) (Z.of_nat (length pre)) = Ok x.
Proof.
  assert (E : (Z.of_nat (length pre) <? 0)%Z = false)
    by (apply Z.ltb_ge; lia).
  unfold getitem. rewrite E. cbv beta zeta. rewrite E.
  rewrite Nat2Z.id, nth_error_app2, Nat.sub_diag by lia. reflexivity.
Qed.

(** A printed index is valid, with the frame records and the time base
    it was printed from. *)
Lemma printed_index_valid header si records trailer :
  stream_fields_ok si -> s_den si <> 0%Z ->
  Forall record_readable records ->
  ~ In StreamInfo_end header -> ~ In LibavReaderIndex_end header ->
  valid_index (printed_index header si records trailer)
              (map frame_of records) (s_num si) (s_den si).
Proof.
  intros Hok Hd Hrec H1 H2.
  set (index := printed_index header si records trailer).
  assert (Hs : list_index StreamInfo_end index = Ok (S (length header))).
  { unfold index, printed_index. rewrite <- !app_assoc.
    rewrite list_index_app by exact H1. cbn [app list_index].
    destruct (str_eqb (printed_streaminfo si) StreamInfo_end) eqn:E.
    - apply str_eqb_eq in E.
      destruct (printed_streaminfo_no_marker si StreamInfo_end);
        [eexists; reflexivity | exact E].
    - assert (E' : str_eqb StreamInfo_end StreamInfo_end = true)
        by (apply str_eqb_eq; reflexivity).
      rewrite E'. cbn [bind]. f_equal. lia. }
  assert (He : list_index LibavReaderIndex_end index
               = Ok (length (header ++ [printed_streaminfo si;
                                        StreamInfo_end])
                     + 2 * length records)%nat).
  { unfold index, printed_index.
    rewrite list_index_app.
    - rewrite list_index_app
        by (apply printed_frames_no_marker; eexists; reflexivity).
      rewrite list_index_head. cbn [bind].
      rewrite length_printed_frames. f_equal. lia.
    - intros Hin. apply in_app_or in Hin as [Hin | [Hin | [Hin | []]]].
      + contradiction.
      + destruct (printed_streaminfo_no_marker si LibavReaderIndex_end);
          [eexists; reflexivity | exact Hin].
      + discriminate Hin. }
  split; [| split; [| exact Hd]].
  - unfold document_frames. rewrite Hs, He. cbn [bind].
    replace (S (S (length header)))
      with (length (header ++ [printed_streaminfo si; StreamInfo_end]))
      by (rewrite length_app; simpl; lia).
    apply parse_frames_printed, Hrec.
  - unfold time_base. rewrite Hs. cbn [bind].
    replace (Z.of_nat (S (S (length header))) - 2)%Z
      with (Z.of_nat (length header)) by lia.
    unfold index, printed_index. rewrite <- !app_assoc. cbn [app].
    rewrite getitem_middle. cbn [bind].
    destruct (printed_streaminfo_timebase si Hok) as (m & -> & Hp).
    exact Hp.
Qed.

(** What [info_from_lines] returns on a printed index. *)
Lemma info_from_lines_printed header si records trailer :
  stream_fields_ok si -> s_den si <> 0%Z ->
  Forall record_readable records ->
  ~ In StreamInfo_end header -> ~ In LibavReaderIndex_end header ->
  info_from_lines (printed_index header si records trailer) =
  Ok {| timecodes :=
          map (timecode (s_num si) (s_den si))
              (sort_by_key LWIndexFrame_int (map frame_of records));
        keyframes :=
          keyframe_indexes
            (sort_by_key LWIndexFrame_int (map frame_of records)) |}.
Proof.
  intros Hok Hd Hrec H1 H2. apply info_from_lines_valid.
  apply printed_index_valid; assumption.
Qed.

(** ** Printed index files *)

Lemma universal_newlines_id s : ~ In CR s -> universal_newlines s = s.
Proof.
  induction s as [| c s IH]; intros H; [reflexivity |].
  cbn [universal_newlines].
  destruct (Ascii.eqb_spec c CR) as [-> | _]; [simpl in H; tauto |].
  rewrite IH by (simpl in H; tauto). reflexivity.
Qed.

Lemma lines_text_no_CR lines :
  Forall (Forall (fun c => is_linebreak c = false)) lines ->
  ~ In CR (concat (map (fun l => l ++ [LF]) lines)).
Proof.
  induction 1 as [| l lines Hl _ IH]; simpl; [tauto |].
  intros Hin. apply in_app_or in Hin as [Hin | Hin]; [| contradiction].
  apply in_app_or in Hin as [Hin | [Hin | []]]; [| discriminate Hin].
  rewrite Forall_forall in Hl. specialize (Hl _ Hin). discriminate Hl.
Qed.

(** Reading a file written line by line gives back the lines. *)
Lemma read_lines fs path lines :
  fs path = Some (concat (map (fun l => l ++ [LF]) lines)) ->
  Forall (Forall (fun c => is_linebreak c = false)) lines ->
  exists text, read_text fs path = Ok text /\ splitlines text = lines.
Proof.
  intros Hfs Hl. unfold read_text. rewrite Hfs. eexists.
  split; [reflexivity |].
  rewrite universal_newlines_id by (apply lines_text_no_CR, Hl).
  apply splitlines_lines, Hl.
Qed.

Lemma lit_decimal_no_linebreak (s : str) n rest :
  Forall (fun c => is_linebreak c = false) s ->
  Forall (fun c => is_linebreak c = false) rest ->
  Forall (fun c => is_linebreak c = false) (s ++ decimal n ++ rest).
Proof.
  intros Hs Hr. apply Forall_app. split; [exact Hs |].
  apply Forall_app. split; [apply decimal_no_linebreak | exact Hr].
Qed.

Lemma printed_frame_no_linebreak r :
  Forall (Forall (fun c => is_linebreak c = false)) (printed_frame r).
Proof.
  unfold printed_frame, frame_lines.
  constructor; [| constructor; [| constructor]];
    repeat (apply lit_decimal_no_linebreak; [repeat constructor |]);
    (apply Forall_app; split;
     [repeat constructor | apply decimal_no_linebreak]).
Qed.

Lemma is_alnum_no_linebreak c : is_alnum c = true -> is_linebreak c = false.
Proof. intros H. ascii_cases c; try discriminate H; reflexivity. Qed.

Lemma printed_streaminfo_no_linebreak si :
  Forall (fun c => is_alnum c = true) (s_format si) ->
  Forall (fun c => is_linebreak c = false) (printed_streaminfo si).
Proof.
  intros Hf. unfold printed_streaminfo.
  apply lit_decimal_no_linebreak; [repeat constructor |].
  apply Forall_app. split; [repeat constructor |].
  apply Forall_app. split.
  { apply Forall_app. split; [apply decimal_no_linebreak |].
    constructor; [reflexivity | apply decimal_no_linebreak]. }
  apply lit_decimal_no_linebreak; [repeat constructor |].
  apply lit_decimal_no_linebreak; [repeat constructor |].
  apply Forall_app. split; [repeat constructor |].
  apply Forall_app. split.
  { eapply Forall_impl; [| exact Hf]. apply is_alnum_no_linebreak. }
  apply Forall_app. split; [repeat constructor |].
  apply decimal_no_linebreak.
Qed.

Lemma printed_index_no_linebreak header si records trailer :
  Forall (fun c => is_alnum c = true) (s_format si) ->
  Forall (Forall (fun c => is_linebreak c = false)) header ->
  Forall (Forall (fun c => is_linebreak c = false)) trailer ->
  Forall (Forall (fun c => is_linebreak c = false))
         (printed_index header si records trailer).
Proof.
  intros Hf Hh Ht. unfold printed_index.
  apply Forall_app. split.
  - apply Forall_app. split; [exact Hh |].
    constructor; [apply printed_streaminfo_no_linebreak, Hf |].
    constructor; [repeat constructor | constructor].
  - apply Forall_app. split.
    + apply Forall_concat, Forall_map, Forall_forall. intros r _.
      apply printed_frame_no_linebreak.
    + constructor; [repeat constructor | exact Ht].
Qed.

(** A file that holds a printed index is a valid index file. *)
Lemma printed_index_file_valid fs path header si records trailer :
  fs path = Some (concat (map (fun l => l ++ [LF])
                              (printed_index header si records trailer))) ->
  Forall (Forall (fun c => is_linebreak c = false)) header ->
  Forall (Forall (fun c => is_linebreak c = false)) trailer ->
  stream_fields_ok si -> s_den si <> 0%Z ->
  Forall record_readable records ->
  ~ In StreamInfo_end header -> ~ In LibavReaderIndex_end header ->
  valid_index_file fs path (map frame_of records) (s_num si) (s_den si).
Proof.
  intros Hfs Hh Ht Hok Hd Hrec H1 H2.
  assert (Hf : Forall (fun c => is_alnum c = true) (s_format si))
    by (destruct Hok as (_ & _ & _ & _ & _ & _ & _ & Hf & _); exact Hf).
  destruct (read_lines fs path _ Hfs
              (printed_index_no_linebreak _ si records _ Hf Hh Ht))
    as (text & Hr & Hl).
  exists text. split; [exact Hr |]. rewrite Hl.
  apply printed_index_valid; assumption.
Qed.

(** ** Well-formed indexes and the exceptions raised *)

(** An index is well formed exactly when its frame records and its time
    base parse. *)
Lemma well_formed_index_parts index :
  well_formed_index index <->
  exists frames num den,
    document_frames index = Ok frames /\ time_base index = Ok (num, den).
Proof.
  split.
  - intros Hw.
    destruct (info_from_lines_outcome index)
      as [[He _] | [_ (frames & num & den & Hf & Ht & _)]].
    + destruct (well_formed_no_format_error _ Hw He).
    + eauto.
  - intros (frames & num & den & Hf & Ht).
    destruct (info_from_lines_outcome index) as [[_ Hv] | [Hw _]];
      [| exact Hw].
    rewrite (info_from_lines_parts _ _ _ _ Hf Ht) in Hv.
    apply bind_Raise in Hv as [Hv | (tc & _ & Hv)]; [| discriminate].
    apply mapM_floordiv_Raise in Hv. discriminate.
Qed.

(** [info_from_lines] raises [ValueError], or [ZeroDivisionError] on a
    time base of denominator zero, and nothing else. *)
Lemma info_from_lines_Raise index e :
  info_from_lines index = Raise e ->
  e = ValueError \/
  (e = ZeroDivisionError /\ exists num, time_base index = Ok (num, 0%Z)).
Proof.
  intros Hr.
  destruct (info_from_lines_outcome index)
    as [[_ Hv] | [_ (frames & num & den & Hf & Ht & _)]].
  - left. congruence.
  - right. rewrite (info_from_lines_parts _ _ _ _ Hf Ht) in Hr.
    apply bind_Raise in Hr as [Hr | (tc & _ & Hr)]; [| discriminate].
    pose proof (mapM_floordiv_Raise _ _ _ _ Hr) as ->.
    split; [reflexivity |]. exists num.
    apply mapM_Raise in Hr as (f & _ & Hr). unfold floordiv in Hr.
    destruct (Z.eqb_spec den 0) as [-> | _]; [exact Ht | discriminate].
Qed.

(** * Further properties *)

(** ** File names *)

Lemma cache_char_not_separator c :
  is_separator (if char_in c (lit "/\:") then "_"%char else c) = false.
Proof.
  destruct (char_in c (lit "/\:")) eqn:E; [reflexivity | exact E].
Qed.

(** X1: a cache file name has no path separator and no colon: it names a
    file of the directory it is put in. *)
Theorem make_lwi_cache_filename_no_separator (filename : str) :
  Forall (fun c => is_separator c = false)
         (make_lwi_cache_filename filename).
Proof.
  unfold make_lwi_cache_filename. apply Forall_app. split.
  - apply Forall_map, Forall_forall. intros c _.
    apply cache_char_not_separator.
  - repeat constructor.
Qed.

Lemma Forall2_cache_char s :
  Forall2 cache_char s
          (map (fun c => if char_in c (lit "/\:") then "_"%char else c) s).
Proof.
  apply Forall2_map_r. intros c _. unfold cache_char, is_separator.
  destruct (char_in c (lit "/\:")); reflexivity.
Qed.

(** X2: a cache file name is made of the end of the file name, character by
    character with ['_'] for each separator, and of [".lwi"]; a file
    name of 250 characters at most is kept whole. *)
Theorem make_lwi_cache_filename_keeps_end (filename : str) :
  exists front kept body,
    filename = front ++ kept /\
    make_lwi_cache_filename filename = body ++ lit ".lwi" /\
    Forall2 cache_char kept body /\
    ((len filename <= 250)%Z -> front = []).
Proof.
  unfold make_lwi_cache_filename. change (len extension) with 4%Z.
  unfold max_len.
  destruct (Z.gtb_spec (len filename + 4) 254) as [H | H].
  - destruct (slice_from_suffix filename (254 + 4)) as [front Hf]; [lia |].
    exists front, (slice_from filename (- (254 + 4))). eexists.
    split; [exact Hf |]. split; [reflexivity |].
    split; [apply Forall2_cache_char | lia].
  - exists [], filename. eexists.
    split; [reflexivity |]. split; [reflexivity |].
    split; [apply Forall2_cache_char | reflexivity].
Qed.

Lemma make_keyframes_filename_cut stem ext :
  ~ In "."%char ext ->
  make_keyframes_filename (stem ++ "."%char :: ext)
  = stem ++ lit " keyframes.txt".
Proof.
  intros H. unfold make_keyframes_filename.
  rewrite rev_app_distr. simpl rev. rewrite <- app_assoc. simpl app.
  rewrite find_first by (rewrite <- in_rev; exact H).
  replace (len (stem ++ "."%char :: ext) - (len (rev ext) + 1))%Z
    with (len stem).
  - rewrite slice_to_app. reflexivity.
  - rewrite len_app. unfold len. rewrite length_rev. simpl length. lia.
Qed.

(** X3: two file names that differ in their extension only have the same
    keyframe file. *)
Theorem make_keyframes_filename_same_stem stem ext1 ext2 :
  ~ In "."%char ext1 -> ~ In "."%char ext2 ->
  make_keyframes_filename (stem ++ "."%char :: ext1)
  = make_keyframes_filename (stem ++ "."%char :: ext2).
Proof.
  intros H1 H2. rewrite !make_keyframes_filename_cut by assumption.
  reflexivity.
Qed.

Lemma make_keyframes_filename_same_stem_witness :
  make_keyframes_filename (lit "a/video" ++ "."%char :: lit "mkv")
  = make_keyframes_filename (lit "a/video" ++ "."%char :: lit "mp4").
Proof.
  apply make_keyframes_filename_same_stem;
    simpl; intros [H | [H | [H | []]]]; discriminate H.
Defined.

Lemma last_occurrence (c : ascii) s :
  In c s -> exists a b, s = a ++ c :: b /\ ~ In c b.
Proof.
  induction s as [| d s IH]; intros H; [destruct H |].
  destruct (in_dec ascii_dec c s) as [Hin | Hout].
  - destruct (IH Hin) as (a & b & -> & Hb). exists (d :: a), b. auto.
  - destruct H as [-> | H]; [| contradiction]. exists [], s. auto.
Qed.

(** X4: when the base name of the video has a dot, the keyframe file lies in
    the directory of the video: its name is the directory, the base
    name up to its last dot, and [" keyframes.txt"]. *)
Theorem make_keyframes_filename_next_to_video dir base :
  In "."%char base ->
  exists stem ext,
    base = stem ++ "."%char :: ext /\ ~ In "."%char ext /\
    make_keyframes_filename (dir ++ "/"%char :: base)
    = dir ++ "/"%char :: stem ++ lit " keyframes.txt".
Proof.
  intros H. destruct (last_occurrence _ _ H) as (stem & ext & -> & Hext).
  exists stem, ext. split; [reflexivity |]. split; [exact Hext |].
  change (dir ++ "/"%char :: stem ++ "."%char :: ext)
    with (dir ++ ("/"%char :: stem) ++ "."%char :: ext).
  rewrite app_assoc, make_keyframes_filename_cut by exact Hext.
  rewrite <- app_assoc. reflexivity.
Qed.

Lemma make_keyframes_filename_next_to_video_witness :
  exists stem ext,
    lit "file.mkv" = stem ++ "."%char :: ext /\ ~ In "."%char ext /\
    make_keyframes_filename (lit "path/to" ++ "/"%char :: lit "file.mkv")
    = lit "path/to" ++ "/"%char :: stem ++ lit " keyframes.txt".
Proof.
  apply make_keyframes_filename_next_to_video.
  simpl. tauto.
Defined.

(** X5: when the base name has no dot and a directory of the path has one,
    the path is cut at that dot: the keyframe file is not named after
    the video and does not lie in its directory. *)
Theorem make_keyframes_filename_dotted_directory parent rest base :
  ~ In "."%char rest -> ~ In "."%char base ->
  make_keyframes_filename (parent ++ "."%char :: rest ++ "/"%char :: base)
  = parent ++ lit " keyframes.txt".
Proof.
  intros Hr Hb. apply make_keyframes_filename_cut.
  intros Hin. apply in_app_or in Hin as [Hin | [Hin | Hin]];
    [contradiction | discriminate Hin | contradiction].
Qed.

Lemma make_keyframes_filename_dotted_directory_witness :
  make_keyframes_filename
    (lit "videos" ++ "."%char :: lit "old" ++ "/"%char :: lit "film")
  = lit "videos" ++ lit " keyframes.txt".
Proof.
  apply make_keyframes_filename_dotted_directory; simpl.
  - intros [H | [H | [H | []]]]; discriminate H.
  - intros [H | [H | [H | [H | []]]]]; discriminate H.
Defined.

(** ** What [info_from_lwindex] raises *)

(** X6: what [info_from_lwindex] raises is what opening and reading the
    file raises, passed on as it is, or, once the file has been read,
    [ValueError] or [ZeroDivisionError]: no line is ever looked up out
    of range. *)
Theorem info_from_lwindex_exceptions fs indexfile e :
  info_from_lwindex fs indexfile = Raise e ->
  read_text fs indexfile = Raise e \/
  ((exists text, read_text fs indexfile = Ok text) /\
   (e = ValueError \/ e = ZeroDivisionError)).
Proof.
  unfold info_from_lwindex.
  destruct (read_text fs indexfile) as [text | e']; cbn [bind]; intros H.
  - right. split; [eauto |].
    apply info_from_lines_Raise in H as [H | [H _]]; auto.
  - left. injection H as ->. reflexivity.
Qed.

Lemma info_from_lwindex_exceptions_witness :
  read_text sample_fs (lit "zero.lwi") = Raise ZeroDivisionError \/
  ((exists text, read_text sample_fs (lit "zero.lwi") = Ok text) /\
   (ZeroDivisionError = ValueError \/ ZeroDivisionError = ZeroDivisionError)).
Proof.
  apply (info_from_lwindex_exceptions sample_fs (lit "zero.lwi")).
  vm_compute. reflexivity.
Defined.

(** A file name with a NUL character is refused with [ValueError] before
    any file is looked for. *)
Example info_from_lwindex_nul :
  info_from_lwindex empty_fs [zero] = Raise ValueError.
Proof. reflexivity. Qed.

(** ** Indexes without frames, and time bases of denominator zero *)

Lemma mapM_floordiv_zero {A} (g : A -> Z) a l :
  mapM (fun x => floordiv (g x) 0) (a :: l) = Raise ZeroDivisionError.
Proof. reflexivity. Qed.

Lemma sort_by_key_nil_inv {A} (key : A -> Z) l :
  sort_by_key key l = [] -> l = [].
Proof.
  intros H. apply (f_equal (@length A)) in H.
  rewrite sort_by_key_length in H. destruct l; [reflexivity | discriminate].
Qed.

(** X7: with a time base of denominator zero, [info_from_lwindex] raises
    [ZeroDivisionError] as soon as the index has a frame record, and
    returns two empty lists when it has none. *)
Theorem info_from_lwindex_zero_denominator fs indexfile text frames num :
  read_text fs indexfile = Ok text ->
  document_frames (splitlines text) = Ok frames ->
  time_base (splitlines text) = Ok (num, 0%Z) ->
  info_from_lwindex fs indexfile =
  match frames with
  | [] => Ok {| timecodes := []; keyframes := [] |}
  | _ :: _ => Raise ZeroDivisionError
  end.
Proof.
  intros Hr Hf Ht. unfold info_from_lwindex. rewrite Hr. cbn [bind].
  rewrite (info_from_lines_parts _ _ _ _ Hf Ht).
  destruct (sort_by_key LWIndexFrame_int frames) as [| f sorted] eqn:Hs.
  - apply sort_by_key_nil_inv in Hs. subst. reflexivity.
  - rewrite mapM_floordiv_zero. destruct frames; [discriminate Hs |].
    reflexivity.
Qed.

Lemma info_from_lwindex_zero_denominator_witness :
  info_from_lwindex sample_fs (lit "zero.lwi") = Raise ZeroDivisionError.
Proof.
  apply (info_from_lwindex_zero_denominator sample_fs (lit "zero.lwi")
           (universal_newlines zero_den_index)
           [ {| pts := 7; key := 1 |} ] 1);
    vm_compute; reflexivity.
Defined.

Lemma range2_empty start stop : (stop <= start)%nat -> range2 start stop = [].
Proof.
  intros H. unfold range2.
  replace (stop - start + 1)%nat with 1%nat by lia. reflexivity.
Qed.

(** X8: when the end marker is the line after the [</StreamInfo>] marker,
    or comes before it, no frame record is read: the result is two
    empty lists whatever the time base, a zero denominator included. *)
Theorem info_from_lwindex_no_frames fs indexfile text s e num den :
  read_text fs indexfile = Ok text ->
  list_index StreamInfo_end (splitlines text) = Ok s ->
  list_index LibavReaderIndex_end (splitlines text) = Ok e ->
  (e <= S s)%nat ->
  time_base (splitlines text) = Ok (num, den) ->
  info_from_lwindex fs indexfile
  = Ok {| timecodes := []; keyframes := [] |}.
Proof.
  intros Hr Hs He Hle Ht. unfold info_from_lwindex. rewrite Hr. cbn [bind].
  assert (Hf : document_frames (splitlines text) = Ok []).
  { unfold document_frames. rewrite Hs, He. cbn [bind].
    unfold parse_frames. rewrite range2_empty by exact Hle. reflexivity. }
  rewrite (info_from_lines_parts _ _ _ _ Hf Ht). reflexivity.
Qed.

Lemma info_from_lwindex_no_frames_witness :
  info_from_lwindex edge_fs (lit "reversed.lwi")
  = Ok {| timecodes := []; keyframes := [] |}.
Proof.
  apply (info_from_lwindex_no_frames edge_fs (lit "reversed.lwi")
           (universal_newlines reversed_index) 2 0 1 0);
    solve [vm_compute; reflexivity | lia].
Defined.

(** ** An odd number of lines between the markers *)

Lemma skipn_nth_error {A} (l : list A) : forall n x,
  nth_error l n = Some x -> skipn n l = x :: skipn (S n) l.
Proof.
  induction l as [| a l IH]; intros [| n] x H; simpl in *;
    try discriminate.
  - injection H as <-. reflexivity.
  - apply IH, H.
Qed.

Lemma range2_last start stop :
  (start <= stop)%nat -> Nat.odd (stop - start) = true ->
  In (stop - 1)%nat (range2 start stop).
Proof.
  intros Hle Hodd. apply Nat.odd_spec in Hodd as [q Hq].
  unfold range2. apply in_map_iff. exists q. split; [lia |].
  apply in_seq. replace (stop - start + 1)%nat with ((q + 1) * 2)%nat by lia.
  rewrite Nat.div_mul by lia. lia.
Qed.

Lemma end_marker_not_a_frame line :
  ~ block_readable [line; LibavReaderIndex_end].
Proof.
  intros (l1 & l2 & g1 & g2 & r1 & r2 & p & k & [= <- <-] & _ & Hm & _).
  apply (re_match_complete _ _ _ _ lwindex_re2_unambiguous) in Hm
    as (m & Hm & _).
  vm_compute in Hm. discriminate Hm.
Qed.

(** X9: with an odd number of lines between the markers the last block is
    made of a line and the end marker, and [ValueError] is raised. *)
Theorem info_from_lwindex_odd_lines fs indexfile text s e :
  read_text fs indexfile = Ok text ->
  list_index StreamInfo_end (splitlines text) = Ok s ->
  list_index LibavReaderIndex_end (splitlines text) = Ok e ->
  (S s <= e)%nat -> Nat.odd (e - S s) = true ->
  info_from_lwindex fs indexfile = Raise ValueError.
Proof.
  intros Hr Hs He Hle Hodd. unfold info_from_lwindex. rewrite Hr.
  cbn [bind]. apply info_from_lines_format_error.
  right. right. left. unfold frame_blocks. rewrite Hs, He.
  apply Exists_exists.
  assert (Hpos : (0 < e - S s)%nat) by (destruct (e - S s)%nat; [discriminate | lia]).
  pose proof (list_index_Ok _ _ _ He) as Hend.
  destruct (nth_error (splitlines text) (e - 1)) as [line |] eqn:Hline.
  2:{ apply nth_error_None in Hline. apply list_index_lt in He. lia. }
  exists [line; LibavReaderIndex_end]. split.
  - apply in_map_iff. exists (e - 1)%nat.
    split; [| apply range2_last; assumption].
    unfold slice. replace (e - 1 + 2 - (e - 1))%nat with 2%nat by lia.
    rewrite (skipn_nth_error _ _ _ Hline).
    replace (S (e - 1)) with e by lia.
    rewrite (skipn_nth_error _ _ _ Hend). reflexivity.
  - apply end_marker_not_a_frame.
Qed.

Lemma info_from_lwindex_odd_lines_witness :
  info_from_lwindex edge_fs (lit "odd.lwi") = Raise ValueError.
Proof.
  apply (info_from_lwindex_odd_lines edge_fs (lit "odd.lwi")
           (universal_newlines odd_index) 1 5);
    solve [vm_compute; reflexivity | lia].
Defined.

(** ** Frame records with text after their fields *)

Lemma matches_app_rest r s gs rest junk :
  matches r s gs rest -> matches r (s ++ junk) gs (rest ++ junk).
Proof.
  induction 1 as
      [s | p r s gs rest Hm IH
       | name minus class r sign body s gs rest Hsign Hne Hbody Hm IH].
  - constructor.
  - rewrite <- app_assoc. constructor. exact IH.
  - rewrite <- !app_assoc. constructor; assumption.
Qed.

Lemma printed_line1_matches index pos p dts edi :
  matches lwindex_re1
          (lit "Index=" ++ decimal index ++ lit ",POS=" ++ decimal pos
           ++ lit ",PTS=" ++ decimal p ++ lit ",DTS=" ++ decimal dts
           ++ lit ",EDI=" ++ decimal edi)
          [("Index"%string, decimal index); ("POS"%string, decimal pos);
           ("PTS"%string, decimal p); ("DTS"%string, decimal dts);
           ("EDI"%string, decimal edi)] [].
Proof. unfold lwindex_re1. printed_line. Qed.

Lemma printed_line2_matches k pic poc repeat field :
  matches lwindex_re2
          (lit "Key=" ++ decimal k ++ lit ",Pic=" ++ decimal pic
           ++ lit ",POC=" ++ decimal poc ++ lit ",Repeat=" ++ decimal repeat
           ++ lit ",Field=" ++ decimal field)
          [("Key"%string, decimal k); ("Pic"%string, decimal pic);
           ("POC"%string, decimal poc); ("Repeat"%string, decimal repeat);
           ("Field"%string, decimal field)] [].
Proof. unfold lwindex_re2. printed_line. Qed.

Lemma LWIndexFrame_init_rest index pos p dts edi k pic poc repeat field
      junk1 junk2 :
  int_within_limit p -> int_within_limit k ->
  LWIndexFrame_init
    [ (lit "Index=" ++ decimal index ++ lit ",POS=" ++ decimal pos
       ++ lit ",PTS=" ++ decimal p ++ lit ",DTS=" ++ decimal dts
       ++ lit ",EDI=" ++ decimal edi) ++ junk1;
      (lit "Key=" ++ decimal k ++ lit ",Pic=" ++ decimal pic
       ++ lit ",POC=" ++ decimal poc ++ lit ",Repeat=" ++ decimal repeat
       ++ lit ",Field=" ++ decimal field) ++ junk2 ]
  = Ok {| pts := p; key := k |}.
Proof.
  intros Hp Hk. rewrite LWIndexFrame_init_two.
  pose proof (matches_app_rest _ _ _ _ junk1
                (printed_line1_matches index pos p dts edi)) as H1.
  pose proof (matches_app_rest _ _ _ _ junk2
                (printed_line2_matches k pic poc repeat field)) as H2.
  destruct (re_match_complete _ _ _ _ lwindex_re1_unambiguous H1)
    as (m1 & -> & Hlen1 & Hlast1).
  destruct (re_match_complete _ _ _ _ lwindex_re2_unambiguous H2)
    as (m2 & -> & Hlen2 & Hlast2).
  destruct m1 as [| a1 [| a2 [| a3 [| a4 [| a5 [| a6 m1]]]]]];
    try discriminate Hlen1.
  destruct m2 as [| b1 [| b2 [| b3 [| b4 [| b5 [| b6 m2]]]]]];
    try discriminate Hlen2.
  simpl in Hlast1, Hlast2.
  injection Hlast1 as -> -> -> ->. injection Hlast2 as -> -> -> ->.
  simpl group. cbn [bind].
  rewrite (py_int_decimal p Hp). cbn [bind].
  rewrite (py_int_decimal k Hk). reflexivity.
Qed.

(** X10: the timestamp and the keyframe flag of a frame record, of at most
    4300 digits each, are read from the fields alone: whatever text
    follows the last field of either line, the record parses to the
    same frame. *)
Theorem LWIndexFrame_init_ignores_rest
        index pos p dts edi k pic poc repeat field line1 line2 junk1 junk2 :
  int_within_limit p -> int_within_limit k ->
  frame_lines index pos p dts edi k pic poc repeat field = [line1; line2] ->
  LWIndexFrame_init [line1 ++ junk1; line2 ++ junk2]
  = Ok {| pts := p; key := k |}.
Proof.
  intros Hp Hk H.
  assert (E : [line1 ++ junk1; line2 ++ junk2]
              = map (fun lj => fst lj ++ snd lj)
                    (combine [line1; line2] [junk1; junk2]))
    by reflexivity.
  rewrite E, <- H. apply LWIndexFrame_init_rest; assumption.
Qed.

Lemma LWIndexFrame_init_ignores_rest_witness :
  LWIndexFrame_init
    [ lit "Index=0,POS=100,PTS=-3,DTS=0,EDI=0" ++ lit "7 and more";
      lit "Key=1,Pic=1,POC=0,Repeat=1,Field=0" ++ lit ",Extra=5" ]
  = Ok {| pts := -3; key := 1 |}.
Proof.
  apply (LWIndexFrame_init_ignores_rest 0 100 (-3) 0 0 1 1 0 1 0).
  - apply Nat.leb_le. reflexivity.
  - apply Nat.leb_le. reflexivity.
  - reflexivity.
Defined.

(** ** Printed index files *)

(** X11: reading back an index file printed from a stream information
    line and frame records gives the timecodes and the keyframes of
    these records: the timecodes of the records sorted by timestamp,
    records of one timestamp in the order of the file, and, in
    ascending order, the positions in that order of the records flagged
    as keyframes. *)
Theorem info_from_lwindex_printed fs path header si records trailer :
  fs path = Some (lf_text (printed_index header si records trailer)) ->
  Forall (Forall (fun c => is_linebreak c = false)) header ->
  Forall (Forall (fun c => is_linebreak c = false)) trailer ->
  stream_fields_ok si -> (0 < s_den si)%Z ->
  Forall record_readable records ->
  ~ In StreamInfo_end header -> ~ In LibavReaderIndex_end header ->
  exists info sorted,
    info_from_lwindex fs path = Ok info /\
    Permutation sorted (map frame_of records) /\
    StronglySorted (key_le pts) sorted /\
    (forall k, filter (has_key pts k) sorted
               = filter (has_key pts k) (map frame_of records)) /\
    timecodes info
    = map (fun f => (pts f * 1000 * s_num si / s_den si)%Z) sorted /\
    StronglySorted Z.lt (keyframes info) /\
    forall i, In i (keyframes info) <->
              exists f, (0 <= i)%Z /\
                        nth_error sorted (Z.to_nat i) = Some f /\
                        key f <> 0%Z.
Proof.
  intros Hfs Hh Ht Hok Hd Hrec H1 H2.
  assert (Hden : s_den si <> 0%Z) by lia.
  eexists _, (sort_by_key LWIndexFrame_int (map frame_of records)).
  split.
  { apply info_from_lwindex_valid.
    apply (printed_index_file_valid fs path header si records trailer);
      assumption. }
  split; [apply sort_by_key_perm |].
  split; [apply (sort_by_key_sorted pts) |].
  split; [intros k; apply (sort_by_key_stable pts) |].
  split; [reflexivity |].
  split; [apply keyframe_indexes_sorted | apply keyframe_indexes_In].
Qed.

Lemma no_linebreak_lines (l : list str) :
  forallb (forallb (fun c => negb (is_linebreak c))) l = true ->
  Forall (Forall (fun c => is_linebreak c = false)) l.
Proof.
  intros H. rewrite forallb_forall in H. apply Forall_forall. intros s Hs.
  specialize (H s Hs). rewrite forallb_forall in H.
  apply Forall_forall. intros c Hc. apply negb_true_iff, H, Hc.
Qed.

Lemma sample_stream_ok : stream_fields_ok sample_stream.
Proof.
  unfold stream_fields_ok, sample_stream; cbn.
  repeat split; try lia; try discriminate;
    try (apply Nat.leb_le; reflexivity).
  repeat constructor.
Defined.

Lemma records_readable (records : list frame_fields) :
  forallb (fun r =>
             (count_digits (decimal (f_pts r)) <=? int_max_str_digits)%nat
             && (count_digits (decimal (f_key r))
                 <=? int_max_str_digits)%nat) records = true ->
  Forall record_readable records.
Proof.
  intros H. rewrite forallb_forall in H. apply Forall_forall. intros r Hr.
  specialize (H r Hr). apply andb_true_iff in H as [Hp Hk].
  split; apply Nat.leb_le; assumption.
Defined.

Lemma info_from_lwindex_printed_witness :
  exists info sorted,
    info_from_lwindex edge_fs (lit "printed.lwi") = Ok info /\
    Permutation sorted (map frame_of sample_records) /\
    StronglySorted (key_le pts) sorted /\
    (forall k, filter (has_key pts k) sorted
               = filter (has_key pts k) (map frame_of sample_records)) /\
    timecodes info
    = map (fun f => (pts f * 1000 * 1 / 1000)%Z) sorted /\
    StronglySorted Z.lt (keyframes info) /\
    forall i, In i (keyframes info) <->
              exists f, (0 <= i)%Z /\
                        nth_error sorted (Z.to_nat i) = Some f /\
                        key f <> 0%Z.
Proof.
  apply (info_from_lwindex_printed edge_fs (lit "printed.lwi")
           sample_header sample_stream sample_records sample_trailer).
  - reflexivity.
  - apply no_linebreak_lines. reflexivity.
  - apply no_linebreak_lines. reflexivity.
  - apply sample_stream_ok.
  - reflexivity.
  - apply records_readable. vm_compute. reflexivity.
  - simpl. intros [H | [H | []]]; discriminate H.
  - simpl. intros [H | [H | []]]; discriminate H.
Defined.

(** ** Line ends *)

Lemma universal_newlines_line line : forall rest,
  Forall (fun c => is_linebreak c = false) line ->
  universal_newlines (line ++ CR :: LF :: rest)
  = line ++ LF :: universal_newlines rest.
Proof.
  induction line as [| c line IH]; intros rest H.
  - reflexivity.
  - inversion H as [| ? ? Hc Hl]; subst.
    change ((c :: line) ++ CR :: LF :: rest)
      with (c :: (line ++ CR :: LF :: rest)).
    cbn [universal_newlines].
    destruct (Ascii.eqb_spec c CR) as [-> | _]; [discriminate Hc |].
    rewrite IH by exact Hl. reflexivity.
Qed.

Lemma universal_newlines_crlf lines :
  Forall (Forall (fun c => is_linebreak c = false)) lines ->
  universal_newlines (crlf_text lines) = lf_text lines.
Proof.
  unfold crlf_text, lf_text.
  induction 1 as [| l lines Hl _ IH]; [reflexivity |].
  cbn [map concat]. rewrite <- !app_assoc. cbn [app].
  rewrite universal_newlines_line by exact Hl. rewrite IH. reflexivity.
Qed.

(** X12: an index file with the line ends [\r\n] gives what the file of the
    same lines with the line ends [\n] gives. *)
Theorem info_from_lwindex_crlf fs1 path1 fs2 path2 lines :
  Forall (Forall (fun c => is_linebreak c = false)) lines ->
  fs1 path1 = Some (lf_text lines) ->
  fs2 path2 = Some (crlf_text lines) ->
  info_from_lwindex fs2 path2 = info_from_lwindex fs1 path1.
Proof.
  intros Hl H1 H2. unfold info_from_lwindex, read_text. rewrite H1, H2.
  cbn [bind]. rewrite universal_newlines_crlf by exact Hl.
  unfold lf_text. rewrite universal_newlines_id
    by (apply lines_text_no_CR, Hl).
  reflexivity.
Qed.

Lemma info_from_lwindex_crlf_witness :
  info_from_lwindex edge_fs (lit "crlf.lwi")
  = info_from_lwindex edge_fs (lit "printed.lwi").
Proof.
  apply (info_from_lwindex_crlf edge_fs (lit "printed.lwi")
           edge_fs (lit "crlf.lwi")
           (printed_index sample_header sample_stream sample_records
                          sample_trailer)).
  - apply no_linebreak_lines. vm_compute. reflexivity.
  - reflexivity.
  - reflexivity.
Defined.

(** ** The order of the frame records in the file *)

Lemma filter_has_key_id k (l : list Z) :
  filter (has_key (fun z => z) k) l
  = repeat k (length (filter (has_key (fun z => z) k) l)).
Proof.
  induction l as [| a l IH]; [reflexivity |].
  cbn [filter].
  assert (E : has_key (fun z => z) k a = (a =? k)%Z) by reflexivity.
  rewrite E. destruct (Z.eqb_spec a k) as [-> | _]; [| exact IH].
  cbn [length repeat]. f_equal. exact IH.
Qed.

Lemma Permutation_filter_length {A} (p : A -> bool) l l' :
  Permutation l l' -> length (filter p l) = length (filter p l').
Proof.
  induction 1 as [| x l l' _ IH | x y l | l l' l'' _ IH1 _ IH2]; simpl.
  - reflexivity.
  - destruct (p x); simpl; congruence.
  - destruct (p x), (p y); reflexivity.
  - congruence.
Qed.

(** Sorting two lists of numbers with the same elements gives the same
    list. *)
Lemma sort_numbers_perm (l l' : list Z) :
  Permutation l l' ->
  sort_by_key (fun z => z) l = sort_by_key (fun z => z) l'.
Proof.
  intros Hp. apply sort_by_key_unique; [apply sort_by_key_sorted |].
  intros k. rewrite sort_by_key_stable.
  rewrite (filter_has_key_id k l), (filter_has_key_id k l').
  f_equal. apply Permutation_filter_length, Hp.
Qed.

(** X13: the timecodes do not depend on the order of the frame records in
    the file: two valid indexes with the same frame records and the
    same time base have the same timecodes. *)
Theorem timecodes_order_independent
        fs1 path1 fs2 path2 frames1 frames2 num den :
  valid_index_file fs1 path1 frames1 num den ->
  valid_index_file fs2 path2 frames2 num den ->
  Permutation frames1 frames2 ->
  exists info1 info2,
    info_from_lwindex fs1 path1 = Ok info1 /\
    info_from_lwindex fs2 path2 = Ok info2 /\
    timecodes info1 = timecodes info2.
Proof.
  intros H1 H2 Hp.
  rewrite (info_from_lwindex_valid _ _ _ _ _ H1).
  rewrite (info_from_lwindex_valid _ _ _ _ _ H2).
  do 2 eexists. split; [reflexivity |]. split; [reflexivity |].
  cbn [timecodes]. unfold timecode.
  rewrite <- !(map_map pts (fun p => (p * 1000 * num / den)%Z)).
  f_equal. unfold LWIndexFrame_int.
  rewrite !(sort_by_key_map (fun z => z) pts).
  apply sort_numbers_perm, Permutation_map, Hp.
Qed.

Lemma NoDup_filter_has_key {A} (key : A -> Z) k l :
  NoDup (map key l) -> (length (filter (has_key key k) l) <= 1)%nat.
Proof.
  induction l as [| a l IH]; intros Hn; [simpl; lia |].
  inversion Hn as [| ? ? Hnotin Hn']; subst. specialize (IH Hn').
  cbn [filter].
  assert (Ek : has_key key k a = (key a =? k)%Z) by reflexivity.
  rewrite Ek. destruct (Z.eqb_spec (key a) k) as [E | _];
    [| exact IH].
  destruct (filter (has_key key k) l) as [| b t] eqn:Hf; [simpl; lia |].
  exfalso. apply Hnotin.
  assert (Hb : In b (filter (has_key key k) l)) by (rewrite Hf; left; reflexivity).
  apply filter_In in Hb as [Hb Hk]. apply Z.eqb_eq in Hk.
  rewrite E, <- Hk. apply in_map, Hb.
Qed.

Lemma Permutation_filter_keep {A} (p : A -> bool) l l' :
  Permutation l l' -> Permutation (filter p l) (filter p l').
Proof.
  induction 1 as [| x l l' _ IH | x y l | l l' l'' _ IH1 _ IH2]; simpl.
  - constructor.
  - destruct (p x); [constructor |]; exact IH.
  - destruct (p x), (p y); try apply Permutation_refl. constructor.
  - eapply perm_trans; eassumption.
Qed.

Lemma sort_by_key_perm_distinct {A} (key : A -> Z) l l' :
  Permutation l l' -> NoDup (map key l) ->
  sort_by_key key l = sort_by_key key l'.
Proof.
  intros Hp Hn. apply sort_by_key_unique; [apply sort_by_key_sorted |].
  intros k. rewrite sort_by_key_stable.
  pose proof (Permutation_filter_keep (has_key key k) _ _ Hp) as Hpf.
  pose proof (NoDup_filter_has_key key k l Hn) as Hlen.
  destruct (filter (has_key key k) l) as [| a [| b t]];
    [| | simpl in Hlen; lia].
  - apply Permutation_nil in Hpf. symmetry. exact Hpf.
  - apply Permutation_length_1_inv in Hpf. symmetry. exact Hpf.
Qed.

(** X14: when the timestamps are all different, the whole result does not
    depend on the order of the frame records in the file. *)
Theorem info_from_lwindex_order_independent
        fs1 path1 fs2 path2 frames1 frames2 num den :
  valid_index_file fs1 path1 frames1 num den ->
  valid_index_file fs2 path2 frames2 num den ->
  Permutation frames1 frames2 ->
  NoDup (map pts frames1) ->
  info_from_lwindex fs1 path1 = info_from_lwindex fs2 path2.
Proof.
  intros H1 H2 Hp Hn.
  rewrite (info_from_lwindex_valid _ _ _ _ _ H1).
  rewrite (info_from_lwindex_valid _ _ _ _ _ H2).
  rewrite (sort_by_key_perm_distinct LWIndexFrame_int _ _ Hp Hn).
  reflexivity.
Qed.

Lemma printed_sample_valid :
  valid_index_file edge_fs (lit "printed.lwi")
                   (map frame_of sample_records) 1 1000.
Proof.
  apply (printed_index_file_valid edge_fs (lit "printed.lwi")
           sample_header sample_stream sample_records sample_trailer);
    try solve [reflexivity | discriminate | apply sample_stream_ok
              | apply no_linebreak_lines; reflexivity
              | apply records_readable; vm_compute; reflexivity];
    simpl; intros [H | [H | []]]; discriminate H.
Defined.

Lemma shuffled_sample_valid :
  valid_index_file edge_fs (lit "shuffled.lwi")
                   (map frame_of shuffled_records) 1 1000.
Proof.
  apply (printed_index_file_valid edge_fs (lit "shuffled.lwi")
           sample_header sample_stream shuffled_records sample_trailer);
    try solve [reflexivity | discriminate | apply sample_stream_ok
              | apply no_linebreak_lines; reflexivity
              | apply records_readable; vm_compute; reflexivity];
    simpl; intros [H | [H | []]]; discriminate H.
Defined.

Lemma shuffled_sample_perm :
  Permutation (map frame_of sample_records) (map frame_of shuffled_records).
Proof.
  simpl. eapply perm_trans; [apply perm_skip, perm_swap | apply perm_swap].
Defined.

Lemma timecodes_order_independent_witness :
  exists info1 info2,
    info_from_lwindex edge_fs (lit "printed.lwi") = Ok info1 /\
    info_from_lwindex edge_fs (lit "shuffled.lwi") = Ok info2 /\
    timecodes info1 = timecodes info2.
Proof.
  exact (timecodes_order_independent _ _ _ _ _ _ 1 1000
           printed_sample_valid shuffled_sample_valid shuffled_sample_perm).
Defined.

Lemma info_from_lwindex_order_independent_witness :
  info_from_lwindex edge_fs (lit "printed.lwi")
  = info_from_lwindex edge_fs (lit "shuffled.lwi").
Proof.
  apply (info_from_lwindex_order_independent _ _ _ _ _ _ 1 1000
           printed_sample_valid shuffled_sample_valid shuffled_sample_perm).
  simpl. repeat constructor; simpl; intuition discriminate.
Defined.

(** ** The frames [make_keyframes] keeps *)

Lemma drain_get use_scxvid fs : forall acc k d,
  drain use_scxvid acc k fs = Ok d ->
  forall n,
    ((n < k)%nat -> dict_get d n = dict_get acc n) /\
    (forall f, (k <= n)%nat -> nth_error fs (n - k) = Some f ->
               exists v, scene_change use_scxvid f = Some v /\
                         dict_get d n = Ok v).
Proof.
  induction fs as [| f0 fs IH]; intros acc k d H n.
  - simpl in H. injection H as <-. split; [reflexivity |].
    intros f _ Hf. destruct (n - k)%nat; discriminate Hf.
  - cbn [drain] in H. apply bind_Ok in H as (acc' & Hcb & H).
    unfold _cb in Hcb. apply bind_Ok in Hcb as (v0 & Hv0 & Hcb).
    injection Hcb as <-.
    assert (Hprop : scene_change use_scxvid f0 = Some v0).
    { unfold scene_change.
      destruct (if use_scxvid then _SceneChangePrev f0 else Scenechange f0);
        [injection Hv0 as ->; reflexivity | discriminate Hv0]. }
    destruct (IH _ _ _ H n) as [Hlt Hge]. split.
    + intros Hn. rewrite Hlt by lia. simpl.
      destruct (Nat.eqb_spec k n); [lia | reflexivity].
    + intros f Hkn Hf. destruct (Nat.eq_dec n k) as [-> | Hne].
      * rewrite Nat.sub_diag in Hf. injection Hf as <-.
        exists v0. split; [exact Hprop |].
        rewrite Hlt by lia. simpl. rewrite Nat.eqb_refl. reflexivity.
      * apply Hge; [lia |].
        replace (n - k)%nat with (S (n - S k)) in Hf by lia. exact Hf.
Qed.

Lemma drain_total use_scxvid fs : forall acc k,
  Forall (fun f => scene_change use_scxvid f <> None) fs ->
  exists d, drain use_scxvid acc k fs = Ok d.
Proof.
  induction fs as [| f fs IH]; intros acc k H; [simpl; eauto |].
  inversion H as [| ? ? Hf Hfs]; subst. cbn [drain]. unfold _cb.
  unfold scene_change in Hf.
  destruct (if use_scxvid then _SceneChangePrev f else Scenechange f)
    as [v |]; [| contradiction].
  cbn [getattr bind]. apply IH, Hfs.
Qed.

Lemma collect_spec d ns :
  (forall n, In n ns -> exists v, dict_get d n = Ok v) ->
  collect d ns =
  Ok (map Z.of_nat
          (filter (fun n => match dict_get d n with
                            | Ok v => negb (v =? 0)%Z
                            | Raise _ => false
                            end) ns)).
Proof.
  induction ns as [| n ns IH]; intros H; [reflexivity |].
  cbn [collect filter]. destruct (H n (or_introl eq_refl)) as [v Hv].
  rewrite Hv. cbn [bind].
  rewrite IH by (intros; apply H; right; assumption). cbn [bind].
  destruct (v =? 0)%Z; reflexivity.
Qed.

Lemma seq_sorted start n : StronglySorted lt (seq start n).
Proof.
  revert start. induction n as [| n IH]; intros start; simpl; constructor.
  - apply IH.
  - apply Forall_forall. intros m Hm. apply in_seq in Hm. lia.
Qed.

(** What scanning a clip returns when all its frames come and carry the
    scene-change property: the positions of the frames on which the
    property is not zero, in ascending order. *)
Lemma scan_positions clip use_scxvid fs :
  frames clip = Ok fs -> length fs = num_frames clip ->
  Forall (fun f => scene_change use_scxvid f <> None) fs ->
  exists keyframes,
    scan clip use_scxvid = Ok keyframes /\
    StronglySorted Z.lt keyframes /\
    forall i, In i keyframes <->
              exists f v, (0 <= i)%Z /\
                          nth_error fs (Z.to_nat i) = Some f /\
                          scene_change use_scxvid f = Some v /\ v <> 0%Z.
Proof.
  intros Hfs Hlen Hall. unfold scan. rewrite Hfs. cbn [bind].
  destruct (drain_total use_scxvid fs [] 0 Hall) as [d Hd].
  rewrite Hd. cbn [bind].
  assert (Hget : forall n, (n < length fs)%nat ->
                   exists f v, nth_error fs n = Some f /\
                               scene_change use_scxvid f = Some v /\
                               dict_get d n = Ok v).
  { intros n Hn. destruct (nth_error fs n) as [f |] eqn:Hf;
      [| apply nth_error_None in Hf; lia].
    destruct (proj2 (drain_get _ _ _ _ _ Hd n) f) as (v & Hv & Hg);
      [lia | rewrite Nat.sub_0_r; exact Hf |].
    exists f, v. auto. }
  rewrite collect_spec.
  2:{ intros n Hn. apply in_seq in Hn.
      destruct (Hget n) as (f & v & _ & _ & Hg); [lia | eauto]. }
  eexists. split; [reflexivity |]. split.
  - apply StronglySorted_map with (R := lt); [intros; lia |].
    apply StronglySorted_filter, seq_sorted.
  - intros i. rewrite in_map_iff. split.
    + intros (n & <- & Hn). apply filter_In in Hn as [Hn Hv].
      apply in_seq in Hn. destruct (Hget n) as (f & v & Hf & Hp & Hg);
        [lia |].
      rewrite Hg in Hv. apply negb_true_iff, Z.eqb_neq in Hv.
      exists f, v. rewrite Nat2Z.id. split; [lia | auto].
    + intros (f & v & Hi & Hf & Hp & Hv).
      assert (Hn : (Z.to_nat i < length fs)%nat)
        by (apply nth_error_Some; congruence).
      exists (Z.to_nat i). split; [lia |]. apply filter_In. split.
      * apply in_seq. lia.
      * destruct (Hget _ Hn) as (f' & v' & Hf' & Hp' & Hg).
        rewrite Hg. apply negb_true_iff, Z.eqb_neq. congruence.
Qed.

(** X16: with the detector that was asked for installed, [make_keyframes]
    returns, in ascending order, exactly the numbers of the frames of
    the filtered clip whose scene-change property is not zero. *)
Theorem make_keyframes_positions
        {Kwargs} (core : Core Kwargs) clip use_scxvid resize_h
        resize_format kwargs w resized f detected fs :
  floordiv (resize_h * width clip) (height clip) = Ok w ->
  resize_Bilinear core clip w resize_h resize_format = Ok resized ->
  selected_detector core use_scxvid = Some f ->
  f resized kwargs = Ok detected ->
  frames detected = Ok fs -> length fs = num_frames detected ->
  Forall (fun fr => scene_change use_scxvid fr <> None) fs ->
  exists keyframes,
    make_keyframes core clip use_scxvid resize_h resize_format kwargs
    = Ok keyframes /\
    StronglySorted Z.lt keyframes /\
    forall i, In i keyframes <->
              exists fr v, (0 <= i)%Z /\
                           nth_error fs (Z.to_nat i) = Some fr /\
                           scene_change use_scxvid fr = Some v /\
                           v <> 0%Z.
Proof.
  intros Hw Hr Hsel Hf Hfs Hlen Hall. unfold make_keyframes.
  rewrite Hw. cbn [bind]. rewrite Hr. cbn [bind].
  rewrite (detect_installed _ _ _ _ _ _ Hsel Hf). cbn [bind].
  apply scan_positions; assumption.
Qed.

Lemma make_keyframes_positions_witness :
  exists keyframes,
    make_keyframes full_core sample_clip false 360 1 tt = Ok keyframes /\
    StronglySorted Z.lt keyframes /\
    forall i, In i keyframes <->
              exists fr v, (0 <= i)%Z /\
                           nth_error
                             [ {| _SceneChangePrev := Some 1%Z;
                                  Scenechange := Some 1%Z |};
                               {| _SceneChangePrev := Some 0%Z;
                                  Scenechange := Some 0%Z |};
                               {| _SceneChangePrev := Some 0%Z;
                                  Scenechange := Some 0%Z |} ]
                             (Z.to_nat i) = Some fr /\
                           scene_change false fr = Some v /\ v <> 0%Z.
Proof.
  apply (make_keyframes_positions full_core sample_clip false 360 1 tt 640
           {| width := 640; height := 360; num_frames := 3;
              frames := frames sample_clip |}
           (fun clip _ => Ok clip)
           {| width := 640; height := 360; num_frames := 3;
              frames := frames sample_clip |});
    try reflexivity.
  repeat constructor; discriminate.
Defined.

(** X17: a clip of height zero makes [make_keyframes] raise
    [ZeroDivisionError] before any filter is called, whatever plugins
    are installed. *)
Theorem make_keyframes_zero_height
        {Kwargs} (core : Core Kwargs) clip use_scxvid resize_h
        resize_format kwargs :
  height clip = 0%Z ->
  make_keyframes core clip use_scxvid resize_h resize_format kwargs
  = Raise ZeroDivisionError.
Proof. intros H. unfold make_keyframes, floordiv. rewrite H. reflexivity. Qed.

Lemma make_keyframes_zero_height_witness :
  make_keyframes full_core flat_clip true 360 1 tt = Raise ZeroDivisionError.
Proof. apply make_keyframes_zero_height. reflexivity. Defined.

(** ** What [check_audio] returns and raises *)

(** X19: [check_audio] returns [True] exactly when the prober is installed
    and opens the file, and it raises exactly what the prober raises
    other than [AttributeError] and [vs.Error]. *)
Theorem check_audio_cases {Kwargs} (core : Core Kwargs) filename kwargs :
  (check_audio core filename kwargs = Ok true <->
   exists f, bas_Source core = Some f /\ f filename kwargs = Ok tt) /\
  (forall e,
      check_audio core filename kwargs = Raise e <->
      e <> AttributeError /\ (forall msg, e <> VsError msg) /\
      exists f, bas_Source core = Some f /\ f filename kwargs = Raise e).
Proof.
  unfold check_audio. destruct (bas_Source core) as [f |]; cbn [getattr bind].
  - destruct (f filename kwargs) as [[] | e0] eqn:Hf.
    + split.
      * split; [intros _; exists f; auto | reflexivity].
      * intros e. split; [discriminate |].
        intros (_ & _ & f' & [= <-] & H). congruence.
    + split.
      * split; [destruct e0; discriminate |].
        intros (f' & [= <-] & H). congruence.
      * intros e. split.
        -- intros H. destruct e0; try discriminate H;
             injection H as <-;
             (split; [discriminate |]);
             (split; [discriminate |]); exists f; auto.
        -- intros (Ha & Hv & f' & [= <-] & H).
           rewrite Hf in H. injection H as ->.
           destruct e; try reflexivity;
             [contradiction | exfalso; eapply Hv; reflexivity].
  - split.
    + split; [discriminate |]. intros (f & H & _). discriminate H.
    + intros e. split; [discriminate |].
      intros (_ & _ & f & H & _). discriminate H.
Qed.

(** ** Keyframe files next to the video *)

Lemma path_exists_written os fs path writes :
  has_nul path = false ->
  path_exists os (write_text fs path writes) path = true.
Proof.
  intros H. unfold path_exists. rewrite H, write_text_read. reflexivity.
Qed.

(** When [save_keyframes] returns, the name has no NUL character and the
    file has been written. *)
Lemma save_keyframes_Ok os fs filename keyframes u fs' :
  save_keyframes os fs filename keyframes = (Ok u, fs') ->
  has_nul filename = false /\
  exists writes, fs' = write_text fs filename writes.
Proof.
  unfold save_keyframes.
  destruct (has_nul filename); [discriminate |].
  destruct (open_w os filename); [discriminate |].
  destruct (mapM _ keyframes); cbv beta iota zeta;
    destruct (store os filename _); try discriminate.
  intros [= <- <-]. eauto.
Qed.


(** X20: once [get_keyframes] has returned a name, calling it again for the
    same video returns that name and changes nothing, whatever clip,
    plugins and options it is given. *)
Theorem get_keyframes_idempotent
        {Kwargs} os (core core' : Core Kwargs) fs fs' filename name
        clip clip' use_scxvid use_scxvid' resize_h resize_h'
        resize_format resize_format' kwargs kwargs' :
  get_keyframes os core fs filename clip use_scxvid resize_h resize_format
                kwargs = (Ok name, fs') ->
  get_keyframes os core' fs' filename clip' use_scxvid' resize_h'
                resize_format' kwargs' = (Ok name, fs').
Proof.
  unfold get_keyframes. intros H.
  destruct (path_exists os fs (make_keyframes_filename filename)) eqn:He;
    cbn [negb] in H; cbv iota in H.
  - injection H as <- <-. rewrite He. reflexivity.
  - destruct (make_keyframes core clip use_scxvid resize_h resize_format
                             kwargs) as [keyframes | e];
      [| discriminate H].
    destruct (save_keyframes os fs (make_keyframes_filename filename)
                             keyframes) as [[u | e] fs''] eqn:Hs;
      [| discriminate H].
    injection H as <- <-.
    apply save_keyframes_Ok in Hs as (Hnul & writes & ->).
    rewrite path_exists_written by exact Hnul. reflexivity.
Qed.

Lemma get_keyframes_idempotent_witness :
  get_keyframes plain_os scxvid_only_core
    (snd (save_keyframes plain_os empty_fs (lit "video keyframes.txt")
                         [0%Z]))
    (lit "video.mkv") flat_clip false 360 1 tt
  = (Ok (lit "video keyframes.txt"),
     snd (save_keyframes plain_os empty_fs (lit "video keyframes.txt")
                         [0%Z])).
Proof.
  apply (get_keyframes_idempotent plain_os full_core scxvid_only_core
           empty_fs _ (lit "video.mkv") _ sample_clip flat_clip true false
           360 360 1 1 tt tt).
  vm_compute. reflexivity.
Defined.





(** When the file cannot be opened for writing, [get_keyframes] raises
    what [open] raises, once the detection has run, and writes
    nothing. *)
Lemma get_keyframes_open_error
      {Kwargs} os (core : Core Kwargs) fs filename clip use_scxvid
      resize_h resize_format kwargs keyframes e :
  path_exists os fs (make_keyframes_filename filename) = false ->
  make_keyframes core clip use_scxvid resize_h resize_format kwargs
  = Ok keyframes ->
  has_nul (make_keyframes_filename filename) = false ->
  open_w os (make_keyframes_filename filename) = Some e ->
  get_keyframes os core fs filename clip use_scxvid resize_h resize_format
                kwargs = (Raise e, fs).
Proof.
  intros He Hmk Hnul Hopen. unfold get_keyframes, save_keyframes.
  rewrite He, Hmk, Hnul, Hopen. reflexivity.
Qed.

(** ** The LWLibavSource wrapper *)

(** [needle in hay] holds exactly when the needle occurs in the hay. *)
Lemma contains_true needle hay :
  contains needle hay = true <-> exists a b, hay = a ++ needle ++ b.
Proof.
  split.
  - induction hay as [| c hay IH]; cbn [contains].
    + destruct (strip_prefix needle []) as [rest |] eqn:E; [| discriminate].
      intros _. apply strip_prefix_Some in E. exists [], rest. exact E.
    + destruct (strip_prefix needle (c :: hay)) as [rest |] eqn:E.
      * intros _. apply strip_prefix_Some in E. exists [], rest. exact E.
      * intros H. destruct (IH H) as (a & b & ->). exists (c :: a), b.
        reflexivity.
  - intros (a & b & ->). induction a as [| c a IH].
    + simpl app. destruct (needle ++ b) as [| d s] eqn:E.
      * cbn [contains]. destruct needle; [reflexivity | discriminate E].
      * cbn [contains]. rewrite <- E, strip_prefix_app. reflexivity.
    + change ((c :: a) ++ needle ++ b) with (c :: (a ++ needle ++ b)).
      cbn [contains].
      destruct (strip_prefix needle (c :: a ++ needle ++ b));
        [reflexivity | exact IH].
Qed.

Lemma cache_filename_no_slash filename :
  ~ In "/"%char (make_lwi_cache_filename filename).
Proof.
  unfold make_lwi_cache_filename. intros Hin.
  apply in_app_or in Hin as [Hin | Hin].
  - apply in_map_iff in Hin as (c & Hc & _).
    pose proof (cache_char_not_separator c) as Hs. rewrite Hc in Hs.
    discriminate Hs.
  - simpl in Hin. intuition discriminate.
Qed.

Lemma path_join_relative a b :
  ~ In "/"%char b ->
  ((a = [] \/ exists d, a = d ++ ["/"%char]) -> path_join a b = a ++ b) /\
  (a <> [] -> (forall d, a <> d ++ ["/"%char]) ->
   path_join a b = a ++ "/"%char :: b).
Proof.
  intros Hb. unfold path_join.
  assert (E : match b with
              | [] => false
              | c :: _ => Ascii.eqb c "/"
              end = false).
  { destruct b as [| c b]; [reflexivity |].
    destruct (Ascii.eqb_spec c "/"%char) as [-> | _]; [| reflexivity].
    exfalso. apply Hb. left. reflexivity. }
  rewrite E. split.
  - intros [-> | [d ->]]; [reflexivity |].
    rewrite rev_app_distr. cbn [rev app]. rewrite Ascii.eqb_refl.
    destruct (d ++ ["/"%char]); reflexivity.
  - intros Hne Hend. destruct a as [| c a]; [contradiction |].
    destruct (rev (c :: a)) as [| x l] eqn:Hr; [reflexivity |].
    destruct (Ascii.eqb_spec x "/"%char) as [-> | _]; [| reflexivity].
    exfalso. apply (Hend (rev l)).
    rewrite <- (rev_involutive (c :: a)), Hr. reflexivity.
Qed.

(** X23: the cache file lies in the cache directory: its path is the
    directory and the cache file name when the directory is empty or
    ends with a slash, and the directory, a slash and the cache file
    name otherwise; the cache file name has no slash, so that the path
    of the video, absolute or not, never takes the place of the
    directory. *)
Theorem cache_file_in_cachedir cachedir filename :
  ((cachedir = [] \/ exists d, cachedir = d ++ ["/"%char]) ->
   path_join cachedir (make_lwi_cache_filename filename)
   = cachedir ++ make_lwi_cache_filename filename) /\
  (cachedir <> [] -> (forall d, cachedir <> d ++ ["/"%char]) ->
   path_join cachedir (make_lwi_cache_filename filename)
   = cachedir ++ "/"%char :: make_lwi_cache_filename filename) /\
  ~ In "/"%char (make_lwi_cache_filename filename).
Proof.
  destruct (path_join_relative cachedir (make_lwi_cache_filename filename)
              (cache_filename_no_slash filename)) as [H1 H2].
  split; [exact H1 |]. split; [exact H2 |].
  apply cache_filename_no_slash.
Qed.

Lemma cache_file_in_cachedir_witness :
  path_join (lit "cache/") (make_lwi_cache_filename (lit "/v/video.mkv"))
  = lit "cache/" ++ make_lwi_cache_filename (lit "/v/video.mkv") /\
  path_join (lit "cache") (make_lwi_cache_filename (lit "/v/video.mkv"))
  = lit "cache" ++ "/"%char :: make_lwi_cache_filename (lit "/v/video.mkv").
Proof.
  split.
  - apply (proj1 (cache_file_in_cachedir (lit "cache/")
                    (lit "/v/video.mkv"))).
    right. exists (lit "cache"). reflexivity.
  - apply (proj1 (proj2 (cache_file_in_cachedir (lit "cache")
                           (lit "/v/video.mkv")))).
    + discriminate.
    + intros d E. apply (f_equal (@rev ascii)) in E.
      rewrite rev_app_distr in E. discriminate E.
Defined.

(** X24: without the [lsmas] plugin, or with one whose configuration does not
    mention [-Dcachedir], [wrap_lwlibavsource] fails with the message
    for that case, once the cache directory is there, and the video is
    not opened: the files are as they were. *)
Theorem wrap_lwlibavsource_plugin_checks
        {Kwargs} mkdir (lsmas : option (Lsmas Kwargs)) fs filename
        cachedir kwargs :
  (forall e, mkdir cachedir <> MkdirError e) ->
  (lsmas = None ->
   wrap_lwlibavsource mkdir lsmas fs filename cachedir kwargs
   = (Raise (VsError lsmas_missing_message), fs)) /\
  (forall plugin version config,
      lsmas = Some plugin -> Version plugin = Ok version ->
      dict_item version (lit "config") = Ok config ->
      (forall a b, config <> a ++ lit "-Dcachedir" ++ b) ->
      wrap_lwlibavsource mkdir lsmas fs filename cachedir kwargs
      = (Raise (VsError cachedir_unsupported_message), fs)).
Proof.
  intros Hmk. unfold wrap_lwlibavsource. split.
  - intros ->. destruct (mkdir cachedir) as [| | e]; try reflexivity.
    destruct (Hmk e eq_refl).
  - intros plugin version config -> Hv Hc Hno.
    destruct (mkdir cachedir) as [| | e];
      [| | destruct (Hmk e eq_refl)];
      rewrite Hv; cbn [bind]; rewrite Hc;
      (destruct (contains (lit "-Dcachedir") config) eqn:E;
       [apply contains_true in E as (a & b & E);
        destruct (Hno a b E) | reflexivity]).
Qed.

Lemma wrap_lwlibavsource_plugin_checks_witness :
  wrap_lwlibavsource (fun _ => FileExistsError) (@None (Lsmas unit))
                     empty_fs (lit "/v/video.mkv") (lit "cache") tt
  = (Raise (VsError lsmas_missing_message), empty_fs) /\
  wrap_lwlibavsource (fun _ => Created) (Some old_lsmas)
                     empty_fs (lit "/v/video.mkv") (lit "cache") tt
  = (Raise (VsError cachedir_unsupported_message), empty_fs).
Proof.
  split.
  - apply (proj1 (wrap_lwlibavsource_plugin_checks
                    (fun _ => FileExistsError) None empty_fs
                    (lit "/v/video.mkv") (lit "cache") tt
                    ltac:(discriminate))).
    reflexivity.
  - apply (proj2 (wrap_lwlibavsource_plugin_checks
                    (fun _ => Created) (Some old_lsmas) empty_fs
                    (lit "/v/video.mkv") (lit "cache") tt
                    ltac:(discriminate))
                 old_lsmas _ (lit "-Dprefix=/usr") eq_refl eq_refl eq_refl).
    intros a b E.
    assert (H : contains (lit "-Dcachedir") (lit "-Dprefix=/usr") = true)
      by (apply contains_true; exists a, b; exact E).
    discriminate H.
Defined.

(** A failure of [os.mkdir] other than [FileExistsError] is raised
    before anything else is looked at. *)
Lemma wrap_lwlibavsource_mkdir_error
      {Kwargs} mkdir (lsmas : option (Lsmas Kwargs)) fs filename cachedir
      kwargs e :
  mkdir cachedir = MkdirError e ->
  wrap_lwlibavsource mkdir lsmas fs filename cachedir kwargs = (Raise e, fs).
Proof. intros H. unfold wrap_lwlibavsource. rewrite H. reflexivity. Qed.

(** X25: with the plugin built with the [cachedir] option, when opening the
    video leaves a printed index in the cache file of the cache
    directory, [wrap_lwlibavsource] returns the clip with the timecodes
    and the keyframes of the frame records of that index: the
    timecodes of the records sorted by timestamp, records of one
    timestamp in the order of the file, and, in ascending order, the
    positions in that order of the records flagged as keyframes. *)
Theorem wrap_lwlibavsource_printed
        {Kwargs} mkdir plugin (fs : filesystem) filename cachedir
        (kwargs : Kwargs) version a b clip fs' header si records trailer :
  (forall e, mkdir cachedir <> MkdirError e) ->
  Version plugin = Ok version ->
  dict_item version (lit "config") = Ok (a ++ lit "-Dcachedir" ++ b) ->
  LWLibavSource plugin fs filename
                (path_join cachedir (make_lwi_cache_filename filename))
                kwargs = (Ok clip, fs') ->
  fs' (path_join cachedir (make_lwi_cache_filename filename))
  = Some (lf_text (printed_index header si records trailer)) ->
  Forall (Forall (fun c => is_linebreak c = false)) header ->
  Forall (Forall (fun c => is_linebreak c = false)) trailer ->
  stream_fields_ok si -> (0 < s_den si)%Z ->
  Forall record_readable records ->
  ~ In StreamInfo_end header -> ~ In LibavReaderIndex_end header ->
  exists info sorted,
    wrap_lwlibavsource mkdir (Some plugin) fs filename cachedir kwargs
    = (Ok (clip, info), fs') /\
    Permutation sorted (map frame_of records) /\
    StronglySorted (key_le pts) sorted /\
    (forall k, filter (has_key pts k) sorted
               = filter (has_key pts k) (map frame_of records)) /\
    timecodes info
    = map (fun f => (pts f * 1000 * s_num si / s_den si)%Z) sorted /\
    StronglySorted Z.lt (keyframes info) /\
    forall i, In i (keyframes info) <->
              exists f, (0 <= i)%Z /\
                        nth_error sorted (Z.to_nat i) = Some f /\
                        key f <> 0%Z.
Proof.
  intros Hmk Hv Hc Hopen Hfile Hh Ht Hok Hd Hrec H1 H2.
  assert (Hden : s_den si <> 0%Z) by lia.
  eexists _, (sort_by_key LWIndexFrame_int (map frame_of records)).
  split.
  { unfold wrap_lwlibavsource.
    assert (Hcont : contains (lit "-Dcachedir") (a ++ lit "-Dcachedir" ++ b)
                    = true) by (apply contains_true; eauto).
    assert (Hinfo := info_from_lwindex_valid _ _ _ _ _
                       (printed_index_file_valid fs' _ header si records
                          trailer Hfile Hh Ht Hok Hden Hrec H1 H2)).
    destruct (mkdir cachedir) as [| | e]; [| | destruct (Hmk e eq_refl)];
      rewrite Hv; cbn [bind]; rewrite Hc, Hcont; cbn [negb]; cbv iota;
      rewrite Hopen, Hinfo; reflexivity. }
  split; [apply sort_by_key_perm |].
  split; [apply (sort_by_key_sorted pts) |].
  split; [intros k; apply (sort_by_key_stable pts) |].
  split; [reflexivity |].
  split; [apply keyframe_indexes_sorted | apply keyframe_indexes_In].
Qed.

Lemma wrap_lwlibavsource_printed_witness :
  exists info sorted,
    wrap_lwlibavsource (fun _ => FileExistsError) (Some sample_lsmas)
                       empty_fs (lit "/v/video.mkv") (lit "cache") tt
    = (Ok (sample_clip, info),
       write_text empty_fs (lit "cache/_v_video.mkv.lwi")
         [ lf_text (printed_index sample_header sample_stream
                                  sample_records sample_trailer) ]) /\
    Permutation sorted (map frame_of sample_records) /\
    StronglySorted (key_le pts) sorted /\
    (forall k, filter (has_key pts k) sorted
               = filter (has_key pts k) (map frame_of sample_records)) /\
    timecodes info
    = map (fun f => (pts f * 1000 * 1 / 1000)%Z) sorted /\
    StronglySorted Z.lt (keyframes info) /\
    forall i, In i (keyframes info) <->
              exists f, (0 <= i)%Z /\
                        nth_error sorted (Z.to_nat i) = Some f /\
                        key f <> 0%Z.
Proof.
  apply (wrap_lwlibavsource_printed (fun _ => FileExistsError) sample_lsmas
           empty_fs (lit "/v/video.mkv") (lit "cache") tt
           [ (lit "release", lit "1194.0.0.0");
             (lit "config", lit "-Dprefix=/usr -Dcachedir=true") ]
           (lit "-Dprefix=/usr ") (lit "=true") sample_clip _
           sample_header sample_stream sample_records sample_trailer);
    try solve [reflexivity | discriminate | apply sample_stream_ok
              | apply no_linebreak_lines; reflexivity
              | apply records_readable; vm_compute; reflexivity];
    simpl; intros [H | [H | []]]; discriminate H.
Defined.

(** ** Nothing is lost in sorting *)

Lemma keyframe_indexes_length frames :
  length (keyframe_indexes frames)
  = length (filter (fun f => negb (key f =? 0)%Z) frames).
Proof.
  unfold keyframe_indexes, enumerate. rewrite length_map.
  generalize 0%nat. induction frames as [| f frames IH]; intros s;
    [reflexivity |].
  cbn [length seq map combine filter snd].
  destruct (negb (key f =? 0)%Z); cbn [length]; rewrite IH; reflexivity.
Qed.

(** X15: for a valid index file the timecodes are those of the frame records
    of the file, each as often as it occurs there, and there are as
    many keyframes as frame records with a flag that is not zero. *)
Theorem info_from_lwindex_counts fs indexfile frames num den :
  valid_index_file fs indexfile frames num den ->
  exists info,
    info_from_lwindex fs indexfile = Ok info /\
    Permutation (timecodes info)
                (map (fun f => (pts f * 1000 * num / den)%Z) frames) /\
    length (keyframes info)
    = length (filter (fun f => negb (key f =? 0)%Z) frames).
Proof.
  intros Hv. rewrite (info_from_lwindex_valid _ _ _ _ _ Hv).
  eexists. split; [reflexivity |]. cbn [timecodes keyframes]. split.
  - apply Permutation_map, sort_by_key_perm.
  - rewrite keyframe_indexes_length.
    apply Permutation_filter_length, sort_by_key_perm.
Qed.

Lemma info_from_lwindex_counts_witness :
  exists info,
    info_from_lwindex edge_fs (lit "printed.lwi") = Ok info /\
    Permutation (timecodes info)
                (map (fun f => (pts f * 1000 * 1 / 1000)%Z)
                     (map frame_of sample_records)) /\
    length (keyframes info)
    = length (filter (fun f => negb (key f =? 0)%Z)
                     (map frame_of sample_records)).
Proof.
  exact (info_from_lwindex_counts _ _ _ 1 1000 printed_sample_valid).
Defined.

(** ** Errors of the detector *)

(** X18: when the filter of the detector raises, [make_keyframes] passes
    the exception on, except [AttributeError], which it reports as the
    plugin of the detector being missing although it is installed. *)
Theorem make_keyframes_detector_errors
        {Kwargs} (core : Core Kwargs) clip use_scxvid resize_h
        resize_format kwargs w resized f e :
  floordiv (resize_h * width clip) (height clip) = Ok w ->
  resize_Bilinear core clip w resize_h resize_format = Ok resized ->
  selected_detector core use_scxvid = Some f ->
  f resized kwargs = Raise e ->
  make_keyframes core clip use_scxvid resize_h resize_format kwargs
  = Raise match e with
          | AttributeError =>
              VsError (missing_plugin_message (selected_name use_scxvid))
          | _ => e
          end.
Proof.
  intros Hw Hr Hsel Hf. unfold make_keyframes.
  rewrite Hw. cbn [bind]. rewrite Hr. cbn [bind].
  unfold detect, selected_detector, selected_name in *.
  destruct use_scxvid; rewrite Hsel; cbn [getattr bind]; rewrite Hf;
    destruct e; reflexivity.
Qed.

Lemma make_keyframes_detector_errors_witness :
  make_keyframes broken_wwxd_core sample_clip false 360 1 tt
  = Raise (VsError (missing_plugin_message (lit "wwxd"))).
Proof.
  apply (make_keyframes_detector_errors broken_wwxd_core sample_clip false
           360 1 tt 640
           {| width := 640; height := 360; num_frames := 3;
              frames := frames sample_clip |}
           (fun _ _ => Raise AttributeError) AttributeError);
    reflexivity.
Defined.
